(** * Verification of the IoU person tracker (lib/tracker.ts) and its users

    The tracker keeps a list of [TrackedPerson] objects, associates each
    frame's detections with them by a greedy pass over a scored candidate
    list, coasts and ages the tracks that found no detection, evicts the old
    ones and spawns a track for every detection left over.

    Modelling choices, all read off the source:
    - a JavaScript [number] that holds a coordinate, a size, a confidence or
      a score is an IEEE-754 binary64 value, Rocq's primitive [float]; the
      arithmetic operators are the primitive ones, which round to nearest
      even exactly as JavaScript does;
    - the two counters ([nextId], [age]) only ever hold small non-negative
      integers (they start at an integer and are only incremented), so they
      are integers of [Z]; in a double such a counter is exact below 2^53;
    - a [bbox] is a mutable four-element array.  A track stores the very
      array of the detection it was created from or matched with
      ([bbox: d.bbox], [track.bbox = det.bbox]) and the ageing loop updates
      that array in place ([bbox[0] += ...]), so arrays live in a store
      indexed by references and detections and tracks hold references;
    - the track objects themselves are created by the tracker only and each
      sits at exactly one index of [this.tracked], so the list of tracks is a
      list of records updated by index.

    The development also covers the two users of the tracker: the renderer
    (lib/blurRenderer.ts), whose effect on the 2D context is the list of the
    calls it makes, and the part of the component
    (components/SmartFocusTracker.tsx) that drives the tracker, namely the
    frame loop and the click handler.  A call of the loop is an [async]
    function that awaits the detector, so it is modelled in two halves, and
    the page as a transition system over the events that reach it: the
    runs of the effect share the tracker, and the second half of a call may
    come after its run of the effect was cleaned up. *)

From Stdlib Require Import ZArith Lia Bool Floats String.
From stdpp Require Import base list gmap sorting.

#[local] Set Warnings "-inexact-float,-clear-no-such-hyp".
#[local] Open Scope Z_scope.

(** * The JavaScript built-ins the tracker calls *)

Module Js.
#[local] Open Scope float_scope.

Definition isPosZero (x : float) : bool :=
  match classify x with PZero => true | _ => false end.

Definition isNegZero (x : float) : bool :=
  match classify x with NZero => true | _ => false end.

(** [Math.max(...args)] (ECMAScript 21.3.2.24): start from -Infinity; a NaN
    argument makes the result NaN; +0 is larger than -0. *)
Fixpoint maxFrom (highest : float) (args : list float) : float :=
  match args with
  | [] => highest
  | number :: rest =>
      if is_nan number then nan
      else
        let highest := if isPosZero number && isNegZero highest then number else highest in
        let highest := if highest <? number then number else highest in
        maxFrom highest rest
  end.

Definition Math_max (args : list float) : float := maxFrom neg_infinity args.

(** [Math.min(...args)] (ECMAScript 21.3.2.25), symmetrically. *)
Fixpoint minFrom (lowest : float) (args : list float) : float :=
  match args with
  | [] => lowest
  | number :: rest =>
      if is_nan number then nan
      else
        let lowest := if isNegZero number && isPosZero lowest then number else lowest in
        let lowest := if number <? lowest then number else lowest in
        minFrom lowest rest
  end.

Definition Math_min (args : list float) : float := minFrom infinity args.

(** [Math.sqrt] is the correctly rounded square root on every engine. *)
Definition Math_sqrt (x : float) : float := sqrt x.

(** [x ** 2]: the square, which the engines compute as the product
    [x * x] (ECMAScript only asks for an approximation of the power). *)
Definition sqr (x : float) : float := x * x.

End Js.

(** * Data model *)

(** A [bbox] array, [[x, y, width, height]]. *)
Record Bbox := mkBbox { b_x : float; b_y : float; b_w : float; b_h : float }.

(** References to [bbox] arrays, and the store that holds their contents. *)
Definition ref := nat.
Definition Store := ref -> Bbox.

Definition store_set (h : Store) (r : ref) (b : Bbox) : Store :=
  fun r' => if Nat.eqb r' r then b else h r'.

(** [interface Detection]; the field [class] is spelled [d_class]. *)
Record Detection := mkDetection {
  d_id : Z;
  d_bbox : ref;
  d_score : float;
  d_class : string
}.

(** [interface TrackedPerson]. *)
Record TrackedPerson := mkTrack {
  t_id : Z;
  t_bbox : ref;
  t_score : float;
  t_age : Z;
  t_velocity : float * float
}.

(** The two mutable fields of [class PersonTracker]. *)
Record PersonTracker := mkTracker {
  tracked : list TrackedPerson;
  nextId : Z
}.

(** Its two read-only fields. *)
Definition iouThreshold : float := 0.2%float.
Definition maxAge : Z := 15.

(** [new PersonTracker()]. *)
Definition newTracker : PersonTracker := {| tracked := []; nextId := 1 |}.

(** * Geometry *)

Section Geometry.
#[local] Open Scope float_scope.

(** [function iou(a, b)]. *)
Definition iou (a b : Bbox) : float :=
  let x1 := Js.Math_max [b_x a; b_x b] in
  let y1 := Js.Math_max [b_y a; b_y b] in
  let x2 := Js.Math_min [b_x a + b_w a; b_x b + b_w b] in
  let y2 := Js.Math_min [b_y a + b_h a; b_y b + b_h b] in
  let intersection := Js.Math_max [0; x2 - x1] * Js.Math_max [0; y2 - y1] in
  let areaA := b_w a * b_h a in
  let areaB := b_w b * b_h b in
  let union := areaA + areaB - intersection in
  if 0 <? union then intersection / union else 0.

(** [function centerDistance(a, b)]. *)
Definition centerDistance (a b : Bbox) : float :=
  let cx1 := b_x a + b_w a / 2 in
  let cy1 := b_y a + b_h a / 2 in
  let cx2 := b_x b + b_w b / 2 in
  let cy2 := b_y b + b_h b / 2 in
  Js.Math_sqrt (Js.sqr (cx1 - cx2) + Js.sqr (cy1 - cy2)).

End Geometry.

(** * [PersonTracker.update] *)

Definition isPerson (d : Detection) : Prop := d_class d = "person"%string.

#[global] Instance isPerson_dec d : Decision (isPerson d).
Proof. unfold isPerson. apply _. Defined.

(** The object literal [{ id, bbox: d.bbox, score: d.score, age: 0,
    velocity: [0, 0] }]: the new track shares the detection's array. *)
Definition newTrack (n : Z) (d : Detection) : TrackedPerson :=
  {| t_id := n; t_bbox := d_bbox d; t_score := d_score d; t_age := 0;
     t_velocity := (0%float, 0%float) |}.

(** The first branch: [personDetections.map(d => ({ id: this.nextId++, ... }))],
    returning the new tracks and the counter. *)
Fixpoint bootstrap (n : Z) (ds : list Detection) : list TrackedPerson * Z :=
  match ds with
  | [] => ([], n)
  | d :: ds' =>
      let '(ts, n') := bootstrap (n + 1) ds' in
      (newTrack n d :: ts, n')
  end.

(** An entry of [costs]; the field [score] is spelled [c_score]. *)
Record Cost := mkCost { trackIdx : nat; detIdx : nat; c_score : float }.

Section Scoring.
#[local] Open Scope float_scope.

(** The local array [predicted] of a track. *)
Definition predictedBox (h : Store) (t : TrackedPerson) : Bbox :=
  {| b_x := b_x (h (t_bbox t)) + fst (t_velocity t);
     b_y := b_y (h (t_bbox t)) + snd (t_velocity t);
     b_w := b_w (h (t_bbox t));
     b_h := b_h (h (t_bbox t)) |}.

(** The body of the inner loop up to [combinedScore]. *)
Definition combinedScore (predicted det : Bbox) : float :=
  let iouScore := iou predicted det in
  let dist := centerDistance predicted det in
  let maxDim := Js.Math_max [b_w predicted; b_h predicted; 100] in
  let distScore := Js.Math_max [0; 1 - dist / (maxDim * 2)] in
  iouScore * 0.6 + distScore * 0.4.

(** The inner loop [for (di ...)], from index [di] on, pushing onto [costs]. *)
Fixpoint costsInner (h : Store) (predicted : Bbox) (ti di : nat)
    (dets : list Detection) (costs : list Cost) : list Cost :=
  match dets with
  | [] => costs
  | d :: dets' =>
      let s := combinedScore predicted (h (d_bbox d)) in
      costsInner h predicted ti (S di) dets'
        (if 0.1 <? s then costs ++ [mkCost ti di s] else costs)
  end.

(** The outer loop [for (ti ...)], from index [ti] on. *)
Fixpoint costsOuter (h : Store) (ti : nat) (tracks : list TrackedPerson)
    (dets : list Detection) (costs : list Cost) : list Cost :=
  match tracks with
  | [] => costs
  | t :: tracks' =>
      costsOuter h (S ti) tracks' dets
        (costsInner h (predictedBox h t) ti 0 dets costs)
  end.

Definition buildCosts (h : Store) (tracks : list TrackedPerson)
    (dets : list Detection) : list Cost :=
  costsOuter h 0 tracks dets [].

(** The comparator [(a, b) => b.score - a.score]. *)
Definition compareFn (a b : Cost) : float := c_score b - c_score a.

(** [costs.sort(compareFn)].  [Array.prototype.sort] is a stable sort
    (ECMAScript 2019): it puts [a] after [b] only when [compareFn(a, b) > 0]
    and keeps the order of the elements that compare equal.  The result is
    computed here by insertion; [x], which precedes every element of [l] in
    the input, moves behind the elements that must come first. *)
Fixpoint insertCost (x : Cost) (l : list Cost) : list Cost :=
  match l with
  | [] => [x]
  | y :: l' =>
      if 0 <? compareFn x y then y :: insertCost x l' else x :: y :: l'
  end.

Fixpoint sortCosts (l : list Cost) : list Cost :=
  match l with
  | [] => []
  | x :: l' => insertCost x (sortCosts l')
  end.

End Scoring.

(** The state of the matching loop: the tracks (mutated in place by index)
    and the two sets. *)
Record MatchState := mkMatchState {
  ms_tracked : list TrackedPerson;
  matched : gset nat;
  matchedDetections : gset nat
}.

(** The four assignments to [track] in the matching loop.  The velocity is
    read off the store before [track.bbox] is redirected to the detection's
    array. *)
Definition applyMatch (h : Store) (track : TrackedPerson) (det : Detection)
    : TrackedPerson :=
  {| t_id := t_id track;
     t_bbox := d_bbox det;
     t_score := d_score det;
     t_age := 0;
     t_velocity := ((b_x (h (d_bbox det)) - b_x (h (t_bbox track)))%float,
                    (b_y (h (d_bbox det)) - b_y (h (t_bbox track)))%float) |}.

(** One iteration of [for (const { trackIdx, detIdx } of costs)].  Both
    indices come from the loops that built [costs], so the two lookups
    succeed; the last branch is never taken. *)
Definition matchStep (h : Store) (dets : list Detection)
    (st : MatchState) (c : Cost) : MatchState :=
  if bool_decide (trackIdx c ∈ matched st)
     || bool_decide (detIdx c ∈ matchedDetections st)
  then st
  else
    match dets !! detIdx c, ms_tracked st !! trackIdx c with
    | Some det, Some track =>
        {| ms_tracked := <[trackIdx c := applyMatch h track det]> (ms_tracked st);
           matched := {[trackIdx c]} ∪ matched st;
           matchedDetections := {[detIdx c]} ∪ matchedDetections st |}
    | _, _ => st
    end.

Definition matchLoop (h : Store) (dets : list Detection)
    (tracks : list TrackedPerson) (costs : list Cost) : MatchState :=
  foldl (matchStep h dets)
        {| ms_tracked := tracks; matched := ∅; matchedDetections := ∅ |} costs.

(** [this.tracked[ti].age++; bbox[0] += velocity[0]; bbox[1] += velocity[1]]:
    the two additions write into the array the track refers to. *)
Definition coast (h : Store) (t : TrackedPerson) : Store :=
  let h1 :=
    store_set h (t_bbox t)
      {| b_x := (b_x (h (t_bbox t)) + fst (t_velocity t))%float;
         b_y := b_y (h (t_bbox t));
         b_w := b_w (h (t_bbox t));
         b_h := b_h (h (t_bbox t)) |} in
  store_set h1 (t_bbox t)
    {| b_x := b_x (h1 (t_bbox t));
       b_y := (b_y (h1 (t_bbox t)) + snd (t_velocity t))%float;
       b_w := b_w (h1 (t_bbox t));
       b_h := b_h (h1 (t_bbox t)) |}.

Definition older (t : TrackedPerson) : TrackedPerson :=
  {| t_id := t_id t; t_bbox := t_bbox t; t_score := t_score t;
     t_age := t_age t + 1; t_velocity := t_velocity t |}.

(** The loop "Age unmatched tracks", from index [ti] on. *)
Fixpoint ageLoop (m : gset nat) (ti : nat) (tracks : list TrackedPerson)
    (h : Store) : list TrackedPerson * Store :=
  match tracks with
  | [] => ([], h)
  | t :: rest =>
      if bool_decide (ti ∈ m) then
        let '(rest', h') := ageLoop m (S ti) rest h in (t :: rest', h')
      else
        let '(rest', h') := ageLoop m (S ti) rest (coast h t) in
        (older t :: rest', h')
  end.

(** The loop "Add new detections", from index [di] on, pushing onto
    [this.tracked] and incrementing [this.nextId]. *)
Fixpoint spawnLoop (md : gset nat) (di : nat) (dets : list Detection)
    (tracks : list TrackedPerson) (n : Z) : list TrackedPerson * Z :=
  match dets with
  | [] => (tracks, n)
  | d :: rest =>
      if bool_decide (di ∈ md) then spawnLoop md (S di) rest tracks n
      else spawnLoop md (S di) rest (tracks ++ [newTrack n d]) (n + 1)
  end.

(** [update(detections)]: the store and the tracker after the call.  The
    value returned to the caller is [this.tracked], the [tracked] field of
    the result. *)
Definition update (h : Store) (this : PersonTracker) (detections : list Detection)
    : Store * PersonTracker :=
  let personDetections := filter isPerson detections in
  match tracked this with
  | [] =>
      let '(ts, n) := bootstrap (nextId this) personDetections in
      (h, {| tracked := ts; nextId := n |})
  | _ :: _ =>
      let costs := buildCosts h (tracked this) personDetections in
      let st := matchLoop h personDetections (tracked this) (sortCosts costs) in
      let '(aged, h') := ageLoop (matched st) 0 (ms_tracked st) h in
      let kept := filter (fun t => t_age t < maxAge) aged in
      let '(ts, n) := spawnLoop (matchedDetections st) 0 personDetections kept (nextId this) in
      (h', {| tracked := ts; nextId := n |})
  end.

(** [reset()]. *)
Definition reset (this : PersonTracker) : PersonTracker :=
  {| tracked := []; nextId := 1 |}.

(** [getTracked()]. *)
Definition getTracked (this : PersonTracker) : list TrackedPerson := tracked this.

(** * [findPersonAtPoint] *)

Section PointQuery.
#[local] Open Scope float_scope.

(** The test of the [if] in the scan. *)
Definition containsPoint (b : Bbox) (vx vy : float) : bool :=
  (b_x b <=? vx) && (vx <=? b_x b + b_w b) && (b_y b <=? vy) && (vy <=? b_y b + b_h b).

(** [for (const person of persons) ...; return null]. *)
Fixpoint scanPersons (h : Store) (persons : list TrackedPerson) (vx vy : float)
    : option TrackedPerson :=
  match persons with
  | [] => None
  | person :: rest =>
      if containsPoint (h (t_bbox person)) vx vy then Some person
      else scanPersons h rest vx vy
  end.

Definition findPersonAtPoint (h : Store) (persons : list TrackedPerson)
    (x y canvasWidth canvasHeight videoWidth videoHeight : float)
    : option TrackedPerson :=
  let scaleX := videoWidth / canvasWidth in
  let scaleY := videoHeight / canvasHeight in
  let vx := x * scaleX in
  let vy := y * scaleY in
  scanPersons h persons vx vy.

End PointQuery.

(** * The renderer (lib/blurRenderer.ts) *)

(** The two values the renderer gives to [ctx.filter]: the template string
    [blur(${blurAmount}px)], which is determined by the number, and
    ["none"]. *)
Inductive CanvasFilter :=
| filterBlur (blurAmount : float)
| filterNone.

(** The calls the renderer makes on the 2D context; [setFilter] is the
    assignment to [ctx.filter], and the image of [drawImage] is always the
    video. *)
Inductive CanvasCall :=
| save
| restore
| setFilter (f : CanvasFilter)
| drawImage (dx dy dw dh : float)
| beginPath
| rect (x y w h : float)
| clip.

(** [!n] for a number [n]: true for 0, -0 and NaN. *)
Definition falsy (n : float) : bool := is_nan n || (n =? 0)%float.

(** [persons.find((p) => p.id === selectedPersonId)]. *)
Fixpoint findById (persons : list TrackedPerson) (selectedPersonId : Z)
    : option TrackedPerson :=
  match persons with
  | [] => None
  | p :: rest =>
      if Z.eqb (t_id p) selectedPersonId then Some p else findById rest selectedPersonId
  end.

Section Renderer.
#[local] Open Scope float_scope.

(** [renderWithSelectiveBlur(ctx, video, canvas, persons, selectedPersonId,
    blurAmount = 15)]: the calls made on [ctx], in order.  [W], [H] are
    [canvas.width], [canvas.height] and [VW], [VH] are [video.videoWidth],
    [video.videoHeight]; an omitted [blurAmount] is [None]. *)
Definition renderWithSelectiveBlur (h : Store) (W H VW VH : float)
    (persons : list TrackedPerson) (selectedPersonId : option Z)
    (blurAmount : option float) : list CanvasCall :=
  let blurAmount := default 15 blurAmount in
  if falsy VW || falsy VH then []
  else
    let scaleX := W / VW in
    let scaleY := H / VH in
    let background :=
      [save; setFilter (filterBlur blurAmount); drawImage 0 0 W H; restore] in
    match selectedPersonId with
    | None => background
    | Some sel =>
        match findById persons sel with
        | None => background
        | Some person =>
            let b := h (t_bbox person) in
            let dx := b_x b * scaleX in
            let dy := b_y b * scaleY in
            let dw := b_w b * scaleX in
            let dh := b_h b * scaleY in
            background ++
            [save; beginPath; rect dx dy dw dh; clip; setFilter filterNone;
             drawImage 0 0 W H; restore]
        end
    end.

End Renderer.

(** * The component (components/SmartFocusTracker.tsx) *)

(** An entry of the array the detector resolves to. *)
Record Prediction := mkPrediction {
  p_bbox : ref;
  p_score : float;
  p_class : string
}.

(** [predictions.filter(p => p.class === 'person').map((p, i) => ({ id: i,
    bbox: p.bbox, score: p.score, class: p.class }))]. *)
Definition toDetections (predictions : list Prediction) : list Detection :=
  imap (fun i p => {| d_id := Z.of_nat i; d_bbox := p_bbox p;
                      d_score := p_score p; d_class := p_class p |})
       (filter (fun p => p_class p = "person"%string) predictions).

(** What the page reads as [canvas.width], [canvas.height],
    [video.videoWidth] and [video.videoHeight]. *)
Record View := mkView {
  canvas_width : float;
  canvas_height : float;
  videoWidth : float;
  videoHeight : float
}.

(** Where the [loop] of one run of the effect stands: a call of it is
    requested with [requestAnimationFrame]; it is suspended at [await
    modelRef.current.detect(...)]; or it has returned without requesting
    another call. *)
Inductive Stage :=
| requested
| suspended
| returned.

(** What one run of the effect closes over: its variables [running],
    [frameIdx] and [lastDetections], and the [selectedPersonId] and
    [blurAmount] of the render that ran it; with the stage of its [loop]. *)
Record Effect := mkEffect {
  running : bool;
  frameIdx : Z;
  lastDetections : list Detection;
  selectedPersonId : option Z;
  blurAmount : float;
  stage : Stage
}.

Definition detectEveryN : Z := 3.

(** [let running = true; let frameIdx = 0; let lastDetections = []] and the
    first [requestAnimationFrame(loop)]. *)
Definition newEffect (selectedPersonId : option Z) (blurAmount : float) : Effect :=
  {| running := true; frameIdx := 0; lastDetections := [];
     selectedPersonId := selectedPersonId; blurAmount := blurAmount;
     stage := requested |}.

(** What a call of [loop] meets up to the [await]: whether [videoRef] and
    [canvasRef] are set, whether the video is paused or has ended, the sizes
    read off the canvas and the video, whether the canvas gives a 2D context
    and whether [modelRef.current] is set. *)
Record Pass := mkPass {
  mounted : bool;
  paused : bool;
  ended : bool;
  view : View;
  context : bool;
  model : bool
}.

(** The state the effects share: the arrays, the tracker of [trackerRef]
    and the calls made on the context so far; with the runs of the effect,
    in the order in which they started. *)
Record Page := mkPage {
  pg_store : Store;
  pg_tracker : PersonTracker;
  pg_effects : list Effect;
  pg_calls : list CanvasCall
}.

(** The page with the variables of run [k] of the effect replaced by [e]. *)
Definition withEffect (pg : Page) (k : nat) (e : Effect) : Page :=
  {| pg_store := pg_store pg; pg_tracker := pg_tracker pg;
     pg_effects := <[k := e]> (pg_effects pg); pg_calls := pg_calls pg |}.

(** The variables [e] with another stage, another [frameIdx], other
    [lastDetections], and with [running = false]. *)
Definition atStage (s : Stage) (e : Effect) : Effect :=
  {| running := running e; frameIdx := frameIdx e;
     lastDetections := lastDetections e; selectedPersonId := selectedPersonId e;
     blurAmount := blurAmount e; stage := s |}.

Definition atFrame (n : Z) (e : Effect) : Effect :=
  {| running := running e; frameIdx := n;
     lastDetections := lastDetections e; selectedPersonId := selectedPersonId e;
     blurAmount := blurAmount e; stage := stage e |}.

Definition holding (ds : list Detection) (e : Effect) : Effect :=
  {| running := running e; frameIdx := frameIdx e;
     lastDetections := ds; selectedPersonId := selectedPersonId e;
     blurAmount := blurAmount e; stage := stage e |}.

Definition halted (e : Effect) : Effect :=
  {| running := false; frameIdx := frameIdx e;
     lastDetections := lastDetections e; selectedPersonId := selectedPersonId e;
     blurAmount := blurAmount e; stage := stage e |}.

(** The end of [loop], from "Update tracker" on, in the run [k] of the
    effect, whose variables are [e] by then: [update] on the shared tracker,
    the render with the sizes [v] that the canvas and the video have at that
    moment, and the request of the next call.  What only feeds the display
    ([frameCount], [isProcessing], [trackedPersons]) is left out. *)
Definition finishPass (pg : Page) (k : nat) (e : Effect) (v : View) : Page :=
  let r := update (pg_store pg) (pg_tracker pg) (lastDetections e) in
  let persons := tracked r.2 in
  {| pg_store := r.1;
     pg_tracker := r.2;
     pg_effects := <[k := atStage requested e]> (pg_effects pg);
     pg_calls :=
       pg_calls pg ++
       renderWithSelectiveBlur r.1
         (canvas_width v) (canvas_height v) (videoWidth v) (videoHeight v)
         persons (selectedPersonId e) (Some (blurAmount e)) |}.

(** A requested call of [loop] in the run [k] of the effect, from its first
    line to the [await], or to its end when the detector is not consulted.
    The call returns at once when the run was cleaned up; it requests
    another call and returns when there is nothing to show; it returns when
    the canvas gives no context. *)
Definition loopCall (pg : Page) (k : nat) (p : Pass) : Page :=
  match pg_effects pg !! k with
  | None => pg
  | Some e =>
      match stage e with
      | requested =>
          if negb (running e) then withEffect pg k (atStage returned e)
          else if negb (mounted p) || paused p || ended p
                  || (videoWidth (view p) =? 0)%float
          then pg
          else if negb (context p) then withEffect pg k (atStage returned e)
          else
            let e := atFrame (frameIdx e + 1) e in
            if (Z.rem (frameIdx e) detectEveryN =? 0) && model p
            then withEffect pg k (atStage suspended e)
            else finishPass pg k e (view p)
      | _ => pg
      end
  end.

(** The rest of a call of [loop] suspended in the run [k] of the effect,
    when the promise of the detector settles: with the array it resolves to,
    or rejected ([None]), which the [catch] ignores.  The rest of the call
    does not test [running]. *)
Definition loopResume (pg : Page) (k : nat)
    (answer : option (list Prediction)) (v : View) : Page :=
  match pg_effects pg !! k with
  | None => pg
  | Some e =>
      match stage e with
      | suspended =>
          let e :=
            match answer with
            | Some predictions => holding (toDetections predictions) e
            | None => e
            end in
          finishPass pg k e v
      | _ => pg
      end
  end.

(** What happens to the page, one thing at a time: the body of the effect
    runs past its guard, with the selection and the blur of the render; the
    function returned by run [k] of the effect is called; the browser makes
    the call of [loop] that run [k] requested; the promise awaited in run
    [k] settles; [stopInput] resets the tracker.  A frame cancelled with
    [cancelAnimationFrame] is a frame that never comes. *)
Inductive Event :=
| effectRuns (selectedPersonId : option Z) (blurAmount : float)
| effectCleanup (k : nat)
| animationFrame (k : nat) (p : Pass)
| detectSettles (k : nat) (answer : option (list Prediction)) (v : View)
| stopInput.

Definition step (pg : Page) (ev : Event) : Page :=
  match ev with
  | effectRuns selectedPersonId blurAmount =>
      {| pg_store := pg_store pg; pg_tracker := pg_tracker pg;
         pg_effects := pg_effects pg ++ [newEffect selectedPersonId blurAmount];
         pg_calls := pg_calls pg |}
  | effectCleanup k =>
      match pg_effects pg !! k with
      | Some e => withEffect pg k (halted e)
      | None => pg
      end
  | animationFrame k p => loopCall pg k p
  | detectSettles k answer v => loopResume pg k answer v
  | stopInput =>
      {| pg_store := pg_store pg; pg_tracker := reset (pg_tracker pg);
         pg_effects := pg_effects pg; pg_calls := pg_calls pg |}
  end.

Definition runPage (pg : Page) (events : list Event) : Page := foldl step pg events.

(** The page when the component is mounted: [useRef(new PersonTracker())],
    no run of the effect yet. *)
Definition mountPage (h : Store) : Page :=
  {| pg_store := h; pg_tracker := newTracker; pg_effects := []; pg_calls := [] |}.

(** What [handleCanvasClick] reads of the event and of
    [canvas.getBoundingClientRect()]. *)
Record Click := mkClick {
  clientX : float;
  clientY : float;
  rect_left : float;
  rect_top : float;
  rect_width : float;
  rect_height : float
}.

Section ClickHandler.
#[local] Open Scope float_scope.

(** [handleCanvasClick(e)]: the selection after the click, [prev] being the
    selection before.  [view] is [None] when the canvas or the video is not
    mounted. *)
Definition handleCanvasClick (h : Store) (tracker : PersonTracker)
    (view : option View) (e : Click) (prev : option Z) : option Z :=
  match view with
  | None => prev
  | Some view =>
      let x := clientX e - rect_left e in
      let y := clientY e - rect_top e in
      match findPersonAtPoint h (getTracked tracker)
              (x * (canvas_width view / rect_width e))
              (y * (canvas_height view / rect_height e))
              (canvas_width view) (canvas_height view)
              (videoWidth view) (videoHeight view) with
      | Some person =>
          if decide (prev = Some (t_id person)) then None else Some (t_id person)
      | None => None
      end
  end.

End ClickHandler.

(** * Notions used to state the properties *)

(** ** Order on the numbers *)

Module Num.

(** [signed s x]: [x] is a non-zero number (finite or infinite) of sign [s]. *)
Definition signed (s : bool) (x : spec_float) : Prop :=
  match x with
  | S754_finite s' _ _ | S754_infinity s' => s' = s
  | _ => False
  end.

(** The order of the numbers: [SFle x y] when neither is NaN and [x] is not
    above [y]. *)
Definition SFle (x y : spec_float) : Prop :=
  match SFcompare x y with Some (Lt | Eq) => True | _ => False end.

(** [le x y]: both are numbers and [x] is not above [y]; it is what [<=?]
    decides. *)
Definition le (x y : float) : Prop := SFle (Prim2SF x) (Prim2SF y).

End Num.

Section ScoreNotions.
#[local] Open Scope float_scope.

(** [retained c]: the test [combinedScore > 0.1] that guards the push. *)
Definition retained (c : Cost) : Prop := (0.1 <? c_score c) = true.

#[global] Instance retained_dec c : Decision (retained c).
Proof. unfold retained. apply _. Defined.

(** Every (track, detection) pair with its score, track-major, then in
    detection order: the order in which the two loops visit the pairs. *)
Definition pairScores (h : Store) (ti : nat) (t : TrackedPerson)
    (dets : list Detection) : list Cost :=
  imap (fun di d => mkCost ti di (combinedScore (predictedBox h t) (h (d_bbox d)))) dets.

Definition allPairs (h : Store) (tracks : list TrackedPerson)
    (dets : list Detection) : list Cost :=
  mjoin (imap (fun ti t => pairScores h ti t dets) tracks).

(** [notBelow a b]: the score of [a] is not below the score of [b]. *)
Definition notBelow (a b : Cost) : Prop := Num.le (c_score b) (c_score a).

Definition scored (c : Cost) : Prop := is_nan (c_score c) = false.

(** [sameScore s c]: the score of [c] is numerically equal to [s]. *)
Definition sameScore (s : float) (c : Cost) : Prop := (c_score c =? s) = true.

#[global] Instance sameScore_dec s c : Decision (sameScore s c).
Proof. unfold sameScore. apply _. Defined.

(** The constants [intersection] and [union] of [iou]. *)
Definition interArea (a b : Bbox) : float :=
  Js.Math_max [0; Js.Math_min [b_x a + b_w a; b_x b + b_w b] - Js.Math_max [b_x a; b_x b]]
  * Js.Math_max [0; Js.Math_min [b_y a + b_h a; b_y b + b_h b] - Js.Math_max [b_y a; b_y b]].

Definition unionArea (a b : Bbox) : float :=
  b_w a * b_h a + b_w b * b_h b - interArea a b.

(** Two rectangles that do not overlap: one ends, on some axis, where the
    other has not begun yet. *)
Definition disjointBoxes (a b : Bbox) : Prop :=
  (b_x a + b_w a <=? b_x b) = true \/ (b_x b + b_w b <=? b_x a) = true \/
  (b_y a + b_h a <=? b_y b) = true \/ (b_y b + b_h b <=? b_y a) = true.

(** The extent of the overlap on one axis: [lo1], [lo2] are the two lower
    ends and [hi1], [hi2] the two upper ends. *)
Definition extent (lo1 hi1 lo2 hi2 : float) : float :=
  Js.Math_max [0; Js.Math_min [hi1; hi2] - Js.Math_max [lo1; lo2]].

End ScoreNotions.

(** ** The greedy walk *)

(** The walk as the specification words it: go through the candidates in
    order, and commit a pair exactly when neither its track nor its
    detection is in a pair committed before.  [committed costs] lists the
    committed (track index, detection index) pairs in commit order. *)
Definition commitStep (acc : list (nat * nat)) (c : Cost) : list (nat * nat) :=
  if bool_decide (trackIdx c ∈ acc.*1) || bool_decide (detIdx c ∈ acc.*2)
  then acc
  else acc ++ [(trackIdx c, detIdx c)].

Definition committed (costs : list Cost) : list (nat * nat) :=
  foldl commitStep [] costs.

(** Candidates whose two indices are valid, as the two loops produce them. *)
Definition inRange (dets : list Detection) (tracks : list TrackedPerson)
    (c : Cost) : Prop :=
  is_Some (tracks !! trackIdx c) /\ is_Some (dets !! detIdx c).

(** What relates the state of the loop of the source to the list of pairs
    committed so far. *)
Record MatchInv (h : Store) (dets : list Detection) (tracks : list TrackedPerson)
    (st : MatchState) (acc : list (nat * nat)) : Prop := {
  inv_matched : matched st = list_to_set (acc.*1);
  inv_matchedDetections : matchedDetections st = list_to_set (acc.*2);
  inv_length : length (ms_tracked st) = length tracks;
  inv_nodup_tracks : NoDup (acc.*1);
  inv_nodup_dets : NoDup (acc.*2);
  inv_untouched : forall ti, ti ∉ acc.*1 -> ms_tracked st !! ti = tracks !! ti;
  inv_applied : forall ti di, (ti, di) ∈ acc ->
    exists t d, tracks !! ti = Some t /\ dets !! di = Some d /\
                ms_tracked st !! ti = Some (applyMatch h t d)
}.

(** ** The stages of an [update] call *)

(** [personDetections]. *)
Definition personDetections (detections : list Detection) : list Detection :=
  filter isPerson detections.

(** [costs] once sorted. *)
Definition sortedCosts (h : Store) (this : PersonTracker)
    (detections : list Detection) : list Cost :=
  sortCosts (buildCosts h (tracked this) (personDetections detections)).

(** The state when the matching loop ends. *)
Definition matching (h : Store) (this : PersonTracker)
    (detections : list Detection) : MatchState :=
  matchLoop h (personDetections detections) (tracked this)
            (sortedCosts h this detections).

(** The (track index, detection index) pairs committed by the call. *)
Definition matches (h : Store) (this : PersonTracker)
    (detections : list Detection) : list (nat * nat) :=
  committed (sortedCosts h this detections).

(** What the loop does to the track at index [ti]. *)
Definition agedTrack (m : gset nat) (ti : nat) (t : TrackedPerson) : TrackedPerson :=
  if bool_decide (ti ∈ m) then t else older t.

(** The array of [t] after [bbox[0] += velocity[0]; bbox[1] += velocity[1]]. *)
Definition moved (b : Bbox) (t : TrackedPerson) : Bbox :=
  {| b_x := (b_x b + fst (t_velocity t))%float;
     b_y := (b_y b + snd (t_velocity t))%float;
     b_w := b_w b;
     b_h := b_h b |}.

(** The track objects that existed before the call, as they are after the
    matching and ageing loops, at their indices, evicted ones included. *)
Definition postTracks (h : Store) (this : PersonTracker)
    (detections : list Detection) : list TrackedPerson :=
  let st := matching h this detections in
  (ageLoop (matched st) 0 (ms_tracked st) h).1.

(** The store after the ageing loop. *)
Definition postStore (h : Store) (this : PersonTracker)
    (detections : list Detection) : Store :=
  let st := matching h this detections in
  (ageLoop (matched st) 0 (ms_tracked st) h).2.

(** The detections left without a track, from index [di] on, in order. *)
Fixpoint leftOver (md : gset nat) (di : nat) (dets : list Detection)
    : list Detection :=
  match dets with
  | [] => []
  | d :: rest =>
      if bool_decide (di ∈ md) then leftOver md (S di) rest
      else d :: leftOver md (S di) rest
  end.

(** Tracks numbered from [n] on, one per detection. *)
Definition numbered (n : Z) (ds : list Detection) : list TrackedPerson :=
  imap (fun k d => newTrack (n + Z.of_nat k) d) ds.

(** The tracks created by the call: one per person detection when there was
    no track, one per detection left over otherwise. *)
Definition created (h : Store) (this : PersonTracker)
    (detections : list Detection) : list TrackedPerson :=
  match tracked this with
  | [] => numbered (nextId this) (personDetections detections)
  | _ :: _ =>
      numbered (nextId this)
        (leftOver (matchedDetections (matching h this detections)) 0
                  (personDetections detections))
  end.

(** The tracks that survive the eviction filter. *)
Definition survivors (h : Store) (this : PersonTracker)
    (detections : list Detection) : list TrackedPerson :=
  match tracked this with
  | [] => []
  | _ :: _ => filter (fun t => t_age t < maxAge) (postTracks h this detections)
  end.

(** C5 as first stated: every track left unmatched grows one call older,
    keeps its identity, score and velocity, keeps the width and height of
    its array, and has x and y in its array advanced by exactly its
    velocity. *)
Definition unmatched_advance_by_velocity
    (h : Store) (this : PersonTracker) (detections : list Detection) : Prop :=
  forall ti t,
    tracked this !! ti = Some t ->
    ti ∉ matched (matching h this detections) ->
    let h' := (update h this detections).1 in
    postTracks h this detections !! ti =
      Some {| t_id := t_id t; t_bbox := t_bbox t; t_score := t_score t;
              t_age := t_age t + 1; t_velocity := t_velocity t |} /\
    b_w (h' (t_bbox t)) = b_w (h (t_bbox t)) /\
    b_h (h' (t_bbox t)) = b_h (h (t_bbox t)) /\
    b_x (h' (t_bbox t)) = (b_x (h (t_bbox t)) + fst (t_velocity t))%float /\
    b_y (h' (t_bbox t)) = (b_y (h (t_bbox t)) + snd (t_velocity t))%float.

(** ** Identities and sequences of calls *)

Definition ids (l : list TrackedPerson) : list Z := t_id <$> l.

(** The invariant of the tracker: the identities of the live tracks increase
    along the list and are all below the counter. *)
Record wf (this : PersonTracker) : Prop := {
  wf_sorted : StronglySorted Z.lt (ids (tracked this));
  wf_below : Forall (fun i => i < nextId this) (ids (tracked this))
}.

(** The store and tracker after the calls [update(frames[0])],
    [update(frames[1])], ... *)
Fixpoint runState (h : Store) (this : PersonTracker)
    (frames : list (list Detection)) : Store * PersonTracker :=
  match frames with
  | [] => (h, this)
  | detections :: rest =>
      let r := update h this detections in runState r.1 r.2 rest
  end.

(** The lists returned by these calls, in call order. *)
Fixpoint run (h : Store) (this : PersonTracker)
    (frames : list (list Detection)) : list (list TrackedPerson) :=
  match frames with
  | [] => []
  | detections :: rest =>
      let r := update h this detections in tracked r.2 :: run r.1 r.2 rest
  end.

(** The tracks created by these calls, in creation order. *)
Fixpoint runCreated (h : Store) (this : PersonTracker)
    (frames : list (list Detection)) : list TrackedPerson :=
  match frames with
  | [] => []
  | detections :: rest =>
      let r := update h this detections in
      created h this detections ++ runCreated r.1 r.2 rest
  end.

(** Every identity seen in the returned lists, in the order seen. *)
Definition observed (outs : list (list TrackedPerson)) : list Z :=
  mjoin (ids <$> outs).

(** The values of a list in order of first appearance, given the values
    [seen] before. *)
Fixpoint firstSeen (seen : list Z) (l : list Z) : list Z :=
  match l with
  | [] => []
  | x :: l' =>
      if decide (x ∈ seen) then firstSeen seen l'
      else x :: firstSeen (x :: seen) l'
  end.

(** ** Concrete runs *)

Module Scenario.
#[local] Open Scope float_scope.

(** A person detection whose [bbox] is the array [r]. *)
Definition person (r : ref) (s : float) : Detection :=
  {| d_id := 0; d_bbox := r; d_score := s; d_class := "person" |}.

(** Array 0 is a large rectangle and array 1 a small one inside it; array 2
    is the rectangle of the stability test of the specification; arrays 3
    and 4 are two squares 100 apart and arrays 5 and 6 two copies of the
    square halfway between them. *)
Definition store0 : Store :=
  fun r =>
    match r with
    | 0%nat => {| b_x := 0; b_y := 0; b_w := 400; b_h := 400 |}
    | 1%nat => {| b_x := 300; b_y := 300; b_w := 20; b_h := 20 |}
    | 2%nat => {| b_x := 10; b_y := 10; b_w := 50; b_h := 50 |}
    | 3%nat => {| b_x := 0; b_y := 0; b_w := 50; b_h := 50 |}
    | 4%nat => {| b_x := 100; b_y := 0; b_w := 50; b_h := 50 |}
    | 5%nat | 6%nat => {| b_x := 50; b_y := 0; b_w := 50; b_h := 50 |}
    | _ => {| b_x := 0; b_y := 0; b_w := 0; b_h := 0 |}
    end.

(** The tracker after one call with the detection of array 0. *)
Definition one : Store * PersonTracker :=
  runState store0 newTracker [[person 0%nat 0.9]].

(** The detector runs on one frame out of three and the caller passes its
    last result to [update] at every frame: here the detection of array 0,
    then the detection object of array 1 on two consecutive calls. *)
Definition reused : Store * PersonTracker :=
  runState store0 newTracker
    [[person 0%nat 0.9]; [person 1%nat 0.8]; [person 1%nat 0.8]].

(** Two tracks, on arrays 3 and 4. *)
Definition two : Store * PersonTracker :=
  runState store0 newTracker [[person 3%nat 0.9; person 4%nat 0.9]].

End Scenario.

(** * Further notions *)

(** ** Calls, ages and arrays *)

(** A call in which no person is detected. *)
Definition quiet (detections : list Detection) : Prop :=
  personDetections detections = [].

(** A track [k] calls older. *)
Definition olderBy (k : Z) (t : TrackedPerson) : TrackedPerson :=
  {| t_id := t_id t; t_bbox := t_bbox t; t_score := t_score t;
     t_age := t_age t + k; t_velocity := t_velocity t |}.

(** What [update] reads of a detection: its array and its score. *)
Definition seen (d : Detection) : ref * float := (d_bbox d, d_score d).

(** The arrays the tracks of a list refer to. *)
Definition arrays (l : list TrackedPerson) : list ref := t_bbox <$> l.

(** The arrays of the person detections of a sequence of calls. *)
Definition frameArrays (frames : list (list Detection)) : list ref :=
  d_bbox <$> mjoin (personDetections <$> frames).

(** What keeps the tracks of a call on arrays of their own: the tracks held
    refer to distinct arrays, the person detections come with distinct
    arrays, and none of these is an array a track refers to. *)
Record Apart (this : PersonTracker) (detections : list Detection) : Prop := {
  ap_tracks : NoDup (arrays (tracked this));
  ap_dets : NoDup (d_bbox <$> personDetections detections);
  ap_fresh : forall d t,
    d ∈ personDetections detections -> t ∈ tracked this -> d_bbox d <> t_bbox t
}.

(** ** Numbers *)

Module Sign.

(** [weakly s x]: [x] is a number (a zero included) of sign [s]. *)
Definition weakly (s : bool) (x : spec_float) : Prop :=
  match x with
  | S754_zero s' | S754_finite s' _ _ | S754_infinity s' => s' = s
  | S754_nan => False
  end.

End Sign.

(** [hasNaN b]: one of the four numbers of the array is NaN. *)
Definition hasNaN (b : Bbox) : bool :=
  is_nan (b_x b) || is_nan (b_y b) || is_nan (b_w b) || is_nan (b_h b).

(** [finiteBox b]: the four edges of the rectangle are finite numbers. *)
Definition finiteBox (b : Bbox) : bool :=
  is_finite (b_x b) && is_finite (b_y b)
  && is_finite (b_x b + b_w b)%float && is_finite (b_y b + b_h b)%float.

(** ** The drawing state of the context *)

(** The part of the 2D context that the seven calls act on, as the HTML
    standard defines them: the current filter and clipping region (a list
    of paths, the region being their intersection), the current path, the
    stack of saved states and the images painted so far, each with the
    filter and the clipping region it was painted under. *)
Record DrawState := mkDrawState {
  ds_filter : CanvasFilter;
  ds_clip : list (list Bbox)
}.

Record Painted := mkPainted {
  pt_state : DrawState;
  pt_dest : Bbox
}.

Record Canvas := mkCanvas {
  cv_state : DrawState;
  cv_path : list Bbox;
  cv_stack : list DrawState;
  cv_painted : list Painted
}.

Definition canvasCall (c : Canvas) (op : CanvasCall) : Canvas :=
  match op with
  | save =>
      {| cv_state := cv_state c; cv_path := cv_path c;
         cv_stack := cv_state c :: cv_stack c; cv_painted := cv_painted c |}
  | restore =>
      match cv_stack c with
      | [] => c
      | s :: stack =>
          {| cv_state := s; cv_path := cv_path c; cv_stack := stack;
             cv_painted := cv_painted c |}
      end
  | setFilter f =>
      {| cv_state := {| ds_filter := f; ds_clip := ds_clip (cv_state c) |};
         cv_path := cv_path c; cv_stack := cv_stack c; cv_painted := cv_painted c |}
  | drawImage dx dy dw dh =>
      {| cv_state := cv_state c; cv_path := cv_path c; cv_stack := cv_stack c;
         cv_painted := cv_painted c ++ [mkPainted (cv_state c) (mkBbox dx dy dw dh)] |}
  | beginPath =>
      {| cv_state := cv_state c; cv_path := []; cv_stack := cv_stack c;
         cv_painted := cv_painted c |}
  | rect x y w h =>
      {| cv_state := cv_state c; cv_path := cv_path c ++ [mkBbox x y w h];
         cv_stack := cv_stack c; cv_painted := cv_painted c |}
  | clip =>
      {| cv_state := {| ds_filter := ds_filter (cv_state c);
                        ds_clip := cv_path c :: ds_clip (cv_state c) |};
         cv_path := cv_path c; cv_stack := cv_stack c; cv_painted := cv_painted c |}
  end.

Definition canvasCalls (c : Canvas) (ops : list CanvasCall) : Canvas :=
  foldl canvasCall c ops.

(** ** The loop of the component *)

(** What every run of the effect keeps true of its variables: the
    detections it holds are person detections numbered from 0; [frameIdx]
    is not negative; before its third frame it holds no detection; and its
    [loop] is suspended at the detector only on a frame whose number is a
    multiple of 3. *)
Record EffectInv (e : Effect) : Prop := {
  ei_persons : Forall isPerson (lastDetections e);
  ei_ids : d_id <$> lastDetections e =
           seqZ 0 (Z.of_nat (length (lastDetections e)));
  ei_frame : 0 <= frameIdx e;
  ei_start : frameIdx e < 3 -> lastDetections e = [];
  ei_await : stage e = suspended ->
             0 < frameIdx e /\ Z.rem (frameIdx e) detectEveryN = 0
}.

(** What the events keep true of the page mounted on the store [h]: the
    identities of the tracker increase and are below its counter, its ages
    are within 0..14, every array has the width and height it has in [h],
    and every run of the effect keeps its variables as above. *)
Record PageInv (h : Store) (pg : Page) : Prop := {
  pi_wf : wf (pg_tracker pg);
  pi_ages : Forall (fun t => 0 <= t_age t <= 14) (tracked (pg_tracker pg));
  pi_sizes : forall r, b_w (pg_store pg r) = b_w (h r) /\
                       b_h (pg_store pg r) = b_h (h r);
  pi_effects : Forall EffectInv (pg_effects pg)
}.

(** ** More concrete runs *)

Module Far.
#[local] Open Scope float_scope.

(** Array 0 is a square at the origin; every other array is the same square
    1000 further on both axes. *)
Definition store : Store :=
  fun r =>
    match r with
    | 0%nat => {| b_x := 0; b_y := 0; b_w := 50; b_h := 50 |}
    | _ => {| b_x := 1000; b_y := 1000; b_w := 50; b_h := 50 |}
    end.

(** The tracker after one call with the detection of array 0. *)
Definition one : Store * PersonTracker :=
  runState store newTracker [[Scenario.person 0%nat 0.9]].

End Far.

Module Walk.
#[local] Open Scope float_scope.

(** Array 0 is a square at the origin and array 1 the same square 10
    further along x; arrays 2 and 3 are two copies of a square far from
    both. *)
Definition store : Store :=
  fun r =>
    match r with
    | 0%nat => {| b_x := 0; b_y := 0; b_w := 50; b_h := 50 |}
    | 1%nat => {| b_x := 10; b_y := 0; b_w := 50; b_h := 50 |}
    | 2%nat | 3%nat => {| b_x := 500; b_y := 500; b_w := 50; b_h := 50 |}
    | _ => {| b_x := 0; b_y := 0; b_w := 0; b_h := 0 |}
    end.

(** Two persons are seen, on arrays 0 and 2; then only the first one, 10
    further along x, on array 1. *)
Definition frames : list (list Detection) :=
  [[Scenario.person 0%nat 0.9; Scenario.person 2%nat 0.9];
   [Scenario.person 1%nat 0.8]].

(** The tracker after these two calls: the first track is on array 1 with
    velocity (10, 0), the second on array 2 with velocity (0, 0) and age 1. *)
Definition moving : Store * PersonTracker := runState store newTracker frames.

End Walk.

Module Clicks.
#[local] Open Scope float_scope.

(** A 640x360 canvas showing a 1280x720 video. *)
Definition sizes : View :=
  {| canvas_width := 640; canvas_height := 360; videoWidth := 1280; videoHeight := 720 |}.

(** A click at (60, 60) of a canvas laid out at its own size at the origin
    of the page. *)
Definition click : Click :=
  {| clientX := 60; clientY := 60; rect_left := 0; rect_top := 0;
     rect_width := 640; rect_height := 360 |}.

(** A call of [loop] that meets a playing video, a context and a model. *)
Definition shown : Pass :=
  {| mounted := true; paused := false; ended := false; view := sizes;
     context := true; model := true |}.

End Clicks.

(** * IEEE-754 binary64 facts

    Facts about the primitive floats that the proofs below rely on, derived
    from the specification of the primitives in terms of [spec_float]. *)

Module IEEE.
Import Num.

Abbreviation emin := (SpecFloat.emin prec emax).

Lemma digits2_pos_bounds p :
  2 ^ (Zpos (digits2_pos p) - 1) <= Zpos p < 2 ^ Zpos (digits2_pos p).
Proof.
  induction p as [p IH|p IH|]; cbn [digits2_pos].
  - rewrite Pos2Z.inj_succ, Z.pow_succ_r by lia.
    replace (Z.succ (Z.pos (digits2_pos p)) - 1)
      with (Z.succ (Z.pos (digits2_pos p) - 1)) by lia.
    rewrite Z.pow_succ_r by lia. lia.
  - rewrite Pos2Z.inj_succ, Z.pow_succ_r by lia.
    replace (Z.succ (Z.pos (digits2_pos p)) - 1)
      with (Z.succ (Z.pos (digits2_pos p) - 1)) by lia.
    rewrite Z.pow_succ_r by lia. lia.
  - cbn. lia.
Qed.

(** One right shift of the rounding record halves the mantissa. *)
Lemma shr_1_m mrs : 0 <= shr_m mrs -> shr_m (shr_1 mrs) = shr_m mrs / 2.
Proof.
  destruct mrs as [m r s]; cbn [shr_m]. intros Hm.
  destruct m as [|[p|p|]|p]; cbn [shr_1 shr_m].
  all: try reflexivity.
  all: try (exfalso; lia).
  all: try (apply Z.div_unique with (r := 1); lia).
  all: try (apply Z.div_unique with (r := 0); lia).
Qed.

Lemma iter_shr_1_m n : forall mrs,
  0 <= shr_m mrs -> shr_m (SpecFloat.iter_pos shr_1 n mrs) = shr_m mrs / 2 ^ Zpos n.
Proof.
  induction n as [n IH|n IH|]; intros mrs Hm; cbn [SpecFloat.iter_pos].
  - assert (H1 : 0 <= shr_m (shr_1 mrs))
      by (rewrite shr_1_m by lia; apply Z.div_pos; lia).
    assert (H2 : 0 <= shr_m (SpecFloat.iter_pos shr_1 n (shr_1 mrs)))
      by (rewrite IH by lia; apply Z.div_pos; [lia | apply Z.pow_pos_nonneg; lia]).
    rewrite IH, IH, shr_1_m by lia.
    rewrite !Z.div_div by (try apply Z.pow_pos_nonneg; lia).
    f_equal. replace (Z.pos n~1) with (1 + Z.pos n + Z.pos n) by lia.
    rewrite !Z.pow_add_r by lia. lia.
  - assert (H2 : 0 <= shr_m (SpecFloat.iter_pos shr_1 n mrs))
      by (rewrite IH by lia; apply Z.div_pos; [lia | apply Z.pow_pos_nonneg; lia]).
    rewrite IH, IH by lia.
    rewrite !Z.div_div by (try apply Z.pow_pos_nonneg; lia).
    f_equal. replace (Z.pos n~0) with (Z.pos n + Z.pos n) by lia.
    rewrite !Z.pow_add_r by lia. lia.
  - rewrite shr_1_m by lia. reflexivity.
Qed.

(** Rounding a positive mantissa whose exponent is at least [emin] never
    shifts all of its bits out. *)
Lemma shr_fexp_pos m e l :
  emin <= e ->
  0 < shr_m (fst (shr_fexp prec emax (Zpos m) e l)) /\
  emin <= snd (shr_fexp prec emax (Zpos m) e l).
Proof.
  intros He. unfold shr_fexp, shr.
  assert (Hrec : shr_m (shr_record_of_loc (Zpos m) l) = Zpos m)
    by (destruct l as [|[]]; reflexivity).
  cbn [Zdigits2].
  pose proof (digits2_pos_bounds m) as [Hlo Hhi].
  destruct (SpecFloat.fexp prec emax (Z.pos (digits2_pos m) + e) - e) as [|n|n] eqn:Hn;
    cbn [fst snd]; try (rewrite Hrec; lia).
  split.
  - rewrite iter_shr_1_m by lia. rewrite Hrec.
    apply Z.div_str_pos. split; [apply Z.pow_pos_nonneg; lia|].
    etransitivity; [|exact Hlo].
    apply Z.pow_le_mono_r; [lia|].
    unfold SpecFloat.fexp, SpecFloat.emin, prec, emax in *. lia.
  - unfold SpecFloat.fexp, SpecFloat.emin, prec, emax in *. lia.
Qed.

Lemma round_nearest_even_pos m l : 0 < m -> 0 < round_nearest_even m l.
Proof.
  intros Hm. destruct l as [|[]]; cbn [round_nearest_even]; try lia.
  destruct (Z.even m); lia.
Qed.

Lemma binary_round_aux_signed s m e l :
  emin <= e -> signed s (binary_round_aux prec emax s (Zpos m) e l).
Proof.
  intros He. unfold binary_round_aux.
  pose proof (shr_fexp_pos m e l He) as [H1 H2].
  destruct (shr_fexp prec emax (Z.pos m) e l) as [mrs' e'] eqn:E1.
  cbn [fst snd] in H1, H2.
  pose proof (round_nearest_even_pos (shr_m mrs') (loc_of_shr_record mrs') H1) as H3.
  destruct (round_nearest_even (shr_m mrs') (loc_of_shr_record mrs')) as [|m1|m1] eqn:E2;
    try lia.
  pose proof (shr_fexp_pos m1 e' loc_Exact H2) as [H4 H5].
  destruct (shr_fexp prec emax (Z.pos m1) e' loc_Exact) as [mrs'' e''] eqn:E3.
  cbn [fst snd] in H4, H5.
  destruct (shr_m mrs'') as [|m2|m2]; try lia.
  destruct (e'' <=? emax - prec); reflexivity.
Qed.

Lemma binary_round_signed s m e :
  emin <= e -> signed s (binary_round prec emax s m e).
Proof.
  intros He. unfold binary_round.
  destruct (shl_align m e (SpecFloat.fexp prec emax (Z.pos (digits2_pos m) + e)))
    as [mz ez] eqn:E.
  apply binary_round_aux_signed.
  unfold shl_align in E.
  destruct (SpecFloat.fexp prec emax (Z.pos (digits2_pos m) + e) - e) eqn:E';
    inversion E; subst; try lia.
  unfold SpecFloat.fexp, SpecFloat.emin, prec, emax in *. lia.
Qed.

Lemma pos_iter_xO m d : Zpos (Pos.iter xO m d) = Zpos m * 2 ^ Zpos d.
Proof.
  induction d as [|d IH] using Pos.peano_ind.
  - cbn. lia.
  - rewrite Pos.iter_succ, Pos2Z.inj_succ, Z.pow_succ_r by lia.
    change (Z.pos (Pos.iter xO m d)~0) with (2 * Z.pos (Pos.iter xO m d)).
    rewrite IH. lia.
Qed.

Lemma shl_align_val m e e' :
  e' <= e -> Zpos (fst (shl_align m e e')) = Zpos m * 2 ^ (e - e').
Proof.
  intros He. unfold shl_align.
  destruct (e' - e) as [|d|d] eqn:E; cbn [fst]; try lia.
  - replace (e - e') with 0 by lia. lia.
  - rewrite pos_iter_xO. f_equal. f_equal. lia.
Qed.

Lemma valid_finite s m e :
  valid_binary (S754_finite s m e) = true ->
  emin <= e /\ Zpos (digits2_pos m) <= prec /\
  (emin < e -> Zpos (digits2_pos m) = prec).
Proof.
  unfold valid_binary, bounded, canonical_mantissa.
  intros H. apply andb_prop in H. destruct H as [H _].
  apply Z.eqb_eq in H.
  unfold SpecFloat.fexp, SpecFloat.emin, prec, emax in *. lia.
Qed.

(** A canonical mantissa with the smaller exponent is the smaller number. *)
Lemma aligned_lt m1 e1 m2 e2 s1 s2 :
  valid_binary (S754_finite s1 m1 e1) = true ->
  valid_binary (S754_finite s2 m2 e2) = true ->
  e1 < e2 ->
  Zpos m1 < Zpos m2 * 2 ^ (e2 - e1).
Proof.
  intros V1 V2 Hlt.
  apply valid_finite in V1, V2.
  destruct V1 as (Hm1 & Hd1 & _). destruct V2 as (Hm2 & _ & Hd2).
  pose proof (digits2_pos_bounds m1) as [_ Hhi].
  pose proof (digits2_pos_bounds m2) as [Hlo _].
  rewrite Hd2 in Hlo by lia.
  assert (H1 : 2 ^ Z.pos (digits2_pos m1) <= 2 ^ prec) by (apply Z.pow_le_mono_r; lia).
  assert (H2 : 2 ^ 1 <= 2 ^ (e2 - e1)) by (apply Z.pow_le_mono_r; lia).
  assert (H3 : 2 ^ prec = 2 ^ (prec - 1) * 2 ^ 1)
    by (rewrite <- Z.pow_add_r by (unfold prec; lia); f_equal; lia).
  assert (H4 : 0 < 2 ^ (prec - 1)) by (apply Z.pow_pos_nonneg; unfold prec; lia).
  nia.
Qed.

(** The comparison of two finite numbers is the comparison of their signed
    mantissas once aligned on the smaller exponent, which is how the
    subtraction computes. *)
Lemma finite_compare_aligned s1 m1 e1 s2 m2 e2 :
  valid_binary (S754_finite s1 m1 e1) = true ->
  valid_binary (S754_finite s2 m2 e2) = true ->
  SFcompare (S754_finite s1 m1 e1) (S754_finite s2 m2 e2) =
  Some (cond_Zopp s1 (Zpos (fst (shl_align m1 e1 (Z.min e1 e2)))) ?=
        cond_Zopp s2 (Zpos (fst (shl_align m2 e2 (Z.min e1 e2))))).
Proof.
  intros V1 V2.
  rewrite !shl_align_val by lia.
  assert (P1 : 0 < 2 ^ (e1 - Z.min e1 e2)) by (apply Z.pow_pos_nonneg; lia).
  assert (P2 : 0 < 2 ^ (e2 - Z.min e1 e2)) by (apply Z.pow_pos_nonneg; lia).
  assert (Hcmp : (Z.pos m1 * 2 ^ (e1 - Z.min e1 e2) ?=
                  Z.pos m2 * 2 ^ (e2 - Z.min e1 e2)) =
                 match e1 ?= e2 with
                 | Eq => Pos.compare_cont Eq m1 m2
                 | Lt => Lt
                 | Gt => Gt
                 end).
  { destruct (Z.compare_spec e1 e2) as [E|E|E].
    - subst e2. rewrite Z.min_id, Z.sub_diag. cbn [Z.pow]. rewrite !Z.mul_1_r. reflexivity.
    - pose proof (aligned_lt _ _ _ _ _ _ V1 V2 E).
      rewrite Z.min_l by lia. rewrite Z.sub_diag, Z.mul_1_r. apply Z.compare_lt_iff. lia.
    - pose proof (aligned_lt _ _ _ _ _ _ V2 V1 E).
      rewrite Z.min_r by lia. rewrite Z.sub_diag, Z.mul_1_r. apply Z.compare_gt_iff. lia. }
  cbn [SFcompare]. f_equal.
  destruct s1, s2; cbn [cond_Zopp].
  - rewrite Z.compare_opp.
    rewrite (Z.compare_antisym (Z.pos m1 * 2 ^ (e1 - Z.min e1 e2))), Hcmp.
    destruct (e1 ?= e2); reflexivity.
  - symmetry. apply Z.compare_lt_iff. lia.
  - symmetry. apply Z.compare_gt_iff. lia.
  - rewrite Hcmp. reflexivity.
Qed.

Lemma SFltb_signed_zero s x :
  signed s x ->
  SFltb x (S754_zero false) = s /\ SFltb (S754_zero false) x = negb s.
Proof. destruct x as [| |  |]; cbn; try tauto; intros ->; destruct s; auto. Qed.

(** The sign of a difference tells the order of its operands: a subtraction
    of two distinct numbers never rounds to zero. *)
Lemma SFsub_sign x y :
  valid_binary x = true -> valid_binary y = true ->
  SFltb (SF64sub x y) (S754_zero false) =
    match SFcompare x y with Some Lt => true | _ => false end /\
  SFltb (S754_zero false) (SF64sub x y) =
    match SFcompare x y with Some Gt => true | _ => false end.
Proof.
  intros Vx Vy.
  destruct x as [sx|sx| |sx mx ex], y as [sy|sy| |sy my ey];
    try (cbn; repeat match goal with s : bool |- _ => destruct s end; cbn; auto; fail).
  rewrite (finite_compare_aligned _ _ _ _ _ _ Vx Vy).
  unfold SF64sub, SFsub.
  rewrite Z.compare_sub.
  pose proof (valid_finite _ _ _ Vx) as (Hx & _).
  pose proof (valid_finite _ _ _ Vy) as (Hy & _).
  set (D := cond_Zopp sx _ - cond_Zopp sy _).
  destruct D as [|p|p]; cbn [binary_normalize Z.compare].
  - auto.
  - apply (SFltb_signed_zero false). apply binary_round_signed. lia.
  - apply (SFltb_signed_zero true). apply binary_round_signed. lia.
Qed.

Lemma SFcompare_antisym x y :
  SFcompare y x = option_map CompOpp (SFcompare x y).
Proof.
  destruct x as [sx|sx| |sx mx ex], y as [sy|sy| |sy my ey]; cbn;
    repeat match goal with s : bool |- _ => destruct s end; cbn; try reflexivity.
  all: rewrite (Z.compare_antisym ex ey); destruct (ex ?= ey); cbn; try reflexivity.
  all: rewrite <- (Pos.compare_cont_antisym _ _ Eq); cbn;
       try rewrite CompOpp_involutive; reflexivity.
Qed.

Ltac sf_cases :=
  repeat match goal with
         | s : bool |- _ => destruct s
         end;
  cbn in *; try tauto; try congruence.

Ltac cmp_cases :=
  repeat match goal with
         | |- context [Z.compare ?a ?b] => destruct (Z.compare_spec a b)
         | H : context [Z.compare ?a ?b] |- _ => destruct (Z.compare_spec a b)
         | |- context [Pos.compare_cont Eq ?a ?b] =>
             change (Pos.compare_cont Eq a b) with (Pos.compare a b);
             destruct (Pos.compare_spec a b)
         | H : context [Pos.compare_cont Eq ?a ?b] |- _ =>
             change (Pos.compare_cont Eq a b) with (Pos.compare a b) in H;
             destruct (Pos.compare_spec a b)
         end;
  cbn in *; try tauto; try congruence; try lia.

Lemma SFle_trans x y z : SFle x y -> SFle y z -> SFle x z.
Proof.
  unfold SFle.
  destruct x as [sx|sx| |sx mx ex], y as [sy|sy| |sy my ey], z as [sz|sz| |sz mz ez];
    sf_cases; cmp_cases.
Qed.

Lemma SFlt_le_trans x y z :
  SFcompare x y = Some Lt -> SFle y z -> SFcompare x z = Some Lt.
Proof.
  unfold SFle.
  destruct x as [sx|sx| |sx mx ex], y as [sy|sy| |sy my ey], z as [sz|sz| |sz mz ez];
    sf_cases; cmp_cases.
Qed.

Lemma SFle_lt_trans x y z :
  SFle x y -> SFcompare y z = Some Lt -> SFcompare x z = Some Lt.
Proof.
  unfold SFle.
  destruct x as [sx|sx| |sx mx ex], y as [sy|sy| |sy my ey], z as [sz|sz| |sz mz ez];
    sf_cases; cmp_cases.
Qed.

End IEEE.

(** ** Facts on the primitive floats *)

Module F64.
#[local] Open Scope float_scope.
Import Num.

Lemma Prim2SF_zero : Prim2SF 0 = S754_zero false.
Proof. reflexivity. Qed.

Lemma ltb_flip x y :
  (y <? x) = match SFcompare (Prim2SF x) (Prim2SF y) with
             | Some Gt => true
             | _ => false
             end.
Proof.
  rewrite ltb_spec. unfold SFltb.
  rewrite (IEEE.SFcompare_antisym (Prim2SF x) (Prim2SF y)).
  destruct (SFcompare (Prim2SF x) (Prim2SF y)) as [[]|]; reflexivity.
Qed.

(** [x - y < 0] exactly when [x < y], and [0 < x - y] exactly when [y < x]:
    a comparator written as a difference orders numbers as [<] does. *)
Lemma sub_ltb_zero x y : (x - y <? 0) = (x <? y).
Proof.
  destruct (IEEE.SFsub_sign _ _ (Prim2SF_valid x) (Prim2SF_valid y)) as [H _].
  rewrite !ltb_spec, sub_spec, Prim2SF_zero. exact H.
Qed.

Lemma zero_ltb_sub x y : (0 <? x - y) = (y <? x).
Proof.
  destruct (IEEE.SFsub_sign _ _ (Prim2SF_valid x) (Prim2SF_valid y)) as [_ H].
  rewrite (ltb_flip x y), ltb_spec, sub_spec, Prim2SF_zero. exact H.
Qed.

Lemma leb_le x y : (x <=? y) = true <-> le x y.
Proof.
  rewrite leb_spec. unfold le, Num.SFle, SFleb.
  destruct (SFcompare (Prim2SF x) (Prim2SF y)) as [[]|]; intuition discriminate.
Qed.

Lemma le_trans x y z : le x y -> le y z -> le x z.
Proof. apply IEEE.SFle_trans. Qed.

Lemma ltb_compare x y : (x <? y) = true <-> SFcompare (Prim2SF x) (Prim2SF y) = Some Lt.
Proof.
  rewrite ltb_spec. unfold SFltb.
  destruct (SFcompare (Prim2SF x) (Prim2SF y)) as [[]|]; intuition congruence.
Qed.

Lemma ltb_le_trans x y z : (x <? y) = true -> le y z -> (x <? z) = true.
Proof. rewrite !ltb_compare. apply IEEE.SFlt_le_trans. Qed.

Lemma le_ltb_trans x y z : le x y -> (y <? z) = true -> (x <? z) = true.
Proof. rewrite !ltb_compare. apply IEEE.SFle_lt_trans. Qed.

Lemma ltb_le x y : (x <? y) = true -> le x y.
Proof.
  rewrite ltb_compare. unfold le, Num.SFle. intros ->. exact I.
Qed.

Lemma le_not_ltb x y : le x y -> (y <? x) = false.
Proof.
  unfold le, Num.SFle. rewrite ltb_flip.
  destruct (SFcompare (Prim2SF x) (Prim2SF y)) as [[]|]; tauto.
Qed.

Lemma ltb_asym x y : (x <? y) = true -> (y <? x) = false.
Proof. intros H. apply le_not_ltb, ltb_le, H. Qed.

Lemma ltb_irrefl x : (x <? x) = false.
Proof.
  destruct (x <? x) eqn:E; [|reflexivity].
  rewrite (ltb_asym _ _ E) in E. discriminate.
Qed.

Lemma is_nan_compare x :
  is_nan x = false <-> SFcompare (Prim2SF x) (Prim2SF x) = Some Eq.
Proof.
  unfold is_nan. rewrite FloatAxioms.eqb_spec. unfold SFeqb.
  assert (H := IEEE.SFcompare_antisym (Prim2SF x) (Prim2SF x)).
  destruct (SFcompare (Prim2SF x) (Prim2SF x)) as [[]|]; cbn in *;
    intuition congruence.
Qed.

Lemma is_nan_Prim2SF x : is_nan x = true <-> Prim2SF x = S754_nan.
Proof.
  unfold is_nan. rewrite FloatAxioms.eqb_spec. unfold SFeqb.
  destruct (Prim2SF x) as [s|s| |s m e]; cbn.
  1, 2: destruct s; intuition discriminate.
  - tauto.
  - destruct s; rewrite Z.compare_refl, Pos.compare_cont_refl; cbn; intuition discriminate.
Qed.

(** Two numbers are always comparable. *)
Lemma not_ltb_le x y :
  is_nan x = false -> is_nan y = false -> (x <? y) = false -> le y x.
Proof.
  intros Hx Hy. rewrite ltb_spec. unfold le, Num.SFle, SFltb.
  rewrite (IEEE.SFcompare_antisym (Prim2SF x) (Prim2SF y)).
  assert (Hx' : Prim2SF x <> S754_nan) by (rewrite <- is_nan_Prim2SF; congruence).
  assert (Hy' : Prim2SF y <> S754_nan) by (rewrite <- is_nan_Prim2SF; congruence).
  destruct (Prim2SF x) as [| | |], (Prim2SF y) as [| | |]; try congruence;
    cbn; IEEE.sf_cases;
    repeat match goal with
           | |- context [Z.compare ?a ?b] => destruct (Z.compare a b)
           | |- context [Pos.compare_cont ?c ?a ?b] => destruct (Pos.compare_cont c a b)
           end; cbn; try tauto; try congruence.
Qed.

Lemma le_not_nan x y : le x y -> is_nan x = false /\ is_nan y = false.
Proof.
  unfold le, Num.SFle. intros H.
  assert (Hn : Prim2SF x <> S754_nan /\ Prim2SF y <> S754_nan)
    by (destruct (Prim2SF x), (Prim2SF y); cbn in H; split; (congruence || tauto)).
  destruct Hn as [Hx Hy].
  split; (destruct (is_nan _) eqn:E; [|reflexivity]);
    apply is_nan_Prim2SF in E; contradiction.
Qed.

Lemma ltb_not_nan x y : (x <? y) = true -> is_nan x = false /\ is_nan y = false.
Proof. intros H. apply le_not_nan, ltb_le, H. Qed.

Lemma le_refl x : is_nan x = false -> le x x.
Proof. intros H. apply not_ltb_le; auto using ltb_irrefl. Qed.

Lemma eqb_le x y : (x =? y) = true <-> le x y /\ le y x.
Proof.
  rewrite FloatAxioms.eqb_spec. unfold le, Num.SFle, SFeqb.
  rewrite (IEEE.SFcompare_antisym (Prim2SF x) (Prim2SF y)).
  destruct (SFcompare (Prim2SF x) (Prim2SF y)) as [[]|]; cbn; intuition discriminate.
Qed.

Lemma mul_comm x y : x * y = y * x.
Proof.
  apply Prim2SF_inj. rewrite !mul_spec.
  destruct (Prim2SF x) as [sx|sx| |sx mx ex], (Prim2SF y) as [sy|sy| |sy my ey];
    cbn; try reflexivity; try (f_equal; apply xorb_comm).
  unfold SF64mul, SFmul.
  rewrite (xorb_comm sx sy), (Pos.mul_comm mx my), (Z.add_comm ex ey). reflexivity.
Qed.

Lemma Prim2SF_nan : Prim2SF nan = S754_nan.
Proof. reflexivity. Qed.

Lemma is_nan_eq x : is_nan x = true <-> x = nan.
Proof.
  rewrite is_nan_Prim2SF. split.
  - intros H. apply Prim2SF_inj. by rewrite H.
  - by intros ->.
Qed.

Lemma mul_nan_l y : nan * y = nan.
Proof. apply Prim2SF_inj. rewrite mul_spec, Prim2SF_nan. reflexivity. Qed.

Lemma mul_nan_r x : x * nan = nan.
Proof. by rewrite mul_comm, mul_nan_l. Qed.

Lemma sub_nan_r x : x - nan = nan.
Proof.
  apply Prim2SF_inj. rewrite sub_spec, Prim2SF_nan.
  by destruct (Prim2SF x).
Qed.

Lemma ltb_nan_r x : (x <? nan) = false.
Proof. rewrite ltb_spec, Prim2SF_nan. by destruct (Prim2SF x). Qed.

Lemma positive_signed e : (0 <? e) = true -> Num.signed false (Prim2SF e).
Proof.
  rewrite ltb_spec, Prim2SF_zero. unfold SFltb.
  destruct (Prim2SF e) as [s|s| |s m x]; cbn; try done; by destruct s.
Qed.

Lemma zero_mul_positive e : (0 <? e) = true -> 0 * e = 0 \/ 0 * e = nan.
Proof.
  intros H. apply positive_signed in H.
  destruct (Prim2SF e) as [s|s| |s m x] eqn:E; cbn in H; try done; subst s.
  - right. apply Prim2SF_inj. rewrite mul_spec, E. reflexivity.
  - left. apply Prim2SF_inj. rewrite mul_spec, E. reflexivity.
Qed.

Lemma zero_div_positive u : (0 <? u) = true -> 0 / u = 0.
Proof.
  intros H. apply positive_signed in H.
  destruct (Prim2SF u) as [s|s| |s m x] eqn:E; cbn in H; try done; subst s;
    apply Prim2SF_inj; rewrite div_spec, E; reflexivity.
Qed.

Lemma neg_infinity_least u : is_nan u = false -> le neg_infinity u.
Proof.
  intros Hu. assert (Hn : Prim2SF u <> S754_nan) by (rewrite <- is_nan_Prim2SF; congruence).
  unfold le, Num.SFle. change (Prim2SF neg_infinity) with (S754_infinity true).
  destruct (Prim2SF u) as [s|s| |s m e]; cbn; try done. by destruct s.
Qed.

Lemma infinity_greatest u : is_nan u = false -> le u infinity.
Proof.
  intros Hu. assert (Hn : Prim2SF u <> S754_nan) by (rewrite <- is_nan_Prim2SF; congruence).
  unfold le, Num.SFle. change (Prim2SF infinity) with (S754_infinity false).
  destruct (Prim2SF u) as [s|s| |s m e]; cbn; try done; by destruct s.
Qed.

End F64.

(** ** Facts on the built-ins *)

Module JsFacts.
#[local] Open Scope float_scope.
Import Num F64.

Lemma classify_NZero x : Js.isNegZero x = true <-> Prim2SF x = S754_zero true.
Proof.
  unfold Js.isNegZero. rewrite classify_spec. unfold SF64classify, SFclassify.
  destruct (Prim2SF x) as [[]|[]| |[] m e]; try (split; (done || discriminate)).
  all: destruct (_ =? _)%Z; split; (done || discriminate).
Qed.

Lemma classify_PZero x : Js.isPosZero x = true <-> Prim2SF x = S754_zero false.
Proof.
  unfold Js.isPosZero. rewrite classify_spec. unfold SF64classify, SFclassify.
  destruct (Prim2SF x) as [[]|[]| |[] m e]; try (split; (done || discriminate)).
  all: destruct (_ =? _)%Z; split; (done || discriminate).
Qed.

Lemma zeros_le x y : Js.isNegZero x = true -> Js.isPosZero y = true -> le x y.
Proof.
  rewrite classify_NZero, classify_PZero. unfold le, Num.SFle. by intros -> ->.
Qed.

Lemma zeros_ge x y : Js.isPosZero x = true -> Js.isNegZero y = true -> le x y.
Proof.
  rewrite classify_NZero, classify_PZero. unfold le, Num.SFle. by intros -> ->.
Qed.

(** The first step of [Math.max]: after one number [u], the running maximum
    is numerically [u]. *)
Lemma maxFrom_first u :
  is_nan u = false ->
  let h := if Js.isPosZero u && Js.isNegZero neg_infinity then u else neg_infinity in
  let h' := if h <? u then u else h in
  le u h' /\ le h' u.
Proof.
  intros Hu. cbv zeta.
  replace (Js.isNegZero neg_infinity) with false by reflexivity.
  rewrite andb_false_r.
  destruct (neg_infinity <? u) eqn:E.
  - split; by apply le_refl.
  - split; [|by apply neg_infinity_least].
    apply not_ltb_le; [reflexivity|done|done].
Qed.

Lemma Math_max_pair u v :
  is_nan (Js.Math_max [u; v]) = true \/
  (le u (Js.Math_max [u; v]) /\ le v (Js.Math_max [u; v])).
Proof.
  unfold Js.Math_max. cbn [Js.maxFrom].
  destruct (is_nan u) eqn:Hu; [by left|].
  destruct (maxFrom_first u Hu) as [H1 H2]. cbv zeta in H1, H2.
  set (h1 := if (if Js.isPosZero u && Js.isNegZero neg_infinity then u else neg_infinity) <? u
             then u
             else if Js.isPosZero u && Js.isNegZero neg_infinity then u else neg_infinity) in *.
  destruct (is_nan v) eqn:Hv; [by left|].
  right.
  destruct (Js.isPosZero v && Js.isNegZero h1) eqn:Hz.
  - apply andb_prop in Hz as [Hz1 Hz2].
    rewrite ltb_irrefl. split; [|by apply le_refl].
    eapply le_trans; [exact H1|]. by apply zeros_le.
  - destruct (h1 <? v) eqn:E.
    + split; [|by apply le_refl]. eapply le_trans; [exact H1|]. by apply ltb_le.
    + split; [done|]. apply not_ltb_le; [|done|done]. by apply le_not_nan in H1 as [_ ?].
Qed.

Lemma minFrom_first u :
  is_nan u = false ->
  let l := if Js.isNegZero u && Js.isPosZero infinity then u else infinity in
  let l' := if u <? l then u else l in
  le u l' /\ le l' u.
Proof.
  intros Hu. cbv zeta.
  replace (Js.isPosZero infinity) with false by reflexivity.
  rewrite andb_false_r.
  destruct (u <? infinity) eqn:E.
  - split; by apply le_refl.
  - split; [by apply infinity_greatest|].
    apply not_ltb_le; [done|reflexivity|done].
Qed.

Lemma Math_min_pair u v :
  is_nan (Js.Math_min [u; v]) = true \/
  (le (Js.Math_min [u; v]) u /\ le (Js.Math_min [u; v]) v).
Proof.
  unfold Js.Math_min. cbn [Js.minFrom].
  destruct (is_nan u) eqn:Hu; [by left|].
  destruct (minFrom_first u Hu) as [H1 H2]. cbv zeta in H1, H2.
  set (l1 := if u <? (if Js.isNegZero u && Js.isPosZero infinity then u else infinity)
             then u
             else if Js.isNegZero u && Js.isPosZero infinity then u else infinity) in *.
  destruct (is_nan v) eqn:Hv; [by left|].
  right.
  destruct (Js.isNegZero v && Js.isPosZero l1) eqn:Hz.
  - apply andb_prop in Hz as [Hz1 Hz2].
    rewrite ltb_irrefl. split; [|by apply le_refl].
    eapply le_trans; [|exact H2]. by apply zeros_le.
  - destruct (v <? l1) eqn:E.
    + split; [|by apply le_refl]. eapply le_trans; [|exact H2]. by apply ltb_le.
    + split; [done|]. apply not_ltb_le; [done| |done]. by apply le_not_nan in H1 as [_ ?].
Qed.

(** [Math.max(0, d)]. *)
Lemma Math_max_zero d :
  Js.Math_max [0; d] = if is_nan d then nan else if 0 <? d then d else 0.
Proof.
  unfold Js.Math_max. cbn [Js.maxFrom].
  replace (is_nan 0) with false by reflexivity.
  replace (Js.isNegZero neg_infinity) with false by reflexivity.
  rewrite andb_false_r.
  replace (neg_infinity <? 0) with true by reflexivity.
  replace (Js.isNegZero 0) with false by reflexivity.
  rewrite andb_false_r. reflexivity.
Qed.

End JsFacts.

(** * The candidate list *)

Section Costs.
#[local] Open Scope float_scope.

Lemma costsInner_spec h P ti dets : forall di costs,
  costsInner h P ti di dets costs =
  costs ++ filter retained
             (imap (fun k d => mkCost ti (di + k) (combinedScore P (h (d_bbox d)))) dets).
Proof.
  induction dets as [|d dets IH]; intros di costs; cbn [costsInner].
  - cbn. by rewrite app_nil_r.
  - rewrite IH, imap_cons, filter_cons. cbn [c_score].
    rewrite Nat.add_0_r.
    assert (Hext : imap ((fun k d0 => mkCost ti (di + k) (combinedScore P (h (d_bbox d0)))) ∘ S) dets
                   = imap (fun k d0 => mkCost ti (S di + k) (combinedScore P (h (d_bbox d0)))) dets).
    { apply imap_ext. intros k x _. cbn. f_equal. lia. }
    rewrite Hext.
    destruct (0.1 <? combinedScore P (h (d_bbox d))) eqn:E.
    + rewrite decide_True by (unfold retained; cbn [c_score]; exact E).
      by rewrite <- app_assoc.
    + rewrite decide_False by (unfold retained; cbn [c_score]; rewrite E; discriminate).
      reflexivity.
Qed.

Lemma costsOuter_spec h dets tracks : forall ti costs,
  costsOuter h ti tracks dets costs =
  costs ++ filter retained
             (mjoin (imap (fun k t => pairScores h (ti + k) t dets) tracks)).
Proof.
  induction tracks as [|t tracks IH]; intros ti costs; cbn [costsOuter].
  - cbn. by rewrite app_nil_r.
  - rewrite IH, costsInner_spec, imap_cons. cbn [mjoin list_join].
    rewrite filter_app, <- app_assoc, Nat.add_0_r.
    f_equal. f_equal. f_equal. f_equal.
    apply imap_ext. intros k x _. cbn. f_equal. lia.
Qed.

(** The list built by the two loops is the list of all pairs, in visiting
    order, from which the pairs that fail the test are left out. *)
Lemma buildCosts_spec h tracks dets :
  buildCosts h tracks dets = filter retained (allPairs h tracks dets).
Proof.
  unfold buildCosts. rewrite costsOuter_spec. cbn [app]. reflexivity.
Qed.

Lemma elem_of_pairScores h ti t dets c :
  c ∈ pairScores h ti t dets <->
  trackIdx c = ti /\
  exists d, dets !! detIdx c = Some d /\
            c_score c = combinedScore (predictedBox h t) (h (d_bbox d)).
Proof.
  unfold pairScores. rewrite elem_of_lookup_imap. split.
  - intros (di & d & -> & Hd). cbn. eauto.
  - intros (Hti & d & Hd & Hs). exists (detIdx c), d. split; [|done].
    destruct c; cbn in *. congruence.
Qed.

Lemma elem_of_allPairs h tracks dets c :
  c ∈ allPairs h tracks dets <->
  exists t d, tracks !! trackIdx c = Some t /\ dets !! detIdx c = Some d /\
              c_score c = combinedScore (predictedBox h t) (h (d_bbox d)).
Proof.
  unfold allPairs. rewrite list_elem_of_join. split.
  - intros (l & Hc & Hl). apply elem_of_lookup_imap in Hl.
    destruct Hl as (ti & t & -> & Ht).
    apply elem_of_pairScores in Hc. destruct Hc as (Hti & d & Hd & Hs).
    exists t, d. rewrite Hti. auto.
  - intros (t & d & Ht & Hd & Hs).
    exists (pairScores h (trackIdx c) t dets). split.
    + apply elem_of_pairScores. eauto.
    + apply elem_of_lookup_imap. eauto.
Qed.

Lemma elem_of_buildCosts h tracks dets c :
  c ∈ buildCosts h tracks dets <->
  exists t d, tracks !! trackIdx c = Some t /\ dets !! detIdx c = Some d /\
              c_score c = combinedScore (predictedBox h t) (h (d_bbox d)) /\
              (0.1 <? c_score c) = true.
Proof.
  rewrite buildCosts_spec, list_elem_of_filter, elem_of_allPairs. unfold retained.
  split.
  - intros (Hr & t & d & Ht & Hd & Hs). exists t, d. auto.
  - intros (t & d & Ht & Hd & Hs & Hr). split; [exact Hr|]. exists t, d. auto.
Qed.

End Costs.

(** * The sort *)

Section Sort.
#[local] Open Scope float_scope.

(** The comparator is positive exactly when its first argument has the
    strictly smaller score. *)
Lemma compareFn_pos x y : (0 <? compareFn x y) = (c_score x <? c_score y).
Proof. unfold compareFn. apply F64.zero_ltb_sub. Qed.

Lemma compareFn_neg x y : (compareFn x y <? 0) = (c_score y <? c_score x).
Proof. unfold compareFn. apply F64.sub_ltb_zero. Qed.

Lemma insertCost_perm x l : insertCost x l ≡ₚ x :: l.
Proof.
  induction l as [|y l IH]; cbn [insertCost]; [done|].
  destruct (0 <? compareFn x y); [|done].
  rewrite IH. apply Permutation_swap.
Qed.

Lemma sortCosts_perm l : sortCosts l ≡ₚ l.
Proof.
  induction l as [|x l IH]; cbn [sortCosts]; [done|].
  rewrite insertCost_perm. by rewrite IH.
Qed.

Lemma insertCost_sorted x l :
  scored x -> Forall scored l ->
  StronglySorted notBelow l -> StronglySorted notBelow (insertCost x l).
Proof.
  intros Hx Hl Hs. induction Hs as [|y l Hs IH Hy]; cbn [insertCost].
  - repeat constructor.
  - apply Forall_cons in Hl. destruct Hl as [Hny Hl].
    rewrite compareFn_pos. destruct (c_score x <? c_score y) eqn:E.
    + constructor; [by apply IH|].
      rewrite insertCost_perm. constructor; [|done].
      by apply F64.ltb_le.
    + assert (Hxy : notBelow x y) by (by apply F64.not_ltb_le).
      constructor; [by constructor|].
      constructor; [done|].
      eapply Forall_impl; [exact Hy|].
      intros z Hz. unfold notBelow in *. by eapply F64.le_trans.
Qed.

Lemma sortCosts_sorted l :
  Forall scored l -> StronglySorted notBelow (sortCosts l).
Proof.
  induction l as [|x l IH]; intros Hl; cbn [sortCosts]; [constructor|].
  apply Forall_cons in Hl. destruct Hl as [Hx Hl].
  apply insertCost_sorted; [done| |by apply IH].
  by rewrite sortCosts_perm.
Qed.

Lemma sameScore_not_ltb s x y :
  sameScore s x -> sameScore s y -> (c_score x <? c_score y) = false.
Proof.
  unfold sameScore. rewrite !F64.eqb_le. intros [_ Hx] [Hy _].
  apply F64.le_not_ltb. by eapply F64.le_trans.
Qed.

(** Stability: the sort never moves an element across another of equal
    score. *)
Lemma insertCost_stable s x l :
  filter (sameScore s) (insertCost x l) = filter (sameScore s) (x :: l).
Proof.
  induction l as [|y l IH]; cbn [insertCost]; [done|].
  rewrite compareFn_pos. destruct (c_score x <? c_score y) eqn:E; [|done].
  rewrite (filter_cons _ y), IH, !filter_cons.
  destruct (decide (sameScore s x)) as [Hx|Hx], (decide (sameScore s y)) as [Hy|Hy];
    try done.
  rewrite (sameScore_not_ltb s x y Hx Hy) in E. discriminate.
Qed.

Lemma sortCosts_stable s l :
  filter (sameScore s) (sortCosts l) = filter (sameScore s) l.
Proof.
  induction l as [|x l IH]; cbn [sortCosts]; [done|].
  by rewrite insertCost_stable, !filter_cons, IH.
Qed.

(** A list has one stable descending sort only: whatever algorithm the
    engine runs, [Array.prototype.sort] returns what the insertion computes. *)
Lemma stable_descending_unique l1 : forall l2,
  Forall scored l1 ->
  l1 ≡ₚ l2 ->
  StronglySorted notBelow l1 -> StronglySorted notBelow l2 ->
  (forall s, filter (sameScore s) l1 = filter (sameScore s) l2) ->
  l1 = l2.
Proof.
  induction l1 as [|x l1 IH]; intros l2 Hsc Hp Hs1 Hs2 Hf.
  - by apply Permutation_nil_l in Hp.
  - destruct l2 as [|y l2]; [by apply Permutation_nil_r in Hp|].
    apply Forall_cons in Hsc as [Hx Hsc].
    apply StronglySorted_inv in Hs1 as [Hs1 Hx1].
    apply StronglySorted_inv in Hs2 as [Hs2 Hy2].
    assert (Hyx : Num.le (c_score y) (c_score x)).
    { assert (Hy : y ∈ x :: l1) by (rewrite Hp; left).
      apply elem_of_cons in Hy as [->|Hy]; [by apply F64.le_refl|].
      eapply Forall_forall in Hx1; [exact Hx1|exact Hy]. }
    assert (Hxy : Num.le (c_score x) (c_score y)).
    { assert (Hx' : x ∈ y :: l2) by (rewrite <- Hp; left).
      apply elem_of_cons in Hx' as [->|Hx']; [by apply F64.le_refl|].
      eapply Forall_forall in Hy2; [exact Hy2|exact Hx']. }
    assert (Hxx : sameScore (c_score x) x)
      by (apply F64.eqb_le; split; by apply F64.le_refl).
    assert (Hyy : sameScore (c_score x) y) by (by apply F64.eqb_le).
    pose proof (Hf (c_score x)) as Hhead.
    rewrite !filter_cons, !decide_True in Hhead by done.
    injection Hhead as -> _.
    f_equal. apply IH; try done.
    + by apply Permutation_cons_inv in Hp.
    + intros s. specialize (Hf s). rewrite !filter_cons in Hf.
      destruct (decide (sameScore s y)); [by injection Hf|done].
Qed.

Lemma sortCosts_unique l r :
  Forall scored l ->
  r ≡ₚ l -> StronglySorted notBelow r ->
  (forall s, filter (sameScore s) r = filter (sameScore s) l) ->
  r = sortCosts l.
Proof.
  intros Hsc Hp Hs Hf. symmetry. apply stable_descending_unique.
  - by rewrite sortCosts_perm.
  - by rewrite sortCosts_perm, Hp.
  - by apply sortCosts_sorted.
  - done.
  - intros s. by rewrite sortCosts_stable, Hf.
Qed.

Lemma filter_app_cons_inv {A} (P : A -> Prop) `{!forall x, Decision (P x)}
    (l : list A) u a v :
  filter P l = u ++ a :: v ->
  exists l1 l2, l = l1 ++ a :: l2 /\ filter P l1 = u /\ filter P l2 = v.
Proof.
  revert u. induction l as [|x l IH]; intros u Hf.
  - by destruct u.
  - rewrite filter_cons in Hf. destruct (decide (P x)) as [Hx|Hx].
    + destruct u as [|y u]; cbn in Hf.
      * injection Hf as -> Hf. exists [], l. by rewrite filter_nil.
      * injection Hf as -> Hf. destruct (IH _ Hf) as (l1 & l2 & -> & <- & <-).
        exists (y :: l1), l2. by rewrite filter_cons, decide_True.
    + destruct (IH _ Hf) as (l1 & l2 & -> & <- & <-).
      exists (x :: l1), l2. by rewrite filter_cons, decide_False.
Qed.

(** Of two candidates of equal score, the one enumerated first is still
    first after the sort. *)
Lemma sortCosts_tie l l1 a l2 b l3 :
  Forall scored l ->
  l = l1 ++ a :: l2 ++ b :: l3 ->
  (c_score a =? c_score b) = true ->
  exists k1 k2 k3, sortCosts l = k1 ++ a :: k2 ++ b :: k3.
Proof.
  intros Hsc Hl Hab.
  assert (Hb : sameScore (c_score b) b).
  { apply F64.eqb_le. apply F64.eqb_le in Hab as [_ Hba].
    apply F64.le_not_nan in Hba as [Hb _]. split; by apply F64.le_refl. }
  pose proof (sortCosts_stable (c_score b) l) as Hf.
  rewrite Hl in Hf at 2.
  rewrite filter_app, filter_cons, decide_True in Hf by done.
  rewrite filter_app, (filter_cons _ b), decide_True in Hf by done.
  apply filter_app_cons_inv in Hf as (k1 & k & Hs & _ & Hk).
  apply (filter_app_cons_inv _ _ (filter (sameScore (c_score b)) l2)) in Hk
    as (k2 & k3 & -> & _ & _).
  by exists k1, k2, k3.
Qed.

Lemma retained_scored c : retained c -> scored c.
Proof. intros H. by apply F64.ltb_not_nan in H as [_ H]. Qed.

Lemma buildCosts_scored h tracks dets : Forall scored (buildCosts h tracks dets).
Proof.
  rewrite buildCosts_spec. apply Forall_forall. intros c Hc.
  apply list_elem_of_filter in Hc as [Hc _]. by apply retained_scored.
Qed.

End Sort.

(** * The greedy walk *)

Section Greedy.
Context (h : Store) (dets : list Detection) (tracks : list TrackedPerson).

Lemma MatchInv_init :
  MatchInv h dets tracks {| ms_tracked := tracks; matched := ∅; matchedDetections := ∅ |} [].
Proof.
  split; cbn; try done; try constructor.
  intros ti di Hin. by apply elem_of_nil in Hin.
Qed.

Lemma MatchInv_step st acc c :
  inRange dets tracks c -> MatchInv h dets tracks st acc ->
  MatchInv h dets tracks (matchStep h dets st c) (commitStep acc c).
Proof.
  intros [[t0 Ht0] [d Hd]] Hinv. destruct Hinv as [Hm Hmd Hlen Hn1 Hn2 Hun Hap].
  unfold matchStep, commitStep. rewrite Hm, Hmd.
  assert (E1 : bool_decide (trackIdx c ∈ (list_to_set (acc.*1) : gset nat))
               = bool_decide (trackIdx c ∈ acc.*1))
    by (apply bool_decide_ext; apply elem_of_list_to_set).
  assert (E2 : bool_decide (detIdx c ∈ (list_to_set (acc.*2) : gset nat))
               = bool_decide (detIdx c ∈ acc.*2))
    by (apply bool_decide_ext; apply elem_of_list_to_set).
  rewrite E1, E2.
  destruct (bool_decide (trackIdx c ∈ acc.*1)) eqn:B1;
    [by split|].
  destruct (bool_decide (detIdx c ∈ acc.*2)) eqn:B2;
    [by split|].
  apply bool_decide_eq_false in B1, B2. cbn [orb].
  rewrite Hd. rewrite (Hun _ B1), Ht0.
  split; cbn [ms_tracked matched matchedDetections].
  - rewrite fmap_app, list_to_set_app_L. cbn. set_solver.
  - rewrite fmap_app, list_to_set_app_L. cbn. set_solver.
  - by rewrite length_insert.
  - rewrite fmap_app. cbn. apply NoDup_app. split_and!; [done| |apply NoDup_singleton].
    intros x Hx Hx'. apply list_elem_of_singleton in Hx'. by subst.
  - rewrite fmap_app. cbn. apply NoDup_app. split_and!; [done| |apply NoDup_singleton].
    intros x Hx Hx'. apply list_elem_of_singleton in Hx'. by subst.
  - intros ti Hti. rewrite fmap_app in Hti. cbn in Hti.
    rewrite elem_of_app, list_elem_of_singleton in Hti.
    rewrite list_lookup_insert_ne by (intros E; apply Hti; right; done).
    apply Hun. tauto.
  - intros ti di Hin. apply elem_of_app in Hin as [Hin|Hin].
    + destruct (Hap _ _ Hin) as (t & d' & Ht & Hd' & Hst).
      exists t, d'. split_and!; try done.
      rewrite list_lookup_insert_ne; [done|].
      intros <-. apply B1. apply list_elem_of_fmap. by exists (trackIdx c, di).
    + apply list_elem_of_singleton in Hin. injection Hin as -> ->.
      exists t0, d. split_and!; try done.
      apply list_lookup_insert_eq. rewrite Hlen. by eapply lookup_lt_Some.
Qed.

Lemma MatchInv_loop costs :
  Forall (inRange dets tracks) costs ->
  MatchInv h dets tracks (matchLoop h dets tracks costs) (committed costs).
Proof.
  unfold matchLoop, committed.
  induction costs as [|c costs IH] using rev_ind; intros Hr.
  - apply MatchInv_init.
  - apply Forall_app in Hr as [Hr Hc]. apply Forall_inv in Hc.
    rewrite !foldl_snoc. apply MatchInv_step; [done|by apply IH].
Qed.

(** The matching loop only rewrites fields other than [id]. *)
Lemma matchStep_ids st c :
  t_id <$> ms_tracked (matchStep h dets st c) = t_id <$> ms_tracked st.
Proof.
  unfold matchStep.
  destruct (_ || _); [done|].
  destruct (dets !! detIdx c) as [d|]; [|done].
  destruct (ms_tracked st !! trackIdx c) as [t|] eqn:Ht; [|done].
  cbn [ms_tracked]. rewrite list_fmap_insert. cbn [applyMatch t_id].
  apply list_insert_id. by rewrite list_lookup_fmap, Ht.
Qed.

Lemma matchLoop_ids costs :
  t_id <$> ms_tracked (matchLoop h dets tracks costs) = t_id <$> tracks.
Proof.
  unfold matchLoop.
  induction costs as [|c costs IH] using rev_ind; [done|].
  by rewrite foldl_snoc, matchStep_ids.
Qed.

End Greedy.

(** The pairs committed come from the candidates walked. *)
Lemma committed_from costs ti di :
  (ti, di) ∈ committed costs ->
  exists c, c ∈ costs /\ trackIdx c = ti /\ detIdx c = di.
Proof.
  unfold committed.
  induction costs as [|c costs IH] using rev_ind; cbn.
  - intros Hin. by apply elem_of_nil in Hin.
  - rewrite foldl_snoc. unfold commitStep at 1.
    destruct (_ || _).
    + intros Hin. destruct (IH Hin) as (c' & Hc' & Hc''). exists c'.
      split; [|done]. apply elem_of_app. by left.
    + intros Hin. apply elem_of_app in Hin as [Hin|Hin].
      * destruct (IH Hin) as (c' & Hc' & Hc''). exists c'.
        split; [|done]. apply elem_of_app. by left.
      * apply list_elem_of_singleton in Hin. injection Hin as -> ->.
        exists c. split; [|done]. apply elem_of_app. right. by apply list_elem_of_singleton.
Qed.

(** * The stages of an [update] call *)

Lemma numbered_cons n d ds :
  numbered n (d :: ds) = newTrack n d :: numbered (n + 1) ds.
Proof.
  unfold numbered. rewrite imap_cons. f_equal.
  - f_equal. lia.
  - apply imap_ext. intros k x _. cbn. f_equal. lia.
Qed.

Lemma numbered_app n ds1 ds2 :
  numbered n (ds1 ++ ds2) = numbered n ds1 ++ numbered (n + Z.of_nat (length ds1)) ds2.
Proof.
  unfold numbered. rewrite imap_app. f_equal.
  apply imap_ext. intros k x _. cbn. f_equal. lia.
Qed.

Lemma length_numbered n ds : length (numbered n ds) = length ds.
Proof. apply length_imap. Qed.

Lemma numbered_ids n ds :
  t_id <$> numbered n ds = seqZ n (Z.of_nat (length ds)).
Proof.
  revert n. induction ds as [|d ds IH]; intros n; [done|].
  rewrite numbered_cons, fmap_cons, IH. cbn [length newTrack t_id].
  rewrite Nat2Z.inj_succ, (seqZ_cons n) by lia. do 2 f_equal; lia.
Qed.

Lemma bootstrap_spec ds : forall n,
  bootstrap n ds = (numbered n ds, n + Z.of_nat (length ds)).
Proof.
  induction ds as [|d ds IH]; intros n; cbn [bootstrap].
  - cbn. f_equal. lia.
  - rewrite IH, numbered_cons. cbn [length]. f_equal. lia.
Qed.

Lemma spawnLoop_spec md dets : forall di tracks n,
  spawnLoop md di dets tracks n =
  (tracks ++ numbered n (leftOver md di dets),
   n + Z.of_nat (length (leftOver md di dets))).
Proof.
  induction dets as [|d dets IH]; intros di tracks n; cbn [spawnLoop leftOver].
  - cbn. rewrite app_nil_r. f_equal. lia.
  - destruct (bool_decide (di ∈ md)); rewrite IH; [done|].
    rewrite numbered_cons, <- app_assoc. cbn [length app]. f_equal. lia.
Qed.

(** The detections left over are those whose index is not in the set. *)
Lemma elem_of_leftOver md dets d : forall di,
  d ∈ leftOver md di dets <->
  exists k, dets !! k = Some d /\ (di + k)%nat ∉ md.
Proof.
  induction dets as [|d' dets IH]; intros di; cbn [leftOver].
  - split; [intros H; by apply elem_of_nil in H|]. by intros (k & Hk & _).
  - destruct (bool_decide (di ∈ md)) eqn:B.
    + apply bool_decide_eq_true in B. rewrite IH. split.
      * intros (k & Hk & Hn). exists (S k). split; [done|].
        by replace (di + S k)%nat with (S di + k)%nat by lia.
      * intros ([|k] & Hk & Hn).
        -- rewrite Nat.add_0_r in Hn. done.
        -- exists k. split; [done|].
           by replace (S di + k)%nat with (di + S k)%nat by lia.
    + apply bool_decide_eq_false in B. rewrite elem_of_cons, IH. split.
      * intros [->|(k & Hk & Hn)].
        -- exists 0%nat. split; [done|]. by rewrite Nat.add_0_r.
        -- exists (S k). split; [done|].
           by replace (di + S k)%nat with (S di + k)%nat by lia.
      * intros ([|k] & Hk & Hn).
        -- left. cbn in Hk. congruence.
        -- right. exists k. split; [done|].
           by replace (S di + k)%nat with (di + S k)%nat by lia.
Qed.

Lemma leftOver_sublist md dets : forall di, sublist (leftOver md di dets) dets.
Proof.
  induction dets as [|d dets IH]; intros di; cbn [leftOver]; [constructor|].
  destruct (bool_decide (di ∈ md)); [apply sublist_cons|apply sublist_skip]; apply IH.
Qed.

(** The three results of a call. *)
Lemma update_tracked h this detections :
  tracked (update h this detections).2 =
  survivors h this detections ++ created h this detections.
Proof.
  unfold update, survivors, created, postTracks, matching, sortedCosts, personDetections.
  destruct (tracked this) as [|t0 ts] eqn:E.
  - rewrite bootstrap_spec. reflexivity.
  - cbv zeta. destruct (ageLoop _ _ _ _) as [aged h'] eqn:Ea.
    rewrite spawnLoop_spec. reflexivity.
Qed.

Lemma update_nextId h this detections :
  nextId (update h this detections).2 =
  nextId this + Z.of_nat (length (created h this detections)).
Proof.
  unfold update, created, matching, sortedCosts, personDetections.
  destruct (tracked this) as [|t0 ts] eqn:E.
  - rewrite bootstrap_spec, length_numbered. reflexivity.
  - cbv zeta. destruct (ageLoop _ _ _ _) as [aged h'] eqn:Ea.
    rewrite spawnLoop_spec, length_numbered. reflexivity.
Qed.

Lemma update_store h this detections :
  (update h this detections).1 =
  match tracked this with
  | [] => h
  | _ :: _ => postStore h this detections
  end.
Proof.
  unfold update, postStore, matching, sortedCosts, personDetections.
  destruct (tracked this) as [|t0 ts] eqn:E.
  - rewrite bootstrap_spec. reflexivity.
  - cbv zeta. destruct (ageLoop _ _ _ _) as [aged h'] eqn:Ea.
    rewrite spawnLoop_spec. reflexivity.
Qed.

Lemma created_ids h this detections :
  t_id <$> created h this detections =
  seqZ (nextId this) (Z.of_nat (length (created h this detections))).
Proof.
  unfold created. destruct (tracked this); by rewrite numbered_ids, length_numbered.
Qed.

(** * The ageing loop *)

Lemma coast_spec h t r :
  coast h t r = if decide (r = t_bbox t) then moved (h r) t else h r.
Proof.
  unfold coast, store_set, moved.
  destruct (decide (r = t_bbox t)) as [->|Hne].
  - rewrite !Nat.eqb_refl. reflexivity.
  - apply Nat.eqb_neq in Hne. rewrite !Hne. reflexivity.
Qed.

Lemma coast_size h t r :
  b_w (coast h t r) = b_w (h r) /\ b_h (coast h t r) = b_h (h r).
Proof. rewrite coast_spec. by destruct (decide _). Qed.

Lemma ageLoop_tracks m tracks : forall ti h,
  (ageLoop m ti tracks h).1 = imap (fun k t => agedTrack m (ti + k) t) tracks.
Proof.
  induction tracks as [|t tracks IH]; intros ti h; cbn [ageLoop]; [done|].
  rewrite imap_cons, Nat.add_0_r. unfold agedTrack at 1.
  assert (Hext : imap ((fun k t0 => agedTrack m (ti + k) t0) ∘ S) tracks
                 = imap (fun k t0 => agedTrack m (S ti + k) t0) tracks).
  { apply imap_ext. intros k x _. cbn. f_equal. lia. }
  rewrite Hext.
  destruct (bool_decide (ti ∈ m)).
  - specialize (IH (S ti) h). destruct (ageLoop m (S ti) tracks h). cbn in *. by f_equal.
  - specialize (IH (S ti) (coast h t)). destruct (ageLoop m (S ti) tracks (coast h t)).
    cbn in *. by f_equal.
Qed.

Lemma ageLoop_store_size m tracks r : forall ti h,
  b_w ((ageLoop m ti tracks h).2 r) = b_w (h r) /\
  b_h ((ageLoop m ti tracks h).2 r) = b_h (h r).
Proof.
  induction tracks as [|t tracks IH]; intros ti h; cbn [ageLoop]; [done|].
  destruct (bool_decide (ti ∈ m)).
  - specialize (IH (S ti) h). by destruct (ageLoop m (S ti) tracks h).
  - specialize (IH (S ti) (coast h t)). destruct (ageLoop m (S ti) tracks (coast h t)).
    cbn in *. destruct (coast_size h t r) as [<- <-]. done.
Qed.

(** An array to which no unmatched track refers is left alone. *)
Lemma ageLoop_store_other m tracks r : forall ti h,
  (forall k t, tracks !! k = Some t -> (ti + k)%nat ∉ m -> t_bbox t <> r) ->
  (ageLoop m ti tracks h).2 r = h r.
Proof.
  induction tracks as [|t tracks IH]; intros ti h Hno; cbn [ageLoop]; [done|].
  assert (Hrest : forall k t', tracks !! k = Some t' -> (S ti + k)%nat ∉ m -> t_bbox t' <> r).
  { intros k t' Hk Hm. apply (Hno (S k)); [done|].
    by replace (ti + S k)%nat with (S ti + k)%nat by lia. }
  destruct (bool_decide (ti ∈ m)) eqn:B.
  - specialize (IH (S ti) h Hrest). by destruct (ageLoop m (S ti) tracks h).
  - specialize (IH (S ti) (coast h t) Hrest).
    destruct (ageLoop m (S ti) tracks (coast h t)). cbn in *. rewrite IH.
    rewrite coast_spec. apply bool_decide_eq_false in B.
    rewrite decide_False; [done|].
    intros ->. apply (Hno 0%nat t); [done| |done]. by rewrite Nat.add_0_r.
Qed.

(** An array to which exactly one unmatched track refers is advanced by the
    velocity of that track. *)
Lemma ageLoop_store_one m tracks : forall ti h k t,
  tracks !! k = Some t -> (ti + k)%nat ∉ m ->
  (forall j t', j <> k -> tracks !! j = Some t' -> (ti + j)%nat ∉ m ->
                t_bbox t' <> t_bbox t) ->
  (ageLoop m ti tracks h).2 (t_bbox t) = moved (h (t_bbox t)) t.
Proof.
  induction tracks as [|t0 tracks IH]; intros ti h k t Hk Hm Hno; [done|].
  cbn [ageLoop]. destruct k as [|k].
  - cbn in Hk. injection Hk as ->. rewrite Nat.add_0_r in Hm.
    rewrite bool_decide_eq_false_2 by done.
    pose proof (ageLoop_store_other m tracks (t_bbox t) (S ti) (coast h t)) as Ho.
    destruct (ageLoop m (S ti) tracks (coast h t)). cbn in *.
    rewrite Ho.
    + rewrite coast_spec, decide_True; done.
    + intros j t' Hj Hjm. apply (Hno (S j)); [done|done|].
      by replace (ti + S j)%nat with (S (ti + j)) by lia.
  - cbn in Hk.
    assert (Hm' : (S ti + k)%nat ∉ m) by (by replace (S ti + k)%nat with (ti + S k)%nat by lia).
    assert (Hno' : forall j t', j <> k -> tracks !! j = Some t' -> (S ti + j)%nat ∉ m ->
                                t_bbox t' <> t_bbox t).
    { intros j t' Hj Hl Hjm. apply (Hno (S j)); [lia|done|].
      by replace (ti + S j)%nat with (S ti + j)%nat by lia. }
    destruct (bool_decide (ti ∈ m)) eqn:B.
    + specialize (IH (S ti) h k t Hk Hm' Hno').
      by destruct (ageLoop m (S ti) tracks h).
    + specialize (IH (S ti) (coast h t0) k t Hk Hm' Hno').
      destruct (ageLoop m (S ti) tracks (coast h t0)). cbn in *. rewrite IH.
      apply bool_decide_eq_false in B.
      rewrite coast_spec, decide_False; [done|].
      intros E. apply (Hno 0%nat t0); [lia|done| |done]. by rewrite Nat.add_0_r.
Qed.

Lemma agedTrack_id m ti t : t_id (agedTrack m ti t) = t_id t.
Proof. unfold agedTrack. by destruct (bool_decide _). Qed.

Lemma ageLoop_ids m tracks ti h :
  t_id <$> (ageLoop m ti tracks h).1 = t_id <$> tracks.
Proof.
  rewrite ageLoop_tracks, fmap_imap.
  rewrite <- (imap_const t_id). apply imap_ext. intros k x _. cbn. apply agedTrack_id.
Qed.

(** * Identities *)

Lemma StronglySorted_sublist {A} (R : relation A) (l k : list A) :
  sublist l k -> StronglySorted R k -> StronglySorted R l.
Proof.
  induction 1 as [|x l k Hs IH|x l k Hs IH]; intros Hk.
  - constructor.
  - apply StronglySorted_inv in Hk as [Hk Hx]. constructor; [by apply IH|].
    apply Forall_forall. intros y Hy.
    eapply Forall_forall in Hx; [exact Hx|]. by eapply elem_of_sublist.
  - apply StronglySorted_inv in Hk as [Hk _]. by apply IH.
Qed.

Lemma StronglySorted_mono {A} (R1 R2 : relation A) (l : list A) :
  (forall a b, R1 a b -> R2 a b) -> StronglySorted R1 l -> StronglySorted R2 l.
Proof.
  intros HR. induction 1 as [|x l Hs IH Hx]; constructor; [done|].
  eapply Forall_impl; [exact Hx|]. intros y. apply HR.
Qed.

Lemma StronglySorted_seqZ m n : StronglySorted Z.lt (seqZ m n).
Proof.
  destruct (decide (0 <= n)) as [Hn|Hn]; [|rewrite seqZ_nil by lia; constructor].
  rewrite <- (Z2Nat.id n) by done. generalize (Z.to_nat n) as k. clear. intros k.
  revert m. induction k as [|k IH]; intros m; [constructor|].
  rewrite seqZ_cons by lia. constructor.
  - replace (Z.pred (Z.of_nat (S k))) with (Z.of_nat k) by lia. apply IH.
  - apply Forall_forall. intros x Hx. apply elem_of_seqZ in Hx. lia.
Qed.

Lemma wf_newTracker : wf newTracker.
Proof. split; cbn; constructor. Qed.

Lemma wf_reset this : wf (reset this).
Proof. split; cbn; constructor. Qed.

Lemma postTracks_ids h this detections :
  ids (postTracks h this detections) = ids (tracked this).
Proof.
  unfold postTracks, ids, matching. by rewrite ageLoop_ids, matchLoop_ids.
Qed.

(** The identities that survive a call are identities of the tracks held
    before it, in the same order. *)
Lemma survivors_ids_sublist h this detections :
  sublist (ids (survivors h this detections)) (ids (tracked this)).
Proof.
  unfold survivors. destruct (tracked this) as [|t0 ts] eqn:E; [constructor|].
  rewrite <- E, <- (postTracks_ids h this detections).
  unfold ids. apply fmap_sublist, sublist_filter.
Qed.

(** The identities after a call: the surviving ones, then the values the
    counter went through. *)
Lemma update_ids h this detections :
  ids (tracked (update h this detections).2) =
  ids (survivors h this detections) ++
  seqZ (nextId this) (nextId (update h this detections).2 - nextId this).
Proof.
  rewrite update_tracked, update_nextId. unfold ids at 1. rewrite fmap_app.
  f_equal. rewrite created_ids. f_equal. lia.
Qed.

Lemma update_nextId_le h this detections :
  nextId this <= nextId (update h this detections).2.
Proof. rewrite update_nextId. lia. Qed.

Lemma wf_update h this detections :
  wf this -> wf (update h this detections).2.
Proof.
  intros [Hs Hb].
  pose proof (survivors_ids_sublist h this detections) as Hsub.
  pose proof (update_nextId_le h this detections) as Hle.
  split; rewrite update_ids.
  - apply StronglySorted_app_2.
    + intros x y Hx Hy. apply elem_of_seqZ in Hy.
      eapply elem_of_sublist in Hx; [|exact Hsub].
      eapply Forall_forall in Hb; [|exact Hx]. cbn in Hb. lia.
    + by eapply StronglySorted_sublist.
    + apply StronglySorted_seqZ.
  - apply Forall_app. split.
    + apply Forall_forall. intros x Hx.
      eapply elem_of_sublist in Hx; [|exact Hsub].
      eapply Forall_forall in Hb; [|exact Hx]. cbn in Hb. lia.
    + apply Forall_forall. intros x Hx. apply elem_of_seqZ in Hx. lia.
Qed.

Lemma wf_NoDup this : wf this -> NoDup (ids (tracked this)).
Proof.
  intros [Hs _]. induction Hs as [|x l Hs IH Hx]; constructor; [|done].
  intros Hin. eapply Forall_forall in Hx; [|exact Hin]. lia.
Qed.

(** ** A sequence of calls *)

Lemma firstSeen_all_seen seen l :
  (forall x, x ∈ l -> x ∈ seen) -> firstSeen seen l = [].
Proof.
  induction l as [|x l IH]; intros Hl; cbn [firstSeen]; [done|].
  rewrite decide_True by (apply Hl; left).
  apply IH. intros y Hy. apply Hl. by right.
Qed.

Lemma firstSeen_app seen l1 l2 :
  firstSeen seen (l1 ++ l2) =
  firstSeen seen l1 ++ firstSeen (reverse (firstSeen seen l1) ++ seen) l2.
Proof.
  revert seen. induction l1 as [|x l1 IH]; intros seen; cbn [firstSeen app]; [done|].
  destruct (decide (x ∈ seen)); [apply IH|].
  rewrite IH. cbn [app]. f_equal. f_equal.
  by rewrite reverse_cons, <- app_assoc.
Qed.

Lemma firstSeen_ext seen seen' l :
  (forall x, x ∈ seen <-> x ∈ seen') -> firstSeen seen l = firstSeen seen' l.
Proof.
  revert seen seen'. induction l as [|x l IH]; intros seen seen' Heq; cbn [firstSeen]; [done|].
  destruct (decide (x ∈ seen)) as [Hx|Hx].
  - rewrite decide_True by (by apply Heq). by apply IH.
  - rewrite decide_False by (by rewrite <- Heq). f_equal. apply IH.
    intros y. rewrite !elem_of_cons, Heq. done.
Qed.

(** Fresh increasing values are all first appearances. *)
Lemma firstSeen_fresh seen l :
  StronglySorted Z.lt l -> (forall x, x ∈ l -> x ∉ seen) -> firstSeen seen l = l.
Proof.
  intros Hs. revert seen. induction Hs as [|x l Hs IH Hx]; intros seen Hl; cbn [firstSeen]; [done|].
  rewrite decide_False by (apply Hl; left). f_equal.
  apply IH. intros y Hy. rewrite elem_of_cons. intros [->|Hin].
  - eapply Forall_forall in Hx; [|exact Hy]. lia.
  - eapply Hl; [|exact Hin]. by right.
Qed.

Lemma observed_cons out outs : observed (out :: outs) = ids out ++ observed outs.
Proof. reflexivity. Qed.

Lemma wf_runState h this frames : wf this -> wf (runState h this frames).2.
Proof.
  revert h this. induction frames as [|ds frames IH]; intros h this Hwf; [done|].
  cbn [runState]. apply IH. by apply wf_update.
Qed.

Lemma runState_nextId_le h this frames :
  nextId this <= nextId (runState h this frames).2.
Proof.
  revert h this. induction frames as [|ds frames IH]; intros h this; cbn [runState]; [done|].
  etransitivity; [apply (update_nextId_le h this ds)|apply IH].
Qed.

Lemma runState_app h this f1 f2 :
  runState h this (f1 ++ f2) =
  runState (runState h this f1).1 (runState h this f1).2 f2.
Proof.
  revert h this. induction f1 as [|ds f1 IH]; intros h this; cbn [runState app]; [done|].
  apply IH.
Qed.

Lemma run_app h this f1 f2 :
  run h this (f1 ++ f2) =
  run h this f1 ++ run (runState h this f1).1 (runState h this f1).2 f2.
Proof.
  revert h this. induction f1 as [|ds f1 IH]; intros h this; cbn [run runState app]; [done|].
  f_equal. apply IH.
Qed.

Lemma length_run h this frames : length (run h this frames) = length frames.
Proof.
  revert h this. induction frames as [|ds frames IH]; intros h this; cbn [run length]; [done|].
  f_equal. apply IH.
Qed.

(** The list returned by call number [j] is the list of tracks the tracker
    holds after that call. *)
Lemma run_lookup h this frames j out :
  run h this frames !! j = Some out ->
  out = tracked (runState h this (take (S j) frames)).2.
Proof.
  revert h this j. induction frames as [|ds frames IH]; intros h this j; [done|].
  destruct j as [|j]; cbn [run runState take].
  - intros [= <-]. by rewrite take_0.
  - intros Hj. by apply IH.
Qed.

(** The first appearances in a run are the tracks the run creates, whose
    identities are the successive values of the counter. *)
Lemma run_firstSeen h this frames seen :
  wf this ->
  (forall x, x ∈ ids (tracked this) -> x ∈ seen) ->
  (forall x, x ∈ seen -> x < nextId this) ->
  firstSeen seen (observed (run h this frames)) = ids (runCreated h this frames) /\
  ids (runCreated h this frames) =
    seqZ (nextId this) (nextId (runState h this frames).2 - nextId this).
Proof.
  revert h this seen.
  induction frames as [|ds frames IH]; intros h this seen Hwf Hseen Hlt.
  - cbn. rewrite Z.sub_diag. done.
  - cbn [run runState runCreated]. rewrite observed_cons.
    set (r := update h this ds).
    pose proof (update_ids h this ds) as Hids. fold r in Hids.
    pose proof (update_nextId_le h this ds) as Hle. fold r in Hle.
    pose proof (survivors_ids_sublist h this ds) as Hsub.
    pose proof (created_ids h this ds) as Hcr.
    pose proof (update_nextId h this ds) as Hn. fold r in Hn.
    assert (Hfresh : seqZ (nextId this) (nextId r.2 - nextId this) = ids (created h this ds)).
    { unfold ids. rewrite Hcr. f_equal. lia. }
    assert (Hsurv : firstSeen seen (ids (survivors h this ds)) = []).
    { apply firstSeen_all_seen. intros x Hx. apply Hseen.
      by eapply elem_of_sublist. }
    assert (Hnew : firstSeen seen (ids (created h this ds)) = ids (created h this ds)).
    { apply firstSeen_fresh.
      - rewrite <- Hfresh. apply StronglySorted_seqZ.
      - intros x Hx Hin. rewrite <- Hfresh in Hx. apply elem_of_seqZ in Hx.
        apply Hlt in Hin. lia. }
    destruct (IH r.1 r.2 (reverse (ids (created h this ds)) ++ seen)) as [IH1 IH2].
    + by apply wf_update.
    + intros x Hx. rewrite Hids, Hfresh in Hx. rewrite elem_of_app, elem_of_reverse.
      apply elem_of_app in Hx as [Hx|Hx]; [right|by left].
      apply Hseen. by eapply elem_of_sublist.
    + intros x. rewrite elem_of_app, elem_of_reverse. intros [Hx|Hx].
      * rewrite <- Hfresh in Hx. apply elem_of_seqZ in Hx. lia.
      * apply Hlt in Hx. lia.
    + split.
      * rewrite Hids, Hfresh, <- app_assoc, firstSeen_app, Hsurv.
        change (reverse [] ++ seen) with seen. cbn [app].
        rewrite firstSeen_app, Hnew, IH1. unfold ids. by rewrite fmap_app.
      * unfold ids in *. rewrite fmap_app, IH2, <- Hfresh.
        pose proof (runState_nextId_le r.1 r.2 frames).
        replace (nextId (runState r.1 r.2 frames).2 - nextId this)
          with ((nextId r.2 - nextId this) + (nextId (runState r.1 r.2 frames).2 - nextId r.2))
          by lia.
        rewrite seqZ_app by lia. do 2 f_equal. lia.
Qed.

Lemma run_NoDup h this frames :
  wf this -> Forall (fun out => NoDup (ids out)) (run h this frames).
Proof.
  revert h this. induction frames as [|ds frames IH]; intros h this Hwf; cbn [run].
  - constructor.
  - constructor; [|by apply IH, wf_update].
    by apply wf_NoDup, wf_update.
Qed.

(** An identity below the counter that no live track carries is carried by
    no track of any later list. *)
Lemma gone_forever h this frames x :
  wf this -> x ∉ ids (tracked this) -> x < nextId this ->
  Forall (fun out => x ∉ ids out) (run h this frames).
Proof.
  revert h this. induction frames as [|ds frames IH]; intros h this Hwf Hx Hlt; cbn [run].
  - constructor.
  - assert (Hout : x ∉ ids (tracked (update h this ds).2)).
    { rewrite update_ids, elem_of_app. intros [Hin|Hin].
      - apply Hx. eapply elem_of_sublist; [exact Hin|apply survivors_ids_sublist].
      - apply elem_of_seqZ in Hin. lia. }
    constructor; [done|].
    apply IH; [by apply wf_update|done|].
    pose proof (update_nextId_le h this ds). lia.
Qed.

Lemma runState_take_le h this frames i j :
  (i <= j)%nat ->
  nextId (runState h this (take i frames)).2 <=
  nextId (runState h this (take j frames)).2.
Proof.
  intros Hij. replace j with (i + (j - i))%nat by lia.
  rewrite <- take_take_drop, runState_app. apply runState_nextId_le.
Qed.

Lemma run_never_reissued h this frames i j k oi oj ok x :
  wf this -> (i < j < k)%nat ->
  run h this frames !! i = Some oi ->
  run h this frames !! j = Some oj ->
  run h this frames !! k = Some ok ->
  x ∈ ids oi -> x ∉ ids oj -> x ∉ ids ok.
Proof.
  intros Hwf [Hij Hjk] Hi Hj Hk Hxi Hxj.
  pose proof (run_lookup _ _ _ _ _ Hi) as ->.
  pose proof (run_lookup _ _ _ _ _ Hj) as ->.
  assert (Hlen : (j < length frames)%nat)
    by (rewrite <- (length_run h this); by eapply lookup_lt_Some).
  set (st := runState h this (take (S j) frames)) in *.
  assert (Hlt : x < nextId st.2).
  { pose proof (wf_runState h this (take (S i) frames) Hwf) as [_ Hb].
    eapply Forall_forall in Hb; [|exact Hxi]. cbn in Hb.
    pose proof (runState_take_le h this frames (S i) (S j)). unfold st. lia. }
  rewrite <- (take_drop (S j) frames), run_app in Hk. fold st in Hk.
  rewrite lookup_app_r in Hk by (rewrite length_run, length_take_le; lia).
  pose proof (gone_forever st.1 st.2 (drop (S j) frames) x
                (wf_runState h this _ Hwf) Hxj Hlt) as Hgone.
  eapply Forall_forall in Hgone; [exact Hgone|].
  by eapply list_elem_of_lookup_2.
Qed.

Lemma elem_of_firstSeen seen l x :
  x ∈ l -> x ∉ seen -> x ∈ firstSeen seen l.
Proof.
  revert seen. induction l as [|y l IH]; intros seen Hx Hs; [by apply elem_of_nil in Hx|].
  cbn [firstSeen]. apply elem_of_cons in Hx as [->|Hx].
  - rewrite decide_False by done. by left.
  - destruct (decide (y ∈ seen)); [by apply IH|].
    destruct (decide (x = y)) as [->|Hne]; [by left|].
    right. apply IH; [done|]. rewrite elem_of_cons. tauto.
Qed.

(** From any state that satisfies the invariant, the first appearances come
    in increasing order. *)
Lemma run_firstSeen_sorted h this frames :
  wf this -> StronglySorted Z.lt (firstSeen [] (observed (run h this frames))).
Proof.
  intros Hwf. destruct frames as [|ds frames]; [constructor|].
  cbn [run]. rewrite observed_cons. set (r := update h this ds).
  pose proof (wf_update h this ds Hwf) as Hwf'. fold r in Hwf'.
  destruct Hwf' as [Hs Hb].
  rewrite firstSeen_app, (firstSeen_fresh [] _ Hs)
    by (intros x _; apply not_elem_of_nil).
  destruct (run_firstSeen r.1 r.2 frames (reverse (ids (tracked r.2)) ++ []))
    as [H1 H2].
  - by split.
  - intros x Hx. by rewrite app_nil_r, elem_of_reverse.
  - intros x Hx. rewrite app_nil_r, elem_of_reverse in Hx.
    eapply Forall_forall in Hb; [exact Hb|exact Hx].
  - rewrite H1, H2. apply StronglySorted_app_2.
    + intros x y Hx Hy. apply elem_of_seqZ in Hy.
      eapply Forall_forall in Hb; [|exact Hx]. cbn in Hb. lia.
    + done.
    + apply StronglySorted_seqZ.
Qed.

(** C1.  Across any sequence of [update] calls on a tracker that is new or
    was just reset, the identities seen in the returned lists, taken in order
    of first appearance, are exactly the identities of the tracks the calls
    created, in creation order, and these are the successive values 1, 2, 3,
    ... of the counter: every identity seen was assigned once, the
    identities are pairwise distinct and strictly increasing in order of
    first appearance, each returned list carries increasing, distinct
    identities, and an identity that has left the returned list never comes
    back.  The identities seen in the calls that follow any number of
    earlier calls are increasing in order of first appearance as well. *)
Theorem ids_assigned_once_increasing (h : Store) (frames : list (list Detection)) :
  let outs := run h newTracker frames in
  let assigned := ids (runCreated h newTracker frames) in
  firstSeen [] (observed outs) = assigned /\
  assigned = seqZ 1 (nextId (runState h newTracker frames).2 - 1) /\
  NoDup assigned /\
  StronglySorted Z.lt (firstSeen [] (observed outs)) /\
  (forall out x, out ∈ outs -> x ∈ ids out -> x ∈ assigned) /\
  Forall (fun out => StronglySorted Z.lt (ids out) /\ NoDup (ids out)) outs /\
  (forall i j k oi oj ok x,
      (i < j < k)%nat ->
      outs !! i = Some oi -> outs !! j = Some oj -> outs !! k = Some ok ->
      x ∈ ids oi -> x ∉ ids oj -> x ∉ ids ok) /\
  (forall later,
      let st := runState h newTracker frames in
      StronglySorted Z.lt (firstSeen [] (observed (run st.1 st.2 later)))).
Proof.
  cbv zeta.
  destruct (run_firstSeen h newTracker frames [] wf_newTracker) as [H1 H2].
  { intros x Hx. by apply elem_of_nil in Hx. }
  { intros x Hx. by apply elem_of_nil in Hx. }
  cbn [newTracker nextId] in H2.
  split_and!.
  - exact H1.
  - exact H2.
  - rewrite H2. apply NoDup_seqZ.
  - rewrite H1, H2. apply StronglySorted_seqZ.
  - intros out x Hout Hx. rewrite <- H1. apply elem_of_firstSeen.
    + unfold observed. apply list_elem_of_join. exists (ids out). split; [done|].
      by apply list_elem_of_fmap_2.
    + apply not_elem_of_nil.
  - apply Forall_forall. intros out Hout.
    apply list_elem_of_lookup in Hout as [j Hj].
    pose proof (run_lookup _ _ _ _ _ Hj) as ->.
    pose proof (wf_runState h newTracker (take (S j) frames) wf_newTracker) as Hwf.
    split; [apply Hwf|by apply wf_NoDup].
  - intros i j k oi oj ok x. apply run_never_reissued, wf_newTracker.
  - intros later. apply run_firstSeen_sorted, wf_runState, wf_newTracker.
Qed.

(** * Bootstrap and reset *)

Lemma personDetections_all detections :
  Forall isPerson detections -> personDetections detections = detections.
Proof.
  unfold personDetections. induction 1 as [|d ds Hd Hds IH]; [done|].
  by rewrite filter_cons, decide_True, IH.
Qed.

Lemma numbered_lookup n ds i d :
  ds !! i = Some d -> numbered n ds !! i = Some (newTrack (n + Z.of_nat i) d).
Proof. intros Hd. unfold numbered. by rewrite list_lookup_imap, Hd. Qed.

(** C7.  When the tracker holds no track, [update] with N person detections
    returns N tracks; the i-th refers to the array of the i-th detection
    (whose contents the call leaves alone) and carries its score, age 0,
    velocity (0, 0) and the identity [nextId + i], so the identities are
    consecutive in detection order and the counter ends N higher.  A new or
    reset tracker holds no track and its counter is 1, so there the
    identities are 1..N. *)
Theorem bootstrap_creates_one_track_per_detection
    (h : Store) (this : PersonTracker) (detections : list Detection) :
  tracked this = [] ->
  Forall isPerson detections ->
  let r := update h this detections in
  length (tracked r.2) = length detections /\
  (forall i d, detections !! i = Some d ->
     tracked r.2 !! i =
       Some {| t_id := nextId this + Z.of_nat i;
               t_bbox := d_bbox d;
               t_score := d_score d;
               t_age := 0;
               t_velocity := (0%float, 0%float) |} /\
     r.1 (d_bbox d) = h (d_bbox d)) /\
  ids (tracked r.2) = seqZ (nextId this) (Z.of_nat (length detections)) /\
  nextId r.2 = nextId this + Z.of_nat (length detections) /\
  (tracked newTracker = [] /\ nextId newTracker = 1) /\
  (forall s, tracked (reset s) = [] /\ nextId (reset s) = 1).
Proof.
  intros Hempty Hall. cbv zeta.
  assert (Hr : update h this detections =
               (h, {| tracked := numbered (nextId this) detections;
                      nextId := nextId this + Z.of_nat (length detections) |})).
  { unfold update. fold (personDetections detections).
    rewrite Hempty, (personDetections_all _ Hall), bootstrap_spec. reflexivity. }
  rewrite Hr. cbn [fst snd tracked nextId].
  split_and!; try done.
  - apply length_numbered.
  - intros i d Hd. split; [|done]. by apply numbered_lookup.
  - apply numbered_ids.
Qed.

(** C9.  [reset()] leaves no track and the counter at 1, whatever the
    tracker went through before; the next [update] with a single person
    detection returns one track, whose identity is 1. *)
Theorem reset_restarts_the_counter
    (h : Store) (this : PersonTracker) (d : Detection) :
  isPerson d ->
  tracked (reset this) = [] /\
  nextId (reset this) = 1 /\
  tracked (update h (reset this) [d]).2 =
    [ {| t_id := 1; t_bbox := d_bbox d; t_score := d_score d; t_age := 0;
         t_velocity := (0%float, 0%float) |} ] /\
  nextId (update h (reset this) [d]).2 = 2.
Proof.
  intros Hd. split_and!; try done.
  - unfold update. cbn [reset tracked nextId].
    rewrite filter_cons, decide_True by done. reflexivity.
  - unfold update. cbn [reset tracked nextId].
    rewrite filter_cons, decide_True by done. reflexivity.
Qed.

(** * Order of the returned list, eviction *)

Lemma NoDup_fmap_eq {A B} (f : A -> B) (l : list A) a b :
  NoDup (f <$> l) -> a ∈ l -> b ∈ l -> f a = f b -> a = b.
Proof.
  induction l as [|x l IH]; intros Hn Ha Hb Hf; [by apply elem_of_nil in Ha|].
  rewrite fmap_cons in Hn. apply NoDup_cons in Hn as [Hx Hn].
  apply elem_of_cons in Ha as [->|Ha]; apply elem_of_cons in Hb as [->|Hb]; try done.
  - exfalso. apply Hx. rewrite Hf. by apply list_elem_of_fmap_2.
  - exfalso. apply Hx. rewrite <- Hf. by apply list_elem_of_fmap_2.
  - by apply IH.
Qed.

(** C10.  The list returned by [update] is made of the tracks held before
    the call that survive the eviction, in their previous order, followed by
    the tracks created by the call, in the order of their detections: the
    matching and ageing loops keep every track at its index, the eviction
    only deletes, and the created tracks are numbered from the counter along
    the detections left over (all the person detections when there was no
    track).  [getTracked] returns the same list. *)
Theorem update_keeps_order
    (h : Store) (this : PersonTracker) (detections : list Detection) :
  let r := update h this detections in
  let pd := personDetections detections in
  let md := matchedDetections (matching h this detections) in
  tracked r.2 = survivors h this detections ++ created h this detections /\
  getTracked r.2 = tracked r.2 /\
  ids (postTracks h this detections) = ids (tracked this) /\
  sublist (ids (survivors h this detections)) (ids (tracked this)) /\
  match tracked this with
  | [] =>
      survivors h this detections = [] /\
      created h this detections = numbered (nextId this) pd
  | _ :: _ =>
      survivors h this detections =
        filter (fun t => t_age t < maxAge) (postTracks h this detections) /\
      created h this detections = numbered (nextId this) (leftOver md 0 pd) /\
      sublist (leftOver md 0 pd) pd /\
      (forall d, d ∈ leftOver md 0 pd <-> exists di, pd !! di = Some d /\ di ∉ md)
  end.
Proof.
  cbv zeta. split_and!.
  - apply update_tracked.
  - reflexivity.
  - apply postTracks_ids.
  - apply survivors_ids_sublist.
  - unfold survivors, created. destruct (tracked this) as [|t0 ts]; [done|].
    split_and!; try done.
    + apply leftOver_sublist.
    + intros d. apply (elem_of_leftOver _ _ d 0%nat).
Qed.

Lemma update_ages h this detections t :
  t ∈ tracked (update h this detections).2 -> t_age t < maxAge.
Proof.
  rewrite update_tracked, elem_of_app. intros [Ht|Ht].
  - unfold survivors in Ht. destruct (tracked this); [by apply elem_of_nil in Ht|].
    by apply list_elem_of_filter in Ht as [Ht _].
  - assert (Hage : forall n ds, t ∈ numbered n ds -> t_age t = 0).
    { intros n ds Hin. unfold numbered in Hin. apply elem_of_lookup_imap in Hin.
      by destruct Hin as (i & d & -> & _). }
    unfold created in Ht. unfold maxAge.
    destruct (tracked this); rewrite (Hage _ _ Ht); lia.
Qed.


(** * Matched and unmatched tracks *)

Lemma sortedCosts_inRange h this detections :
  Forall (inRange (personDetections detections) (tracked this))
         (sortedCosts h this detections).
Proof.
  unfold sortedCosts. rewrite sortCosts_perm. apply Forall_forall. intros c Hc.
  apply elem_of_buildCosts in Hc as (t & d & Ht & Hd & _).
  split; eauto.
Qed.

(** The loop of the source commits the pairs of the walk. *)
Lemma matching_inv h this detections :
  MatchInv h (personDetections detections) (tracked this)
           (matching h this detections) (matches h this detections).
Proof. apply MatchInv_loop, sortedCosts_inRange. Qed.

Lemma elem_of_matched h this detections ti :
  ti ∈ matched (matching h this detections) <->
  exists di, (ti, di) ∈ matches h this detections.
Proof.
  rewrite (inv_matched _ _ _ _ _ (matching_inv h this detections)).
  rewrite elem_of_list_to_set, list_elem_of_fmap. split.
  - intros ([ti' di] & -> & Hin). by exists di.
  - intros (di & Hin). by exists (ti, di).
Qed.

Lemma elem_of_matchedDetections h this detections di :
  di ∈ matchedDetections (matching h this detections) <->
  exists ti, (ti, di) ∈ matches h this detections.
Proof.
  rewrite (inv_matchedDetections _ _ _ _ _ (matching_inv h this detections)).
  rewrite elem_of_list_to_set, list_elem_of_fmap. split.
  - intros ([ti di'] & -> & Hin). by exists ti.
  - intros (ti & Hin). by exists (ti, di).
Qed.

Lemma postTracks_lookup h this detections ti :
  postTracks h this detections !! ti =
  agedTrack (matched (matching h this detections)) ti
    <$> ms_tracked (matching h this detections) !! ti.
Proof. unfold postTracks. by rewrite ageLoop_tracks, list_lookup_imap. Qed.

(** What the two loops leave at the index of a track. *)
Lemma postTracks_cases h this detections ti t' :
  postTracks h this detections !! ti = Some t' ->
  exists t, tracked this !! ti = Some t /\
    (((ti ∉ matched (matching h this detections)) /\ t' = older t) \/
     (exists di d, (ti, di) ∈ matches h this detections /\
                   personDetections detections !! di = Some d /\
                   t' = applyMatch h t d)).
Proof.
  rewrite postTracks_lookup. intros Hl.
  pose proof (matching_inv h this detections) as Hinv.
  destruct (decide (ti ∈ matched (matching h this detections))) as [Hm|Hm].
  - apply elem_of_matched in Hm as Hm'. destruct Hm' as (di & Hin).
    destruct (inv_applied _ _ _ _ _ Hinv _ _ Hin) as (t & d & Ht & Hd & Hst).
    exists t. split; [done|]. right. exists di, d. split_and!; try done.
    rewrite Hst in Hl. cbn in Hl. unfold agedTrack in Hl.
    rewrite bool_decide_eq_true_2 in Hl by done. congruence.
  - rewrite (inv_untouched _ _ _ _ _ Hinv) in Hl.
    2:{ by rewrite (inv_matched _ _ _ _ _ Hinv), elem_of_list_to_set in Hm. }
    destruct (tracked this !! ti) as [t|] eqn:Ht; [|done].
    exists t. split; [done|]. left. split; [done|].
    cbn in Hl. unfold agedTrack in Hl.
    rewrite bool_decide_eq_false_2 in Hl by done. congruence.
Qed.

(** What a committed pair leaves at the index of its track. *)
Lemma matches_lookup h this detections ti di :
  (ti, di) ∈ matches h this detections ->
  exists track det,
    tracked this !! ti = Some track /\
    personDetections detections !! di = Some det /\
    ti ∈ matched (matching h this detections) /\
    postTracks h this detections !! ti = Some (applyMatch h track det) /\
    applyMatch h track det ∈ survivors h this detections.
Proof.
  intros Hin.
  pose proof (matching_inv h this detections) as Hinv.
  destruct (inv_applied _ _ _ _ _ Hinv _ _ Hin) as (track & det & Ht & Hd & Hst).
  assert (Hm : ti ∈ matched (matching h this detections))
    by (apply elem_of_matched; eauto).
  exists track, det. split_and!; try done.
  - rewrite postTracks_lookup, Hst. cbn. unfold agedTrack.
    by rewrite bool_decide_eq_true_2.
  - unfold survivors. destruct (tracked this) as [|t0 ts] eqn:E; [done|].
    apply list_elem_of_filter. split; [done|].
    apply (list_elem_of_lookup_2 _ ti).
    rewrite postTracks_lookup, Hst. cbn. unfold agedTrack.
    by rewrite bool_decide_eq_true_2.
Qed.

Lemma matches_nil h this detections :
  tracked this = [] -> matches h this detections = [].
Proof.
  intros E. destruct (matches h this detections) as [|[ti di] l] eqn:Em; [done|].
  destruct (matches_lookup h this detections ti di) as (t & _ & Ht & _).
  - rewrite Em. by left.
  - by rewrite E in Ht.
Qed.

(** ** What a call returns *)

Lemma elem_of_matches_1 h this detections ti :
  ti ∈ (matches h this detections).*1 <-> ti ∈ matched (matching h this detections).
Proof.
  by rewrite (inv_matched _ _ _ _ _ (matching_inv h this detections)),
             elem_of_list_to_set.
Qed.

Lemma elem_of_matches_2 h this detections di :
  di ∈ (matches h this detections).*2 <->
  di ∈ matchedDetections (matching h this detections).
Proof.
  by rewrite (inv_matchedDetections _ _ _ _ _ (matching_inv h this detections)),
             elem_of_list_to_set.
Qed.

(** A committed pair: the track, with the four assignments made, is in the
    returned list. *)
Lemma returned_matched h this detections ti di :
  (ti, di) ∈ matches h this detections ->
  exists t d,
    tracked this !! ti = Some t /\ personDetections detections !! di = Some d /\
    applyMatch h t d ∈ tracked (update h this detections).2.
Proof.
  intros Hin.
  destruct (matches_lookup _ _ _ _ _ Hin) as (t & d & Ht & Hd & _ & _ & Hs).
  exists t, d. split_and!; try done.
  rewrite update_tracked. apply elem_of_app. by left.
Qed.

(** A track in no committed pair: it is in the returned list one call
    older, unless that makes it too old. *)
Lemma returned_unmatched h this detections ti t :
  tracked this !! ti = Some t ->
  ti ∉ (matches h this detections).*1 ->
  t_age t + 1 < maxAge ->
  older t ∈ tracked (update h this detections).2.
Proof.
  intros Ht Hun Hage.
  assert (Hp : postTracks h this detections !! ti = Some (older t)).
  { rewrite postTracks_lookup.
    rewrite (inv_untouched _ _ _ _ _ (matching_inv h this detections)) by done.
    rewrite Ht. cbn. unfold agedTrack.
    rewrite bool_decide_eq_false_2; [done|]. by rewrite <- elem_of_matches_1. }
  rewrite update_tracked. apply elem_of_app. left.
  unfold survivors. destruct (tracked this) as [|t0 ts] eqn:E; [done|].
  apply list_elem_of_filter. split; [exact Hage|].
  by eapply list_elem_of_lookup_2.
Qed.

(** A person detection in no committed pair: a track made of it, with an
    identity taken from the counter, is in the returned list. *)
Lemma returned_spawned h this detections di d :
  personDetections detections !! di = Some d ->
  di ∉ (matches h this detections).*2 ->
  exists n, nextId this <= n < nextId (update h this detections).2 /\
            newTrack n d ∈ tracked (update h this detections).2.
Proof.
  intros Hd Hun.
  assert (Hnum : forall ds, d ∈ ds ->
            exists k, (k < length ds)%nat /\
                      numbered (nextId this) ds !! k
                      = Some (newTrack (nextId this + Z.of_nat k) d)).
  { intros ds Hin. apply list_elem_of_lookup in Hin as (k & Hk).
    exists k. split; [by eapply lookup_lt_Some|by apply numbered_lookup]. }
  assert (Hc : exists k, (k < length (created h this detections))%nat /\
                 created h this detections !! k
                 = Some (newTrack (nextId this + Z.of_nat k) d)).
  { unfold created. destruct (tracked this) as [|t0 ts] eqn:E.
    - rewrite length_numbered. apply Hnum. by eapply list_elem_of_lookup_2.
    - rewrite length_numbered. apply Hnum. apply elem_of_leftOver. exists di.
      split; [done|]. cbn. by rewrite <- elem_of_matches_2. }
  destruct Hc as (k & Hk & Hl).
  exists (nextId this + Z.of_nat k). split.
  - rewrite update_nextId. lia.
  - rewrite update_tracked. apply elem_of_app. right. by eapply list_elem_of_lookup_2.
Qed.

(** Every track of the returned list is of one of these three kinds. *)
Lemma returned_cases h this detections t' :
  t' ∈ tracked (update h this detections).2 ->
  (exists ti t, tracked this !! ti = Some t /\
                (ti ∉ (matches h this detections).*1) /\ t' = older t) \/
  (exists ti di t d, (ti, di) ∈ matches h this detections /\
                     tracked this !! ti = Some t /\
                     personDetections detections !! di = Some d /\
                     t' = applyMatch h t d) \/
  (exists di d n, personDetections detections !! di = Some d /\
                  (di ∉ (matches h this detections).*2) /\
                  nextId this <= n < nextId (update h this detections).2 /\
                  t' = newTrack n d).
Proof.
  rewrite update_tracked, elem_of_app. intros [Hs|Hc].
  - unfold survivors in Hs. destruct (tracked this) as [|t0 ts] eqn:E;
      [by apply elem_of_nil in Hs|]. rewrite <- E in *.
    apply list_elem_of_filter in Hs as [_ Hin].
    apply list_elem_of_lookup in Hin as (ti & Hti).
    apply postTracks_cases in Hti as (t & Ht & [[Hm ->]|(di & d & Hin & Hd & ->)]).
    + left. exists ti, t. split_and!; try done. by rewrite elem_of_matches_1.
    + right. left. by exists ti, di, t, d.
  - right. right.
    assert (Hnum : forall ds, t' ∈ numbered (nextId this) ds ->
              exists k d, ds !! k = Some d /\ t' = newTrack (nextId this + Z.of_nat k) d).
    { intros ds Hin. unfold numbered in Hin. apply elem_of_lookup_imap in Hin.
      destruct Hin as (k & d & -> & Hk). by exists k, d. }
    pose proof (update_nextId h this detections) as Hn.
    unfold created in *. destruct (tracked this) as [|t0 ts] eqn:E.
    + destruct (Hnum _ Hc) as (k & d & Hk & ->).
      exists k, d, (nextId this + Z.of_nat k). split_and!; try done.
      * rewrite matches_nil by done. apply not_elem_of_nil.
      * lia.
      * rewrite Hn, length_numbered. apply lookup_lt_Some in Hk. lia.
    + destruct (Hnum _ Hc) as (k & d & Hk & ->).
      assert (Hlo : d ∈ leftOver (matchedDetections (matching h this detections)) 0
                                 (personDetections detections))
        by (by eapply list_elem_of_lookup_2).
      apply elem_of_leftOver in Hlo as (di & Hdi & Hmd). cbn in Hmd.
      exists di, d, (nextId this + Z.of_nat k). split_and!; try done.
      * by rewrite elem_of_matches_2.
      * lia.
      * rewrite Hn, length_numbered. apply lookup_lt_Some in Hk. lia.
Qed.

(** What a committed pair does to its track: after the call the track has
    velocity (detection.bbox.x - track.bbox.x, detection.bbox.y -
    track.bbox.y), both read before the call changes anything, so against the
    position of the track before the call and not the predicted one; for
    [bbox] the array of the detection; the score of the detection; age 0.
    The track is in the matched set and in the returned list.  The contents
    of that array are those the detection came with when no unmatched track
    refers to the same array. *)
Lemma matched_track_takes_detection
    (h : Store) (this : PersonTracker) (detections : list Detection)
    (ti di : nat) :
  (ti, di) ∈ matches h this detections ->
  exists track det,
    tracked this !! ti = Some track /\
    personDetections detections !! di = Some det /\
    ti ∈ matched (matching h this detections) /\
    let post :=
      {| t_id := t_id track;
         t_bbox := d_bbox det;
         t_score := d_score det;
         t_age := 0;
         t_velocity :=
           ((b_x (h (d_bbox det)) - b_x (h (t_bbox track)))%float,
            (b_y (h (d_bbox det)) - b_y (h (t_bbox track)))%float) |} in
    postTracks h this detections !! ti = Some post /\
    post ∈ tracked (update h this detections).2 /\
    ((forall tj t', tracked this !! tj = Some t' ->
                    tj ∉ matched (matching h this detections) ->
                    t_bbox t' <> d_bbox det) ->
     (update h this detections).1 (d_bbox det) = h (d_bbox det)).
Proof.
  intros Hin.
  pose proof (matching_inv h this detections) as Hinv.
  destruct (inv_applied _ _ _ _ _ Hinv _ _ Hin) as (track & det & Ht & Hd & Hst).
  assert (Hm : ti ∈ matched (matching h this detections))
    by (apply elem_of_matched; eauto).
  exists track, det. split_and!; try done. cbv zeta.
  assert (Hpost : postTracks h this detections !! ti = Some (applyMatch h track det)).
  { rewrite postTracks_lookup, Hst. cbn. unfold agedTrack.
    by rewrite bool_decide_eq_true_2. }
  split; [exact Hpost|]. split.
  - rewrite update_tracked, elem_of_app. left.
    unfold survivors. destruct (tracked this) as [|t0 ts] eqn:E; [done|].
    apply list_elem_of_filter. split; [done|].
    by eapply list_elem_of_lookup_2.
  - intros Hno. rewrite update_store.
    destruct (tracked this) as [|t0 ts] eqn:E; [done|]. rewrite <- E in *.
    unfold postStore. apply ageLoop_store_other.
    intros tj t' Hj Hjm. cbn in Hjm.
    rewrite (inv_untouched _ _ _ _ _ Hinv) in Hj.
    + by eapply Hno.
    + by rewrite (inv_matched _ _ _ _ _ Hinv), elem_of_list_to_set in Hjm.
Qed.

(** When no person is detected, no track is matched. *)
Lemma no_detection_no_match h this detections :
  personDetections detections = [] -> matched (matching h this detections) = ∅.
Proof.
  intros Hpd. apply set_eq. intros ti. rewrite elem_of_matched. split.
  - intros (di & Hin).
    destruct (inv_applied _ _ _ _ _ (matching_inv h this detections) _ _ Hin)
      as (track & det & _ & Hd & _).
    rewrite Hpd in Hd. done.
  - intros Hin. by apply not_elem_of_empty in Hin.
Qed.

(** What a call does to a track it leaves unmatched (every track when no
    person is detected): the age of the track grows by exactly 1; its
    identity, score, velocity and array reference are unchanged; the width
    and height in its array are unchanged; and, when no other unmatched track
    refers to the same array, x and y in its array are advanced by exactly
    the velocity of the track. *)
Lemma unmatched_track_ages_and_coasts
    (h : Store) (this : PersonTracker) (detections : list Detection)
    (ti : nat) (t : TrackedPerson) :
  tracked this !! ti = Some t ->
  ti ∉ matched (matching h this detections) ->
  let h' := (update h this detections).1 in
  postTracks h this detections !! ti =
    Some {| t_id := t_id t; t_bbox := t_bbox t; t_score := t_score t;
            t_age := t_age t + 1; t_velocity := t_velocity t |} /\
  b_w (h' (t_bbox t)) = b_w (h (t_bbox t)) /\
  b_h (h' (t_bbox t)) = b_h (h (t_bbox t)) /\
  ((forall tj t', tj <> ti -> tracked this !! tj = Some t' ->
                  tj ∉ matched (matching h this detections) ->
                  t_bbox t' <> t_bbox t) ->
   b_x (h' (t_bbox t)) = (b_x (h (t_bbox t)) + fst (t_velocity t))%float /\
   b_y (h' (t_bbox t)) = (b_y (h (t_bbox t)) + snd (t_velocity t))%float) /\
  (personDetections detections = [] ->
   matched (matching h this detections) = ∅).
Proof.
  intros Ht Hun. cbv zeta.
  pose proof (matching_inv h this detections) as Hinv.
  assert (Hst : forall tj, tj ∉ matched (matching h this detections) ->
                  ms_tracked (matching h this detections) !! tj = tracked this !! tj).
  { intros tj Hj. apply (inv_untouched _ _ _ _ _ Hinv).
    rewrite (inv_matched _ _ _ _ _ Hinv), elem_of_list_to_set in Hj. done. }
  assert (Hstore : (update h this detections).1 = postStore h this detections).
  { rewrite update_store. destruct (tracked this); [done|reflexivity]. }
  rewrite Hstore. unfold postStore. split_and!.
  - rewrite postTracks_lookup, (Hst _ Hun), Ht. cbn. unfold agedTrack.
    by rewrite bool_decide_eq_false_2.
  - apply ageLoop_store_size.
  - apply ageLoop_store_size.
  - intros Hno.
    rewrite (ageLoop_store_one _ _ 0%nat h ti t); [done| |done|].
    + by rewrite (Hst _ Hun).
    + intros tj t' Hne Hj Hjm. cbn in Hjm. rewrite (Hst _ Hjm) in Hj. by eapply Hno.
  - apply no_detection_no_match.
Qed.

(** * Intersection over union *)

Section IoU.
#[local] Open Scope float_scope.
Import Num F64 JsFacts.

Lemma iou_unfold a b :
  iou a b = if 0 <? unionArea a b then interArea a b / unionArea a b else 0.
Proof. reflexivity. Qed.

Lemma extent_cases lo1 hi1 lo2 hi2 :
  extent lo1 hi1 lo2 hi2 = nan \/ extent lo1 hi1 lo2 hi2 = 0 \/
  (0 <? extent lo1 hi1 lo2 hi2) = true.
Proof.
  unfold extent. rewrite Math_max_zero.
  destruct (is_nan _); [by left|].
  destruct (0 <? _) eqn:E; [by right; right|by right; left].
Qed.

Lemma extent_disjoint lo1 hi1 lo2 hi2 :
  le hi1 lo2 \/ le hi2 lo1 ->
  extent lo1 hi1 lo2 hi2 = 0 \/ extent lo1 hi1 lo2 hi2 = nan.
Proof.
  intros Hd. unfold extent. rewrite Math_max_zero.
  destruct (is_nan _); [by right|]. left.
  rewrite zero_ltb_sub.
  assert (H : (Js.Math_max [lo1; lo2] <? Js.Math_min [hi1; hi2]) = false);
    [|by rewrite H].
  destruct (Js.Math_max [lo1; lo2] <? Js.Math_min [hi1; hi2]) eqn:E; [|done].
  exfalso. destruct (ltb_not_nan _ _ E) as [Hn1 Hn2].
  destruct (Math_max_pair lo1 lo2) as [Hx|[Hx1 Hx2]]; [congruence|].
  destruct (Math_min_pair hi1 hi2) as [Hy|[Hy1 Hy2]]; [congruence|].
  assert (Hle : le (Js.Math_min [hi1; hi2]) (Js.Math_max [lo1; lo2])).
  { destruct Hd as [Hd|Hd].
    - eapply le_trans; [exact Hy1|]. eapply le_trans; [exact Hd|exact Hx2].
    - eapply le_trans; [exact Hy2|]. eapply le_trans; [exact Hd|exact Hx1]. }
  apply le_not_ltb in Hle. congruence.
Qed.

Lemma zero_mul_extent lo1 hi1 lo2 hi2 :
  0 * extent lo1 hi1 lo2 hi2 = 0 \/ 0 * extent lo1 hi1 lo2 hi2 = nan.
Proof.
  destruct (extent_cases lo1 hi1 lo2 hi2) as [->|[->|H]].
  - right. apply mul_nan_r.
  - by left.
  - by apply zero_mul_positive.
Qed.

Lemma interArea_disjoint a b :
  disjointBoxes a b -> interArea a b = 0 \/ interArea a b = nan.
Proof.
  unfold disjointBoxes, interArea. rewrite !leb_le.
  fold (extent (b_x a) (b_x a + b_w a) (b_x b) (b_x b + b_w b)).
  fold (extent (b_y a) (b_y a + b_h a) (b_y b) (b_y b + b_h b)).
  intros [H|[H|[H|H]]].
  1, 2: destruct (extent_disjoint (b_x a) (b_x a + b_w a) (b_x b) (b_x b + b_w b))
          as [->| ->]; [tauto|apply zero_mul_extent|right; apply mul_nan_l].
  1, 2: destruct (extent_disjoint (b_y a) (b_y a + b_h a) (b_y b) (b_y b + b_h b))
          as [->| ->]; [tauto|rewrite mul_comm; apply zero_mul_extent|right; apply mul_nan_r].
Qed.

(** [iou] is the quotient when the union is positive. *)
Lemma iou_quotient a b :
  (0 <? unionArea a b) = true -> iou a b = interArea a b / unionArea a b.
Proof. intros H. by rewrite iou_unfold, H. Qed.

(** [iou] is 0 when the union is 0. *)
Lemma iou_union_zero a b : (unionArea a b =? 0) = true -> iou a b = 0.
Proof.
  intros H. apply eqb_le in H as [H _]. apply le_not_ltb in H.
  by rewrite iou_unfold, H.
Qed.

(** [iou] is 0 for rectangles that do not overlap. *)
Lemma iou_disjoint a b : disjointBoxes a b -> iou a b = 0.
Proof.
  intros H. rewrite iou_unfold. unfold unionArea.
  destruct (interArea_disjoint a b H) as [-> | ->].
  - destruct (0 <? _) eqn:E; [|done]. by apply zero_div_positive.
  - by rewrite sub_nan_r, ltb_nan_r.
Qed.

End IoU.

(** * Association *)

Section Association.
#[local] Open Scope float_scope.

Lemma combinedScore_formula P D :
  combinedScore P D =
  0.6 * iou P D
  + 0.4 * Js.Math_max [0; 1 - centerDistance P D / (Js.Math_max [b_w P; b_h P; 100] * 2)].
Proof.
  unfold combinedScore. cbv zeta.
  by rewrite (F64.mul_comm _ 0.6), (F64.mul_comm _ 0.4).
Qed.

Lemma matches_retained h this detections ti di :
  (ti, di) ∈ matches h this detections ->
  exists c, c ∈ buildCosts h (tracked this) (personDetections detections) /\
            trackIdx c = ti /\ detIdx c = di /\ (0.1 <? c_score c) = true.
Proof.
  intros Hin. apply committed_from in Hin as (c & Hc & Hti & Hdi).
  unfold sortedCosts in Hc. rewrite sortCosts_perm in Hc.
  exists c. split_and!; try done.
  apply elem_of_buildCosts in Hc as (t & d & _ & _ & _ & Hs). exact Hs.
Qed.

(** A track and a detection that are in a committed pair score above 0.1. *)
Lemma matches_score h this detections ti di t d :
  (ti, di) ∈ matches h this detections ->
  tracked this !! ti = Some t -> personDetections detections !! di = Some d ->
  (0.1 <? combinedScore (predictedBox h t) (h (d_bbox d))) = true.
Proof.
  intros Hin Ht Hd.
  apply matches_retained in Hin as (c & Hc & <- & <- & Hs).
  apply elem_of_buildCosts in Hc as (t' & d' & Ht' & Hd' & Hsc & _).
  assert (t' = t) as -> by congruence. assert (d' = d) as -> by congruence.
  by rewrite <- Hsc.
Qed.

(** C2.  In an [update] call on a tracker that holds tracks, the candidate
    list holds exactly the (track, detection) pairs whose combined score is
    strictly above 0.1; the combined score is 0.6 * IoU + 0.4 * proximity
    between the rectangle of the detection and the predicted rectangle of
    the track (its array translated by its velocity, same width and height);
    IoU is the intersection area over the union area, the union being areaA
    + areaB - intersection, and is 0 when the union is 0 and for rectangles
    that do not overlap; proximity is max(0, 1 - d / (max(predicted width,
    predicted height, 100) * 2)), d being the Euclidean distance between the
    two centers.  Every pair committed by the call is one of these
    candidates, and so is what [update] returns: a track of the returned
    list is a track held before grown one call older, or a track held before
    with the four assignments of a match with a detection it scores above
    0.1 with, or a new track; a track that scores at or below 0.1 with every
    person detection is returned one call older (unless it is evicted), and
    a person detection that scores at or below 0.1 with every track gets a
    new track: no pair at or below 0.1 is matched, even when nothing better
    exists. *)
Theorem candidates_are_pairs_above_threshold
    (h : Store) (this : PersonTracker) (detections : list Detection) :
  let tracks := tracked this in
  let pd := personDetections detections in
  let r := update h this detections in
  (forall c,
     c ∈ buildCosts h tracks pd <->
     exists t d,
       tracks !! trackIdx c = Some t /\ pd !! detIdx c = Some d /\
       (0.1 <? c_score c) = true /\
       let P := {| b_x := b_x (h (t_bbox t)) + fst (t_velocity t);
                   b_y := b_y (h (t_bbox t)) + snd (t_velocity t);
                   b_w := b_w (h (t_bbox t));
                   b_h := b_h (h (t_bbox t)) |} in
       let D := h (d_bbox d) in
       let proximity :=
         Js.Math_max [0; 1 - centerDistance P D / (Js.Math_max [b_w P; b_h P; 100] * 2)] in
       c_score c = 0.6 * iou P D + 0.4 * proximity) /\
  (forall a b,
     unionArea a b = b_w a * b_h a + b_w b * b_h b - interArea a b /\
     ((0 <? unionArea a b) = true -> iou a b = interArea a b / unionArea a b) /\
     ((unionArea a b =? 0) = true -> iou a b = 0) /\
     (disjointBoxes a b -> iou a b = 0) /\
     centerDistance a b =
       sqrt (((b_x a + b_w a / 2) - (b_x b + b_w b / 2))
             * ((b_x a + b_w a / 2) - (b_x b + b_w b / 2))
             + ((b_y a + b_h a / 2) - (b_y b + b_h b / 2))
               * ((b_y a + b_h a / 2) - (b_y b + b_h b / 2)))) /\
  (forall ti di,
     (ti, di) ∈ matches h this detections ->
     exists c, c ∈ buildCosts h tracks pd /\ trackIdx c = ti /\ detIdx c = di /\
               (0.1 <? c_score c) = true) /\
  (forall ti,
     ti ∈ matched (matching h this detections) ->
     exists c, c ∈ buildCosts h tracks pd /\ trackIdx c = ti /\
               (0.1 <? c_score c) = true) /\
  (forall di,
     di ∈ matchedDetections (matching h this detections) ->
     exists c, c ∈ buildCosts h tracks pd /\ detIdx c = di /\
               (0.1 <? c_score c) = true) /\
  (forall t', t' ∈ tracked r.2 ->
     (exists ti t, tracks !! ti = Some t /\ t' = older t) \/
     (exists c t d,
        c ∈ buildCosts h tracks pd /\ (0.1 <? c_score c) = true /\
        tracks !! trackIdx c = Some t /\ pd !! detIdx c = Some d /\
        t' = applyMatch h t d) \/
     (exists d n, d ∈ pd /\ (nextId this <= n < nextId r.2)%Z /\ t' = newTrack n d)) /\
  (forall ti t,
     tracks !! ti = Some t ->
     (forall d, d ∈ pd ->
        (0.1 <? combinedScore (predictedBox h t) (h (d_bbox d))) = false) ->
     (t_age t + 1 < maxAge)%Z ->
     older t ∈ tracked r.2) /\
  (forall di d,
     pd !! di = Some d ->
     (forall t, t ∈ tracks ->
        (0.1 <? combinedScore (predictedBox h t) (h (d_bbox d))) = false) ->
     exists n, (nextId this <= n < nextId r.2)%Z /\ newTrack n d ∈ tracked r.2).
Proof.
  cbv zeta. split_and!.
  - intros c. rewrite elem_of_buildCosts.
    split; intros (t & d & Ht & Hd & H1 & H2); exists t, d; split_and!; try done.
    + rewrite H1. apply combinedScore_formula.
    + rewrite H2. symmetry. apply (combinedScore_formula (predictedBox h t)).
  - intros a b. split_and!.
    + reflexivity.
    + apply iou_quotient.
    + apply iou_union_zero.
    + apply iou_disjoint.
    + reflexivity.
  - intros ti di Hin. by apply matches_retained.
  - intros ti Hin. apply elem_of_matched in Hin as (di & Hin).
    destruct (matches_retained _ _ _ _ _ Hin) as (c & Hc & Hti & _ & Hs). eauto.
  - intros di Hin. apply elem_of_matchedDetections in Hin as (ti & Hin).
    destruct (matches_retained _ _ _ _ _ Hin) as (c & Hc & _ & Hdi & Hs). eauto.
  - intros t' Ht'.
    destruct (returned_cases _ _ _ _ Ht')
      as [(ti & t & Ht & _ & ->)|[(ti & di & t & d & Hin & Ht & Hd & ->)
                                  |(di & d & n & Hd & _ & Hn & ->)]].
    + left. by exists ti, t.
    + right. left.
      destruct (matches_retained _ _ _ _ _ Hin) as (c & Hc & <- & <- & Hs).
      by exists c, t, d.
    + right. right. exists d, n. split_and!; [by eapply list_elem_of_lookup_2|lia|lia|done].
  - intros ti t Ht Hno Hage. apply (returned_unmatched _ _ _ ti); [done| |done].
    intros Hm. apply list_elem_of_fmap in Hm as ([ti' di] & E & Hin).
    cbn [fst] in E. subst ti'.
    destruct (matches_lookup _ _ _ _ _ Hin) as (t' & d & Ht' & Hd & _).
    pose proof (matches_score _ _ _ _ _ _ _ Hin Ht Hd) as Hs.
    rewrite Hno in Hs; [done|]. by eapply list_elem_of_lookup_2.
  - intros di d Hd Hno. apply (returned_spawned _ _ _ di); [done|].
    intros Hm. apply list_elem_of_fmap in Hm as ([ti di'] & E & Hin).
    cbn [snd] in E. subst di'.
    destruct (matches_lookup _ _ _ _ _ Hin) as (t & d' & Ht & Hd' & _).
    pose proof (matches_score _ _ _ _ _ _ _ Hin Ht Hd) as Hs.
    rewrite Hno in Hs; [done|]. by eapply list_elem_of_lookup_2.
Qed.

(** C3.  In an [update] call the candidates are enumerated track by track
    and, for each track, in detection order; the sort returns them in
    descending order of combined score and keeps the candidates of equal
    score in their enumeration order, so a tie goes to the pair enumerated
    first; the loop then walks the sorted list and, at every candidate, its
    two sets hold exactly the tracks and detections of the pairs committed so
    far: it commits the candidate exactly when neither its track nor its
    detection is among them.  So no track and no detection is in two
    committed pairs.  What [update] returns is made of the pairs committed in
    this walk: the track of a committed pair is returned with the four
    assignments of the match, a track in no committed pair is returned one
    call older (unless it is evicted), a person detection in no committed
    pair gets a new track, and the returned list holds nothing else.  All of
    this is a function of the input: the same input gives the same committed
    pairs. *)
Theorem greedy_walk_in_score_order
    (h : Store) (this : PersonTracker) (detections : list Detection) :
  let tracks := tracked this in
  let pd := personDetections detections in
  let costs := buildCosts h tracks pd in
  let sorted := sortedCosts h this detections in
  let r := update h this detections in
  costs = filter retained (allPairs h tracks pd) /\
  sorted ≡ₚ costs /\
  StronglySorted (fun a b => (c_score b <=? c_score a) = true) sorted /\
  (forall s, filter (fun c => (c_score c =? s) = true) sorted =
             filter (fun c => (c_score c =? s) = true) costs) /\
  (forall l1 a l2 b l3,
     costs = l1 ++ a :: l2 ++ b :: l3 ->
     (c_score a =? c_score b) = true ->
     exists k1 k2 k3, sorted = k1 ++ a :: k2 ++ b :: k3) /\
  (forall pre c post,
     sorted = pre ++ c :: post ->
     let st := matchLoop h pd tracks pre in
     let st' := matchLoop h pd tracks (pre ++ [c]) in
     matched st = list_to_set (committed pre).*1 /\
     matchedDetections st = list_to_set (committed pre).*2 /\
     (trackIdx c ∈ (committed pre).*1 \/ detIdx c ∈ (committed pre).*2 ->
      committed (pre ++ [c]) = committed pre /\ st' = st) /\
     (trackIdx c ∉ (committed pre).*1 -> detIdx c ∉ (committed pre).*2 ->
      committed (pre ++ [c]) = committed pre ++ [(trackIdx c, detIdx c)] /\
      matched st' = {[trackIdx c]} ∪ matched st /\
      matchedDetections st' = {[detIdx c]} ∪ matchedDetections st)) /\
  matches h this detections = committed sorted /\
  matched (matching h this detections) = list_to_set (matches h this detections).*1 /\
  matchedDetections (matching h this detections)
    = list_to_set (matches h this detections).*2 /\
  NoDup (committed sorted).*1 /\
  NoDup (committed sorted).*2 /\
  (forall ti di,
     (ti, di) ∈ committed sorted ->
     exists t d, tracks !! ti = Some t /\ pd !! di = Some d /\
                 applyMatch h t d ∈ tracked r.2) /\
  (forall ti t,
     tracks !! ti = Some t -> ti ∉ (committed sorted).*1 ->
     (t_age t + 1 < maxAge)%Z -> older t ∈ tracked r.2) /\
  (forall di d,
     pd !! di = Some d -> di ∉ (committed sorted).*2 ->
     exists n, (nextId this <= n < nextId r.2)%Z /\ newTrack n d ∈ tracked r.2) /\
  (forall t', t' ∈ tracked r.2 ->
     (exists ti t, tracks !! ti = Some t /\ (ti ∉ (committed sorted).*1) /\
                   t' = older t) \/
     (exists ti di t d, (ti, di) ∈ committed sorted /\ tracks !! ti = Some t /\
                        pd !! di = Some d /\ t' = applyMatch h t d) \/
     (exists di d n, pd !! di = Some d /\ (di ∉ (committed sorted).*2) /\
                     (nextId this <= n < nextId r.2)%Z /\ t' = newTrack n d)).
Proof.
  cbv zeta.
  pose proof (matching_inv h this detections) as Hinv.
  split_and!.
  - apply buildCosts_spec.
  - apply sortCosts_perm.
  - eapply (StronglySorted_mono notBelow).
    + intros a b Hab. by apply F64.leb_le.
    + apply sortCosts_sorted, buildCosts_scored.
  - intros s. apply (sortCosts_stable s).
  - intros l1 a l2 b l3 Hc Hab. eapply sortCosts_tie; [|exact Hc|exact Hab].
    apply buildCosts_scored.
  - intros pre c post Hsorted.
    pose proof (sortedCosts_inRange h this detections) as Hr.
    rewrite Hsorted in Hr. apply Forall_app in Hr as [Hpre Hc].
    apply Forall_cons in Hc as [Hc _].
    pose proof (MatchInv_loop h _ _ pre Hpre) as Hp.
    split_and!.
    + apply Hp.
    + apply Hp.
    + intros Hin. unfold committed, matchLoop. rewrite !foldl_snoc.
      fold (committed pre). fold (matchLoop h (personDetections detections) (tracked this) pre).
      unfold commitStep, matchStep.
      rewrite (inv_matched _ _ _ _ _ Hp), (inv_matchedDetections _ _ _ _ _ Hp).
      destruct Hin as [Hin|Hin].
      * rewrite (bool_decide_eq_true_2 _ Hin).
        rewrite (bool_decide_eq_true_2 (trackIdx c ∈ (list_to_set _ : gset nat)))
          by (by apply elem_of_list_to_set).
        done.
      * rewrite (bool_decide_eq_true_2 _ Hin).
        rewrite (bool_decide_eq_true_2 (detIdx c ∈ (list_to_set _ : gset nat)))
          by (by apply elem_of_list_to_set).
        by rewrite !orb_true_r.
    + intros Hn1 Hn2.
      assert (Hstep : committed (pre ++ [c]) = committed pre ++ [(trackIdx c, detIdx c)]).
      { unfold committed. rewrite foldl_snoc. fold (committed pre). unfold commitStep.
        by rewrite !bool_decide_eq_false_2. }
      assert (Hp' : MatchInv h (personDetections detections) (tracked this)
                      (matchLoop h (personDetections detections) (tracked this) (pre ++ [c]))
                      (committed (pre ++ [c]))).
      { apply MatchInv_loop, Forall_app. split; [done|]. by apply Forall_singleton. }
      split; [exact Hstep|].
      rewrite (inv_matched _ _ _ _ _ Hp'), (inv_matchedDetections _ _ _ _ _ Hp').
      rewrite (inv_matched _ _ _ _ _ Hp), (inv_matchedDetections _ _ _ _ _ Hp).
      rewrite Hstep, !fmap_app, !list_to_set_app_L. cbn. set_solver.
  - reflexivity.
  - apply Hinv.
  - apply Hinv.
  - apply Hinv.
  - apply Hinv.
  - apply returned_matched.
  - apply returned_unmatched.
  - apply returned_spawned.
  - apply returned_cases.
Qed.

End Association.

(** * The point query *)

Section PointQueryFacts.
#[local] Open Scope float_scope.

Lemma containsPoint_true b vx vy :
  containsPoint b vx vy = true <->
  (b_x b <=? vx) = true /\ (vx <=? b_x b + b_w b) = true /\
  (b_y b <=? vy) = true /\ (vy <=? b_y b + b_h b) = true.
Proof. unfold containsPoint. rewrite !andb_true_iff. tauto. Qed.

Lemma scanPersons_Some h vx vy persons p :
  scanPersons h persons vx vy = Some p <->
  exists i, persons !! i = Some p /\
            containsPoint (h (t_bbox p)) vx vy = true /\
            forall j q, (j < i)%nat -> persons !! j = Some q ->
                        containsPoint (h (t_bbox q)) vx vy = false.
Proof.
  induction persons as [|q0 persons IH]; cbn [scanPersons].
  - split; [done|]. by intros (i & Hi & _).
  - destruct (containsPoint (h (t_bbox q0)) vx vy) eqn:E.
    + split.
      * intros [= <-]. exists 0%nat. split_and!; try done. intros j q Hj. lia.
      * intros ([|i] & Hi & Hc & Hbefore).
        -- cbn in Hi. congruence.
        -- specialize (Hbefore 0%nat q0). cbn in Hbefore.
           rewrite Hbefore in E by (done || lia). discriminate.
    + rewrite IH. split.
      * intros (i & Hi & Hc & Hbefore). exists (S i). split_and!; try done.
        intros [|j] q Hj Hq; cbn in Hq.
        -- by injection Hq as <-.
        -- apply (Hbefore j); [lia|done].
      * intros ([|i] & Hi & Hc & Hbefore).
        -- cbn in Hi. injection Hi as ->. congruence.
        -- exists i. split_and!; try done.
           intros j q Hj Hq. apply (Hbefore (S j)); [lia|done].
Qed.

Lemma scanPersons_None h vx vy persons :
  scanPersons h persons vx vy = None <->
  forall q, q ∈ persons -> containsPoint (h (t_bbox q)) vx vy = false.
Proof.
  induction persons as [|q0 persons IH]; cbn [scanPersons].
  - split; [|done]. intros _ q Hq. by apply elem_of_nil in Hq.
  - destruct (containsPoint (h (t_bbox q0)) vx vy) eqn:E.
    + split; [done|]. intros Hall. rewrite Hall in E by left. discriminate.
    + rewrite IH. split.
      * intros Hall q Hq. apply elem_of_cons in Hq as [->|Hq]; auto.
      * intros Hall q Hq. apply Hall. by right.
Qed.

(** C8.  [findPersonAtPoint] scales x by videoWidth / canvasWidth and y by
    videoHeight / canvasHeight, and returns the first track of the list
    whose rectangle contains the scaled point, the four edges included; it
    returns nothing exactly when no rectangle of the list contains the
    point, in particular on the empty list.  With a track whose rectangle is
    (100, 100, 40, 40), a 1280x720 source and a 640x360 canvas, the canvas
    point (60, 60) gives that track and (10, 10) gives nothing. *)
Theorem findPersonAtPoint_first_containing
    (h : Store) (persons : list TrackedPerson)
    (x y canvasWidth canvasHeight videoWidth videoHeight : float) :
  let vx := x * (videoWidth / canvasWidth) in
  let vy := y * (videoHeight / canvasHeight) in
  let inside (p : TrackedPerson) :=
    (b_x (h (t_bbox p)) <=? vx) = true /\
    (vx <=? b_x (h (t_bbox p)) + b_w (h (t_bbox p))) = true /\
    (b_y (h (t_bbox p)) <=? vy) = true /\
    (vy <=? b_y (h (t_bbox p)) + b_h (h (t_bbox p))) = true in
  let found :=
    findPersonAtPoint h persons x y canvasWidth canvasHeight videoWidth videoHeight in
  (forall p,
     found = Some p <->
     exists i, persons !! i = Some p /\ inside p /\
               forall j q, (j < i)%nat -> persons !! j = Some q -> ~ inside q) /\
  (found = None <-> forall q, q ∈ persons -> ~ inside q) /\
  findPersonAtPoint h [] x y canvasWidth canvasHeight videoWidth videoHeight = None /\
  (forall t,
     h (t_bbox t) = {| b_x := 100; b_y := 100; b_w := 40; b_h := 40 |} ->
     findPersonAtPoint h [t] 60 60 640 360 1280 720 = Some t /\
     findPersonAtPoint h [t] 10 10 640 360 1280 720 = None).
Proof.
  cbv zeta. unfold findPersonAtPoint.
  assert (Hno : forall q vx vy,
             containsPoint (h (t_bbox q)) vx vy = false <->
             ~ ((b_x (h (t_bbox q)) <=? vx) = true /\
                (vx <=? b_x (h (t_bbox q)) + b_w (h (t_bbox q))) = true /\
                (b_y (h (t_bbox q)) <=? vy) = true /\
                (vy <=? b_y (h (t_bbox q)) + b_h (h (t_bbox q))) = true)).
  { intros q vx vy. rewrite <- containsPoint_true. by destruct (containsPoint _ _ _). }
  split_and!.
  - intros p. rewrite scanPersons_Some. split.
    + intros (i & Hi & Hc & Hb). exists i. apply containsPoint_true in Hc.
      split; [done|]. split; [exact Hc|].
      intros j q Hj Hq. apply Hno. by eapply Hb.
    + intros (i & Hi & Hc & Hb). exists i. apply containsPoint_true in Hc.
      split; [done|]. split; [exact Hc|].
      intros j q Hj Hq. apply Hno. by eapply Hb.
  - rewrite scanPersons_None. split; intros Hall q Hq; apply Hno; by apply Hall.
  - reflexivity.
  - intros t Ht. cbn [scanPersons]. rewrite Ht. split; reflexivity.
Qed.

End PointQueryFacts.

(** In [Scenario.reused] the first track was matched with the detection of
    array 1 (velocity (300, 300)), then lost it: its prediction fell far
    from the detection, the ageing loop moved array 1 by (300, 300), and the
    detection, still unmatched, became a second track on the same array,
    with velocity (0, 0). *)
Example reused_state :
  tracked Scenario.reused.2 =
    [ {| t_id := 1; t_bbox := 1%nat; t_score := 0.8%float; t_age := 1;
         t_velocity := (300%float, 300%float) |};
      {| t_id := 2; t_bbox := 1%nat; t_score := 0.8%float; t_age := 0;
         t_velocity := (0%float, 0%float) |} ] /\
  Scenario.reused.1 1%nat =
    {| b_x := 600; b_y := 600; b_w := 20; b_h := 20 |}.
Proof. split; vm_compute; reflexivity. Qed.

(** C5.  In [Scenario.reused], a call without detection leaves both tracks
    unmatched; the second track has velocity (0, 0), yet x in its array goes
    from 600 to 900, because the first track advances the array they
    share: the call does not advance every unmatched track by exactly its
    velocity. *)
Theorem unmatched_advance_fails_on_shared_array :
  b_x (Scenario.reused.1 1%nat) = 600%float /\
  b_x ((update Scenario.reused.1 Scenario.reused.2 []).1 1%nat) = 900%float /\
  ~ unmatched_advance_by_velocity Scenario.reused.1 Scenario.reused.2 [].
Proof.
  split; [vm_compute; reflexivity|]. split; [vm_compute; reflexivity|].
  intros H.
  specialize (H 1%nat
                {| t_id := 2; t_bbox := 1%nat; t_score := 0.8%float; t_age := 0;
                   t_velocity := (0%float, 0%float) |}).
  destruct H as (_ & _ & _ & Hx & _).
  - vm_compute. reflexivity.
  - rewrite no_detection_no_match by reflexivity. apply not_elem_of_empty.
  - apply (f_equal (fun v => PrimFloat.eqb v 900)) in Hx.
    vm_compute in Hx. discriminate.
Qed.

(** C4.  In [Scenario.reused] the detection of array 1 is passed once
    more.  The second track is matched with it (the only committed pair): it
    gets velocity (0, 0), the score of the detection, age 0 and, for [bbox],
    the array of the detection, which holds (600, 600, 20, 20) when the call
    is made.  The first track is left unmatched and still refers to that
    array, so the ageing loop adds its velocity (300, 300) to it: when the
    call returns, the rectangle of the matched track is (900, 900, 20, 20),
    not the rectangle the detection was passed with. *)
Theorem matched_track_moved_by_shared_array :
  let h := Scenario.reused.1 in
  let this := Scenario.reused.2 in
  let det := Scenario.person 1%nat 0.8%float in
  let post := {| t_id := 2; t_bbox := 1%nat; t_score := 0.8%float; t_age := 0;
                 t_velocity := (0%float, 0%float) |} in
  h (d_bbox det) = {| b_x := 600; b_y := 600; b_w := 20; b_h := 20 |} /\
  matches h this [det] = [(1, 0)]%nat /\
  tracked (update h this [det]).2 =
    [ {| t_id := 1; t_bbox := 1%nat; t_score := 0.8%float; t_age := 2;
         t_velocity := (300%float, 300%float) |}; post ] /\
  (update h this [det]).1 (t_bbox post) =
    {| b_x := 900; b_y := 900; b_w := 20; b_h := 20 |} /\
  (update h this [det]).1 (t_bbox post) <> h (d_bbox det).
Proof.
  cbv zeta. split_and!; try (vm_compute; reflexivity).
  intros E. apply (f_equal (fun b => PrimFloat.eqb (b_x b) 600)) in E.
  vm_compute in E. discriminate.
Qed.

(** ** Witnesses *)

Lemma bootstrap_creates_one_track_per_detection_witness :
  tracked newTracker = [] /\
  Forall isPerson [Scenario.person 0%nat 0.9%float; Scenario.person 1%nat 0.8%float] /\
  ids (tracked (update Scenario.store0 newTracker
                  [Scenario.person 0%nat 0.9%float; Scenario.person 1%nat 0.8%float]).2)
    = [1; 2].
Proof.
  assert (H1 : tracked newTracker = []) by reflexivity.
  assert (H2 : Forall isPerson
                 [Scenario.person 0%nat 0.9%float; Scenario.person 1%nat 0.8%float])
    by (repeat constructor).
  split; [exact H1|]. split; [exact H2|].
  destruct (bootstrap_creates_one_track_per_detection Scenario.store0 newTracker _ H1 H2)
    as (_ & _ & Hids & _).
  exact Hids.
Defined.

Lemma reset_restarts_the_counter_witness :
  isPerson (Scenario.person 0%nat 0.9%float) /\
  nextId Scenario.reused.2 = 3 /\
  ids (tracked (update Scenario.reused.1 (reset Scenario.reused.2)
                  [Scenario.person 0%nat 0.9%float]).2) = [1].
Proof.
  assert (H : isPerson (Scenario.person 0%nat 0.9%float)) by reflexivity.
  split; [exact H|]. split; [vm_compute; reflexivity|].
  destruct (reset_restarts_the_counter Scenario.reused.1 Scenario.reused.2 _ H)
    as (_ & _ & Ht & _).
  rewrite Ht. reflexivity.
Defined.

Lemma matched_track_takes_detection_witness :
  (0%nat, 0%nat) ∈ matches Scenario.one.1 Scenario.one.2 [Scenario.person 1%nat 0.8%float] /\
  exists post,
    postTracks Scenario.one.1 Scenario.one.2 [Scenario.person 1%nat 0.8%float] !! 0%nat
      = Some post /\
    t_id post = 1 /\ t_bbox post = 1%nat /\ t_age post = 0 /\
    t_velocity post = (300%float, 300%float).
Proof.
  assert (H : (0%nat, 0%nat) ∈ matches Scenario.one.1 Scenario.one.2
                                [Scenario.person 1%nat 0.8%float])
    by (vm_compute; left).
  split; [exact H|].
  destruct (matched_track_takes_detection _ _ _ _ _ H)
    as (track & det & Ht & Hd & _ & Hpost & _ & _).
  vm_compute in Ht. injection Ht as <-.
  vm_compute in Hd. injection Hd as <-.
  eexists. split; [exact Hpost|]. vm_compute. auto.
Defined.


(** ** The runs of the specification's test list *)

(** The same detection for five calls: one track, age 0 and identity 1 at
    every call. *)
Example perfect_match_stability :
  run Scenario.store0 newTracker (replicate 5 [Scenario.person 2%nat 0.9%float]) =
  replicate 5 [ {| t_id := 1; t_bbox := 2%nat; t_score := 0.9%float; t_age := 0;
                   t_velocity := (0%float, 0%float) |} ].
Proof. vm_compute. reflexivity. Qed.

(** Fourteen calls without detection, then the detection again: the track
    keeps its identity and its age returns to 0.  After fifteen such calls
    the track is gone and the detection gets identity 2. *)
Example occlusion_tolerance :
  last (run Scenario.store0 newTracker
          ([[Scenario.person 2%nat 0.9%float]] ++ replicate 14 []
           ++ [[Scenario.person 2%nat 0.9%float]])) =
    Some [ {| t_id := 1; t_bbox := 2%nat; t_score := 0.9%float; t_age := 0;
              t_velocity := (0%float, 0%float) |} ] /\
  last (run Scenario.store0 newTracker
          ([[Scenario.person 2%nat 0.9%float]] ++ replicate 15 []
           ++ [[Scenario.person 2%nat 0.9%float]])) =
    Some [ {| t_id := 2; t_bbox := 2%nat; t_score := 0.9%float; t_age := 0;
              t_velocity := (0%float, 0%float) |} ].
Proof. split; vm_compute; reflexivity. Qed.

(** Two tracks and two detections, all four candidates with the same score:
    the sort leaves the enumeration order and the walk commits the first
    track with the first detection, then the second with the second. *)
Example tie_goes_to_first_enumerated :
  let detections := [Scenario.person 5%nat 0.9%float; Scenario.person 6%nat 0.9%float] in
  sortedCosts Scenario.two.1 Scenario.two.2 detections =
    [ mkCost 0 0 0.30000000000000004%float; mkCost 0 1 0.30000000000000004%float;
      mkCost 1 0 0.30000000000000004%float; mkCost 1 1 0.30000000000000004%float ] /\
  matches Scenario.two.1 Scenario.two.2 detections = [(0, 0); (1, 1)]%nat.
Proof. split; vm_compute; reflexivity. Qed.

(** * Further properties *)

Lemma created_fresh h this detections t :
  t ∈ created h this detections ->
  exists d, d ∈ personDetections detections /\
            t_bbox t = d_bbox d /\ t_score t = d_score d /\ t_age t = 0 /\
            t_velocity t = (0%float, 0%float).
Proof.
  assert (Hn : forall n ds, t ∈ numbered n ds ->
            exists d, d ∈ ds /\ t_bbox t = d_bbox d /\ t_score t = d_score d /\
                      t_age t = 0 /\ t_velocity t = (0%float, 0%float)).
  { intros n ds Hin. unfold numbered in Hin. apply elem_of_lookup_imap in Hin.
    destruct Hin as (i & d & -> & Hd). exists d. split_and!; try done.
    by eapply list_elem_of_lookup_2. }
  unfold created. destruct (tracked this).
  - apply Hn.
  - intros Hin. destruct (Hn _ _ Hin) as (d & Hd & Hrest). exists d. split; [|done].
    eapply elem_of_sublist; [exact Hd|]. apply leftOver_sublist.
Qed.

(** Ages never go below zero. *)
Lemma update_ages_nonneg h this detections :
  Forall (fun t => 0 <= t_age t) (tracked this) ->
  Forall (fun t => 0 <= t_age t) (tracked (update h this detections).2).
Proof.
  intros Hpre. apply Forall_forall. intros t'.
  rewrite update_tracked, elem_of_app. intros [Hs|Hc].
  - unfold survivors in Hs. destruct (tracked this) as [|t0 ts] eqn:E;
      [by apply elem_of_nil in Hs|]. rewrite <- E in *.
    apply list_elem_of_filter in Hs as [_ Hin].
    apply list_elem_of_lookup in Hin as (ti & Hti).
    apply postTracks_cases in Hti as (t & Ht & [[_ ->]|(di & d & _ & _ & ->)]); cbn; [|lia].
    eapply Forall_forall in Hpre; [|by eapply list_elem_of_lookup_2]. lia.
  - apply created_fresh in Hc as (d & _ & _ & _ & -> & _). lia.
Qed.

(** X1.  Whatever the calls made on a new tracker, every track it holds has
    an age between 0 and 14: a match or a creation sets the age to 0, a call
    without a match adds 1, and the eviction removes the track at 15. *)
Theorem ages_stay_in_range (h : Store) (frames : list (list Detection)) :
  Forall (fun t => 0 <= t_age t <= 14) (tracked (runState h newTracker frames).2).
Proof.
  assert (H0 : forall this h, Forall (fun t => 0 <= t_age t) (tracked this) ->
                Forall (fun t => 0 <= t_age t) (tracked (runState h this frames).2)).
  { induction frames as [|f frames IH]; intros this h0 Hpre; cbn; [done|].
    apply IH. by apply update_ages_nonneg. }
  destruct frames as [|f frames _] using rev_ind; [constructor|].
  rewrite runState_app. cbn.
  apply Forall_forall. intros t Ht. split.
  - specialize (H0 newTracker h (Forall_nil_2 _)).
    rewrite runState_app in H0. cbn in H0.
    eapply Forall_forall in H0; [exact H0|done].
  - pose proof (update_ages _ _ _ _ Ht). unfold maxAge in *. lia.
Qed.

(** ** Calls without a person *)

Lemma costsInner_nil h P ti di costs : costsInner h P ti di [] costs = costs.
Proof. reflexivity. Qed.

Lemma buildCosts_no_detection h tracks : buildCosts h tracks [] = [].
Proof.
  unfold buildCosts. generalize 0%nat.
  induction tracks as [|t tracks IH]; intros ti; cbn; [done|]. apply IH.
Qed.

Lemma ageLoop_none tracks : forall ti h,
  (ageLoop ∅ ti tracks h).1 = older <$> tracks.
Proof.
  intros ti h. rewrite ageLoop_tracks.
  rewrite <- (imap_const older). apply imap_ext. intros k t _. cbn.
  unfold agedTrack. by rewrite bool_decide_eq_false_2 by set_solver.
Qed.

Lemma filter_older (tracks : list TrackedPerson) k :
  filter (fun t => t_age t < maxAge) (olderBy k <$> tracks) =
  olderBy k <$> filter (fun t => t_age t + k < maxAge) tracks.
Proof.
  induction tracks as [|t tracks IH]; [done|].
  rewrite fmap_cons, !filter_cons, IH. cbn [olderBy t_age].
  destruct (decide (t_age t + k < maxAge)); [|done].
  by rewrite fmap_cons.
Qed.

Lemma quiet_update h this detections :
  quiet detections ->
  tracked (update h this detections).2 =
    olderBy 1 <$> filter (fun t => t_age t + 1 < maxAge) (tracked this) /\
  nextId (update h this detections).2 = nextId this.
Proof.
  unfold quiet. intros Hq.
  assert (Hc : created h this detections = []).
  { unfold created. rewrite Hq. by destruct (tracked this). }
  rewrite update_nextId, update_tracked, Hc, app_nil_r. split; [|cbn; lia].
  unfold survivors. destruct (tracked this) as [|t0 ts] eqn:E; [done|].
  rewrite <- E. rewrite <- filter_older. f_equal.
  unfold postTracks, matching, sortedCosts. rewrite Hq, buildCosts_no_detection.
  cbn [sortCosts matchLoop foldl matched ms_tracked].
  apply ageLoop_none.
Qed.

Lemma olderBy_olderBy a b t : olderBy a (olderBy b t) = olderBy (b + a) t.
Proof. unfold olderBy. cbn. f_equal. lia. Qed.

Lemma olderBy_0 t : olderBy 0 t = t.
Proof. destruct t. unfold olderBy. cbn. f_equal. lia. Qed.

(** Ageing by [b] calls, then by [a] more. *)
Lemma olderBy_filter_olderBy a b (l : list TrackedPerson) :
  0 <= a -> 0 <= b ->
  olderBy a <$> filter (fun t => t_age t + a < maxAge)
                  (olderBy b <$> filter (fun t => t_age t + b < maxAge) l)
  = olderBy (b + a) <$> filter (fun t => t_age t + (b + a) < maxAge) l.
Proof.
  intros Ha Hb. induction l as [|t l IH]; [done|].
  rewrite !filter_cons.
  destruct (decide (t_age t + b < maxAge)) as [H1|H1];
    destruct (decide (t_age t + (b + a) < maxAge)) as [H2|H2]; try lia.
  - rewrite fmap_cons, filter_cons. cbn [olderBy t_age].
    rewrite decide_True by lia. rewrite !fmap_cons, olderBy_olderBy. by f_equal.
  - rewrite fmap_cons, filter_cons. cbn [olderBy t_age].
    rewrite decide_False by lia. done.
  - done.
Qed.

Lemma quiet_run h frames : forall this,
  Forall quiet frames -> frames <> [] ->
  let k := Z.of_nat (length frames) in
  tracked (runState h this frames).2 =
    olderBy k <$> filter (fun t => t_age t + k < maxAge) (tracked this) /\
  nextId (runState h this frames).2 = nextId this.
Proof.
  revert h. induction frames as [|f frames IH]; intros h this Hq Hne; [done|].
  apply Forall_cons in Hq as [Hf Hq]. cbn [runState]. cbv zeta.
  destruct (quiet_update h this f Hf) as [Ht Hn].
  destruct frames as [|f' frames].
  - cbn [runState length]. done.
  - destruct (IH (update h this f).1 (update h this f).2 Hq) as [Ht' Hn']; [done|].
    cbv zeta in Ht'. rewrite Ht', Hn', Hn. split; [|done].
    rewrite Ht. set (k := Z.of_nat (length (f' :: frames))).
    replace (Z.of_nat (length (f :: f' :: frames))) with (1 + k)
      by (subst k; cbn [length]; lia).
    apply olderBy_filter_olderBy; lia.
Qed.

(** ** The greedy walk leaves no pair to improve on *)

Lemma committed_snoc l c :
  committed (l ++ [c]) = commitStep (committed l) c.
Proof. unfold committed. by rewrite foldl_snoc. Qed.

Lemma committed_grows l c p : p ∈ committed l -> p ∈ committed (l ++ [c]).
Proof.
  rewrite committed_snoc. unfold commitStep. destruct (_ || _); [done|].
  intros Hp. apply elem_of_app. by left.
Qed.

(** Every candidate walked meets, at its place or before it, a committed
    candidate that has its track or its detection. *)
Lemma committed_covers l : forall c,
  c ∈ l ->
  exists l1 c' l2,
    l = l1 ++ c' :: l2 /\
    (trackIdx c', detIdx c') ∈ committed l /\
    (trackIdx c' = trackIdx c \/ detIdx c' = detIdx c) /\
    (c' = c \/ c ∈ l2).
Proof.
  induction l as [|x l IH] using rev_ind; intros c Hc; [by apply elem_of_nil in Hc|].
  assert (Hold : forall ti di, (ti, di) ∈ committed l ->
            (ti = trackIdx x \/ di = detIdx x) ->
            exists l1 c' l2,
              l ++ [x] = l1 ++ c' :: l2 /\
              (trackIdx c', detIdx c') ∈ committed (l ++ [x]) /\
              (trackIdx c' = trackIdx x \/ detIdx c' = detIdx x) /\
              (c' = x \/ x ∈ l2)).
  { intros ti di Hin Hsh.
    destruct (committed_from _ _ _ Hin) as (c' & Hc' & <- & <-).
    apply list_elem_of_split in Hc' as (l1 & l2 & ->).
    exists l1, c', (l2 ++ [x]). split_and!.
    - by rewrite <- app_assoc.
    - by apply committed_grows.
    - done.
    - right. apply elem_of_app. right. by apply list_elem_of_singleton. }
  apply elem_of_app in Hc as [Hc|Hc].
  - destruct (IH c Hc) as (l1 & c' & l2 & -> & Hin & Hsh & Hpos).
    exists l1, c', (l2 ++ [x]). split_and!.
    + by rewrite <- app_assoc.
    + by apply committed_grows.
    + done.
    + destruct Hpos as [->|Hpos]; [by left|]. right. apply elem_of_app. by left.
  - apply list_elem_of_singleton in Hc. subst c.
    destruct (bool_decide (trackIdx x ∈ (committed l).*1)) eqn:B1.
    { apply bool_decide_eq_true in B1. apply list_elem_of_fmap in B1 as ([ti di] & E & Hin).
      cbn in E. apply (Hold ti di Hin). by left. }
    destruct (bool_decide (detIdx x ∈ (committed l).*2)) eqn:B2.
    { apply bool_decide_eq_true in B2. apply list_elem_of_fmap in B2 as ([ti di] & E & Hin).
      cbn in E. apply (Hold ti di Hin). by right. }
    exists l, x, []. split_and!; [done| |by left|by left].
    rewrite committed_snoc. unfold commitStep. rewrite B1, B2. cbn.
    apply elem_of_app. right. by apply list_elem_of_singleton.
Qed.

(** The first candidate walked is committed. *)
Lemma committed_head c rest : (trackIdx c, detIdx c) ∈ committed (c :: rest).
Proof.
  induction rest as [|x rest IH] using rev_ind.
  - cbn. unfold commitStep. cbn. by apply list_elem_of_singleton.
  - change (c :: rest ++ [x]) with ((c :: rest) ++ [x]). by apply committed_grows.
Qed.

Lemma StronglySorted_app_cons {A} (R : relation A) l1 x l2 y :
  StronglySorted R (l1 ++ x :: l2) -> y ∈ l2 -> R x y.
Proof.
  intros Hs Hy. apply StronglySorted_app_1_r in Hs.
  apply StronglySorted_inv in Hs as [_ Hx].
  by eapply Forall_forall in Hx.
Qed.

(** Every candidate shares its track or its detection with a committed pair
    whose score is not below its own. *)
Lemma candidate_covered h this detections c :
  c ∈ buildCosts h (tracked this) (personDetections detections) ->
  exists c', c' ∈ buildCosts h (tracked this) (personDetections detections) /\
    (trackIdx c', detIdx c') ∈ matches h this detections /\
    (trackIdx c' = trackIdx c \/ detIdx c' = detIdx c) /\
    (c_score c <=? c_score c')%float = true.
Proof.
  assert (Hperm : sortedCosts h this detections ≡ₚ
                  buildCosts h (tracked this) (personDetections detections))
    by apply sortCosts_perm.
  assert (Hsc : Forall scored (buildCosts h (tracked this) (personDetections detections)))
    by apply buildCosts_scored.
  assert (Hsorted : StronglySorted notBelow (sortedCosts h this detections))
    by (by apply sortCosts_sorted).
  intros Hc. rewrite <- Hperm in Hc.
  destruct (committed_covers _ c Hc) as (l1 & c' & l2 & E & Hin & Hsh & Hpos).
  exists c'. split_and!; try done.
  - rewrite <- Hperm, E. apply elem_of_app. right. by left.
  - apply F64.leb_le. destruct Hpos as [->|Hpos].
    + apply F64.le_refl. rewrite Hperm in Hc.
      by eapply Forall_forall in Hsc.
    + rewrite E in Hsorted. by eapply (StronglySorted_app_cons notBelow).
Qed.

Lemma candidate_matched h this detections c :
  c ∈ buildCosts h (tracked this) (personDetections detections) ->
  trackIdx c ∈ matched (matching h this detections) \/
  detIdx c ∈ matchedDetections (matching h this detections).
Proof.
  intros Hc. destruct (candidate_covered h this detections c Hc) as (c' & _ & Hin & [E|E] & _).
  - left. rewrite <- E. apply elem_of_matched. eauto.
  - right. rewrite <- E. apply elem_of_matchedDetections. eauto.
Qed.

(** X3.  The greedy walk leaves no pair to improve on: every candidate
    shares its track or its detection with a committed pair whose score is
    not below its own (itself when it is committed), so no track and
    detection that form a candidate are both left unmatched; and the first
    candidate of the sorted list, which no candidate outscores, is always
    committed. *)
Theorem greedy_leaves_no_better_pair
    (h : Store) (this : PersonTracker) (detections : list Detection) :
  let costs := buildCosts h (tracked this) (personDetections detections) in
  let st := matching h this detections in
  (forall c, c ∈ costs ->
     exists c', c' ∈ costs /\
       (trackIdx c', detIdx c') ∈ matches h this detections /\
       (trackIdx c' = trackIdx c \/ detIdx c' = detIdx c) /\
       (c_score c <=? c_score c')%float = true) /\
  (forall c, c ∈ costs ->
     trackIdx c ∈ matched st \/ detIdx c ∈ matchedDetections st) /\
  (forall c rest,
     sortedCosts h this detections = c :: rest ->
     (trackIdx c, detIdx c) ∈ matches h this detections /\
     forall c', c' ∈ costs -> (c_score c' <=? c_score c)%float = true).
Proof.
  cbv zeta.
  assert (Hperm : sortedCosts h this detections ≡ₚ
                  buildCosts h (tracked this) (personDetections detections))
    by apply sortCosts_perm.
  assert (Hsc : Forall scored (buildCosts h (tracked this) (personDetections detections)))
    by apply buildCosts_scored.
  assert (Hsorted : StronglySorted notBelow (sortedCosts h this detections))
    by (by apply sortCosts_sorted).
  split_and!.
  - apply candidate_covered.
  - apply candidate_matched.
  - intros c rest E. split.
    + unfold matches. rewrite E. apply committed_head.
    + intros c' Hc'. rewrite <- Hperm, E in Hc'. apply F64.leb_le.
      apply elem_of_cons in Hc' as [->|Hc'].
      * apply F64.le_refl.
        assert (Hin : c ∈ sortedCosts h this detections) by (rewrite E; by left).
        rewrite Hperm in Hin. by eapply Forall_forall in Hsc.
      * rewrite E in Hsorted. apply StronglySorted_inv in Hsorted as [_ Hx].
        by eapply Forall_forall in Hx.
Qed.

(** ** Counting *)

Lemma leftOver_ext md md' dets : forall di,
  (forall k, (di <= k)%nat -> k ∈ md <-> k ∈ md') ->
  leftOver md di dets = leftOver md' di dets.
Proof.
  induction dets as [|d dets IH]; intros di Hext; cbn [leftOver]; [done|].
  rewrite (bool_decide_ext _ _ (Hext di (Nat.le_refl _))).
  rewrite (IH (S di)); [done|]. intros k Hk. apply Hext. lia.
Qed.

Lemma length_leftOver dets : forall di (md : gset nat),
  (forall i, i ∈ md -> (di <= i < di + length dets)%nat) ->
  (length (leftOver md di dets) + size md = length dets)%nat.
Proof.
  induction dets as [|d dets IH]; intros di md Hb; cbn [leftOver length].
  - assert (md = ∅) as ->; [|by rewrite size_empty].
    apply set_eq. intros i. split; [|set_solver]. intros Hi. apply Hb in Hi. cbn in Hi. lia.
  - destruct (bool_decide (di ∈ md)) eqn:B.
    + apply bool_decide_eq_true in B.
      rewrite (leftOver_ext md (md ∖ {[di]}) dets (S di)).
      2:{ intros k Hk. rewrite elem_of_difference, elem_of_singleton.
          split; [|tauto]. intros Hin. split; [done|lia]. }
      assert (Hs : size md = S (size (md ∖ {[di]}))).
      { rewrite (union_difference_singleton_L di md B) at 1.
        rewrite size_union by set_solver. by rewrite size_singleton. }
      rewrite Hs, Nat.add_succ_r. f_equal. apply IH.
      intros i Hi. apply elem_of_difference in Hi as [Hi Hne].
      rewrite elem_of_singleton in Hne. apply Hb in Hi. cbn in Hi. lia.
    + apply bool_decide_eq_false in B. cbn [length]. rewrite Nat.add_succ_l. f_equal.
      apply IH.
      intros i Hi. assert (i <> di) by (by intros ->).
      apply Hb in Hi. cbn in Hi. lia.
Qed.

(** The elements kept by a filter are at least as many as the indices at
    which the filtered property holds. *)
Lemma length_filter_indices {A} (Q : A -> Prop) `{!forall x, Decision (Q x)}
    (l : list A) : forall k (s : gset nat),
  (forall i, i ∈ s -> (k <= i)%nat /\ exists t, l !! (i - k)%nat = Some t /\ Q t) ->
  (size s <= length (filter Q l))%nat.
Proof.
  induction l as [|x l IH]; intros k s Hs.
  - assert (s = ∅) as ->; [|by rewrite size_empty].
    apply set_eq. intros i. split; [|set_solver]. intros Hi.
    by destruct (Hs i Hi) as (_ & t & Ht & _).
  - assert (Hrest : forall s', s' ⊆ s -> k ∉ s' ->
              forall i, i ∈ s' -> (S k <= i)%nat /\ exists t, l !! (i - S k)%nat = Some t /\ Q t).
    { intros s' Hsub Hk i Hi. assert (i <> k) by (by intros ->).
      destruct (Hs i (Hsub _ Hi)) as (Hle & t & Ht & HQ). split; [lia|].
      exists t. split; [|done].
      replace (i - k)%nat with (S (i - S k)) in Ht by lia. done. }
    destruct (decide (k ∈ s)) as [Hk|Hk].
    + destruct (Hs k Hk) as (_ & t & Ht & HQ).
      rewrite Nat.sub_diag in Ht. cbn in Ht. injection Ht as ->.
      rewrite filter_cons, decide_True by done. cbn [length].
      rewrite (union_difference_singleton_L k s Hk).
      rewrite size_union by set_solver. rewrite size_singleton. cbn.
      apply le_n_S. apply (IH (S k)). apply Hrest; set_solver.
    + etrans; [apply (IH (S k)); by apply Hrest|].
      rewrite filter_cons. destruct (decide (Q x)); cbn [length]; lia.
Qed.

Lemma matches_sizes h this detections :
  size (matched (matching h this detections)) = length (matches h this detections) /\
  size (matchedDetections (matching h this detections)) = length (matches h this detections).
Proof.
  pose proof (matching_inv h this detections) as Hinv.
  rewrite (inv_matched _ _ _ _ _ Hinv), (inv_matchedDetections _ _ _ _ _ Hinv).
  rewrite !size_list_to_set, !length_fmap;
    [done|apply (inv_nodup_dets _ _ _ _ _ Hinv)|apply (inv_nodup_tracks _ _ _ _ _ Hinv)].
Qed.

Lemma length_created h this detections :
  (length (created h this detections) + length (matches h this detections)
   = length (personDetections detections))%nat.
Proof.
  unfold created. destruct (tracked this) as [|t0 ts] eqn:E.
  - rewrite length_numbered, matches_nil by done. cbn. lia.
  - rewrite length_numbered.
    rewrite <- (proj2 (matches_sizes h this detections)).
    apply length_leftOver. intros i Hi.
    apply elem_of_matchedDetections in Hi as (ti & Hin).
    destruct (matches_lookup _ _ _ _ _ Hin) as (_ & d & _ & Hd & _).
    apply lookup_lt_Some in Hd. lia.
Qed.

Lemma length_survivors h this detections :
  (length (matches h this detections) <= length (survivors h this detections)
   <= length (tracked this))%nat.
Proof.
  destruct (tracked this) as [|t0 ts] eqn:E.
  - rewrite matches_nil by done. unfold survivors. rewrite E. done.
  - unfold survivors. rewrite E. split.
    + rewrite <- (proj1 (matches_sizes h this detections)).
      apply (length_filter_indices _ _ 0%nat). intros i Hi. split; [lia|].
      apply elem_of_matched in Hi as (di & Hin).
      destruct (matches_lookup _ _ _ _ _ Hin) as (t & d & _ & _ & _ & Hp & _).
      rewrite Nat.sub_0_r. exists (applyMatch h t d). split; [done|]. done.
    + etrans; [apply length_filter|].
      pose proof (postTracks_ids h this detections) as Hids.
      apply (f_equal length) in Hids. unfold ids in Hids.
      rewrite !length_fmap, E in Hids. lia.
Qed.

(** X4.  In every call the committed pairs are at most as many as the
    person detections and as the tracks held; the call creates one track per
    person detection left unmatched and advances the counter by exactly that
    number; the returned list is the list of the survivors followed by the
    created tracks, and the track of every committed pair, with the four
    assignments of the match, is one of the survivors; so the returned list
    is never shorter than the list of person detections. *)
Theorem counter_advances_by_unmatched_detections
    (h : Store) (this : PersonTracker) (detections : list Detection) :
  let r := update h this detections in
  let pd := length (personDetections detections) in
  let m := length (matches h this detections) in
  let kept := length (survivors h this detections) in
  (m <= pd)%nat /\
  (m <= kept <= length (tracked this))%nat /\
  length (created h this detections) = (pd - m)%nat /\
  nextId r.2 = nextId this + Z.of_nat (pd - m) /\
  length (tracked r.2) = (kept + (pd - m))%nat /\
  (pd <= length (tracked r.2) <= length (tracked this) + pd - m)%nat /\
  tracked r.2 = survivors h this detections ++ created h this detections /\
  (forall ti di,
     (ti, di) ∈ matches h this detections ->
     exists t d,
       tracked this !! ti = Some t /\ personDetections detections !! di = Some d /\
       applyMatch h t d ∈ survivors h this detections /\
       applyMatch h t d ∈ tracked r.2).
Proof.
  cbv zeta.
  pose proof (length_created h this detections) as Hc.
  pose proof (length_survivors h this detections) as Hs.
  rewrite update_nextId, update_tracked, length_app.
  split_and!; try lia; [done|].
  intros ti di Hin.
  destruct (matches_lookup _ _ _ _ _ Hin) as (t & d & Ht & Hd & _ & _ & Hsv).
  exists t, d. split_and!; try done. apply elem_of_app. by left.
Qed.

(** ** Every detection is represented *)

(** X5.  Every person detection of a call is represented in the returned
    list by a track of age 0 that refers to its array and carries its score;
    and, when no age was negative before the call, every track of age 0 in
    the returned list comes from a person detection of the call in this
    way. *)
Theorem every_detection_gets_a_track
    (h : Store) (this : PersonTracker) (detections : list Detection) :
  let out := tracked (update h this detections).2 in
  (forall di d,
     personDetections detections !! di = Some d ->
     exists t, t ∈ out /\ t_bbox t = d_bbox d /\ t_score t = d_score d /\ t_age t = 0) /\
  (Forall (fun t => 0 <= t_age t) (tracked this) ->
   forall t, t ∈ out -> t_age t = 0 ->
     exists d, d ∈ personDetections detections /\
               t_bbox t = d_bbox d /\ t_score t = d_score d).
Proof.
  cbv zeta. split.
  - intros di d Hd. rewrite update_tracked.
    assert (Hnum : forall n ds, d ∈ ds ->
              exists t, t ∈ numbered n ds /\ t_bbox t = d_bbox d /\
                        t_score t = d_score d /\ t_age t = 0).
    { intros n ds Hin. apply list_elem_of_lookup in Hin as (k & Hk).
      exists (newTrack (n + Z.of_nat k) d). split; [|done].
      apply (list_elem_of_lookup_2 _ k). by apply numbered_lookup. }
    unfold created. destruct (tracked this) as [|t0 ts] eqn:E.
    + destruct (Hnum (nextId this) (personDetections detections)) as (t & Ht & Hrest).
      { by eapply list_elem_of_lookup_2. }
      exists t. split; [|done]. apply elem_of_app. by right.
    + destruct (decide (di ∈ matchedDetections (matching h this detections))) as [Hm|Hm].
      * apply elem_of_matchedDetections in Hm as (ti & Hin).
        destruct (matches_lookup _ _ _ _ _ Hin) as (t & d' & _ & Hd' & _ & _ & Hs).
        assert (d' = d) as -> by congruence.
        exists (applyMatch h t d). split; [|done]. apply elem_of_app. by left.
      * destruct (Hnum (nextId this)
                    (leftOver (matchedDetections (matching h this detections)) 0
                              (personDetections detections))) as (t & Ht & Hrest).
        { apply elem_of_leftOver. by exists di. }
        exists t. split; [|done]. apply elem_of_app. by right.
  - intros Hage t. rewrite update_tracked, elem_of_app. intros [Hs|Hc] H0.
    + unfold survivors in Hs. destruct (tracked this) as [|t0 ts] eqn:E;
        [by apply elem_of_nil in Hs|]. rewrite <- E in *.
      apply list_elem_of_filter in Hs as [_ Hin].
      apply list_elem_of_lookup in Hin as (ti & Hti).
      apply postTracks_cases in Hti as (t1 & Ht1 & [[_ ->]|(di & d & _ & Hd & ->)]).
      * exfalso. cbn in H0.
        eapply Forall_forall in Hage; [|by eapply list_elem_of_lookup_2]. cbn in Hage. lia.
      * exists d. split; [|done]. by eapply list_elem_of_lookup_2.
    + apply created_fresh in Hc as (d & Hd & Hb & Hsc & _). by exists d.
Qed.

(** ** What a call writes into the store *)

Lemma runState_store_size frames r : forall h this,
  b_w ((runState h this frames).1 r) = b_w (h r) /\
  b_h ((runState h this frames).1 r) = b_h (h r).
Proof.
  induction frames as [|f frames IH]; intros h this; cbn [runState]; [done|].
  destruct (IH (update h this f).1 (update h this f).2) as [-> ->].
  rewrite update_store. destruct (tracked this); [done|].
  apply ageLoop_store_size.
Qed.

(** X6.  The only thing a call writes into the arrays is x and y of the
    arrays that unmatched tracks refer to: the width and the height of every
    array are left alone, by one call and by any sequence of calls; an array
    to which no unmatched track refers is unchanged; and a call on a tracker
    that holds no track changes no array. *)
Theorem update_only_moves_unmatched_arrays
    (h : Store) (this : PersonTracker) (detections : list Detection) :
  let h' := (update h this detections).1 in
  (forall r, b_w (h' r) = b_w (h r) /\ b_h (h' r) = b_h (h r)) /\
  (forall r,
     (forall ti t, tracked this !! ti = Some t ->
                   ti ∉ matched (matching h this detections) -> t_bbox t <> r) ->
     h' r = h r) /\
  (tracked this = [] -> h' = h) /\
  (forall frames r,
     b_w ((runState h this frames).1 r) = b_w (h r) /\
     b_h ((runState h this frames).1 r) = b_h (h r)).
Proof.
  cbv zeta. rewrite update_store. split_and!.
  - intros r. destruct (tracked this); [done|]. apply ageLoop_store_size.
  - intros r Hno. destruct (tracked this) as [|t0 ts] eqn:E; [done|].
    rewrite <- E in *. unfold postStore. apply ageLoop_store_other.
    pose proof (matching_inv h this detections) as Hinv.
    intros tj t' Hj Hjm. cbn in Hjm.
    rewrite (inv_untouched _ _ _ _ _ Hinv) in Hj.
    + by eapply Hno.
    + by rewrite (inv_matched _ _ _ _ _ Hinv), elem_of_list_to_set in Hjm.
  - by intros ->.
  - intros frames r. apply runState_store_size.
Qed.

(** ** What a call reads of the detections *)

Section SameSeen.
Context (h : Store).

Lemma costsInner_seen P ti ds1 ds2 :
  Forall2 (fun a b => seen a = seen b) ds1 ds2 ->
  forall di costs, costsInner h P ti di ds1 costs = costsInner h P ti di ds2 costs.
Proof.
  induction 1 as [|d1 d2 ds1 ds2 Hd Hds IH]; intros di costs; cbn [costsInner]; [done|].
  injection Hd as Hb _. rewrite Hb. apply IH.
Qed.

Lemma costsOuter_seen tracks ds1 ds2 :
  Forall2 (fun a b => seen a = seen b) ds1 ds2 ->
  forall ti costs, costsOuter h ti tracks ds1 costs = costsOuter h ti tracks ds2 costs.
Proof.
  intros Hds. induction tracks as [|t tracks IH]; intros ti costs; cbn [costsOuter]; [done|].
  by rewrite (costsInner_seen _ _ _ _ Hds), IH.
Qed.

Lemma applyMatch_seen t d1 d2 :
  seen d1 = seen d2 -> applyMatch h t d1 = applyMatch h t d2.
Proof. intros Hd. injection Hd as Hb Hs. unfold applyMatch. by rewrite Hb, Hs. Qed.

Lemma matchStep_seen ds1 ds2 st c :
  Forall2 (fun a b => seen a = seen b) ds1 ds2 ->
  matchStep h ds1 st c = matchStep h ds2 st c.
Proof.
  intros Hds. unfold matchStep. destruct (_ || _); [done|].
  destruct (ds1 !! detIdx c) as [d1|] eqn:E1.
  - destruct (Forall2_lookup_l _ _ _ _ _ Hds E1) as (d2 & -> & Hd).
    destruct (ms_tracked st !! trackIdx c); [|done].
    by rewrite (applyMatch_seen _ _ _ Hd).
  - assert (ds2 !! detIdx c = None) as ->; [|done].
    apply lookup_ge_None. apply lookup_ge_None in E1.
    by rewrite <- (Forall2_length _ _ _ Hds).
Qed.

Lemma matchLoop_seen ds1 ds2 tracks costs :
  Forall2 (fun a b => seen a = seen b) ds1 ds2 ->
  matchLoop h ds1 tracks costs = matchLoop h ds2 tracks costs.
Proof.
  intros Hds. unfold matchLoop.
  induction costs as [|c costs IH] using rev_ind; [done|].
  by rewrite !foldl_snoc, IH, (matchStep_seen _ _ _ _ Hds).
Qed.

Lemma newTrack_seen n d1 d2 : seen d1 = seen d2 -> newTrack n d1 = newTrack n d2.
Proof. intros Hd. injection Hd as Hb Hs. unfold newTrack. by rewrite Hb, Hs. Qed.

Lemma spawnLoop_seen md ds1 ds2 :
  Forall2 (fun a b => seen a = seen b) ds1 ds2 ->
  forall di tracks n, spawnLoop md di ds1 tracks n = spawnLoop md di ds2 tracks n.
Proof.
  induction 1 as [|d1 d2 ds1 ds2 Hd Hds IH]; intros di tracks n; cbn [spawnLoop]; [done|].
  by rewrite (newTrack_seen _ _ _ Hd), !IH.
Qed.

Lemma bootstrap_seen ds1 ds2 :
  Forall2 (fun a b => seen a = seen b) ds1 ds2 ->
  forall n, bootstrap n ds1 = bootstrap n ds2.
Proof.
  induction 1 as [|d1 d2 ds1 ds2 Hd Hds IH]; intros n; cbn [bootstrap]; [done|].
  by rewrite (newTrack_seen _ _ _ Hd), IH.
Qed.

End SameSeen.

(** X7.  A call reads nothing of its argument but the arrays and the scores
    of the person detections, in their order: two lists of detections that
    agree on these give the same tracker and the same store, whatever their
    [id] fields and whatever detections of other classes they hold. *)
Theorem update_reads_person_arrays_and_scores
    (h : Store) (this : PersonTracker) (ds1 ds2 : list Detection) :
  seen <$> personDetections ds1 = seen <$> personDetections ds2 ->
  update h this ds1 = update h this ds2.
Proof.
  intros Hs.
  assert (Hds : Forall2 (fun a b => seen a = seen b)
                        (personDetections ds1) (personDetections ds2)).
  { apply Forall2_fmap. by rewrite Hs. }
  unfold update. fold (personDetections ds1). fold (personDetections ds2).
  destruct (tracked this) as [|t0 ts].
  - by rewrite (bootstrap_seen _ _ Hds).
  - cbv zeta. unfold buildCosts.
    rewrite (costsOuter_seen h _ _ _ Hds).
    rewrite (matchLoop_seen h _ _ _ _ Hds).
    destruct (ageLoop _ _ _ _) as [aged h'].
    by rewrite (spawnLoop_seen _ _ _ Hds).
Qed.

(** ** Arrays passed once *)

Lemma detections_apart detections di dj d d' :
  NoDup (d_bbox <$> personDetections detections) ->
  personDetections detections !! di = Some d ->
  personDetections detections !! dj = Some d' ->
  d_bbox d = d_bbox d' -> di = dj.
Proof.
  intros Hdets H1 H2 E.
  eapply (proj1 (NoDup_alt _) Hdets di dj (d_bbox d)).
  - by rewrite list_lookup_fmap, H1.
  - by rewrite list_lookup_fmap, H2, E.
Qed.

Lemma tracks_apart this ti tj t t' :
  NoDup (arrays (tracked this)) ->
  tracked this !! ti = Some t -> tracked this !! tj = Some t' ->
  t_bbox t = t_bbox t' -> ti = tj.
Proof.
  intros Htracks H1 H2 E.
  eapply (proj1 (NoDup_alt _) Htracks ti tj (t_bbox t)); unfold arrays.
  - by rewrite list_lookup_fmap, H1.
  - by rewrite list_lookup_fmap, H2, E.
Qed.

Lemma matches_one_track h this detections ti tj di :
  (ti, di) ∈ matches h this detections -> (tj, di) ∈ matches h this detections ->
  ti = tj.
Proof.
  intros H1 H2.
  pose proof (inv_nodup_dets _ _ _ _ _ (matching_inv h this detections)) as Hn.
  by pose proof (NoDup_fmap_eq snd _ _ _ Hn H1 H2 eq_refl) as [= ->].
Qed.

(** Where the array of a track comes from after the two loops. *)
Lemma postTracks_array h this detections ti t' :
  postTracks h this detections !! ti = Some t' ->
  (exists t, tracked this !! ti = Some t /\
             (ti ∉ matched (matching h this detections)) /\ t_bbox t' = t_bbox t) \/
  (exists di d, (ti, di) ∈ matches h this detections /\
                personDetections detections !! di = Some d /\ t_bbox t' = d_bbox d).
Proof.
  intros Hl. apply postTracks_cases in Hl as (t & Ht & [[Hm ->]|(di & d & Hin & Hd & ->)]).
  - left. by exists t.
  - right. by exists di, d.
Qed.

Lemma postTracks_apart h this detections :
  Apart this detections -> NoDup (arrays (postTracks h this detections)).
Proof.
  intros [Htracks Hdets Hfresh].
  apply NoDup_alt. intros i j r Hi Hj. unfold arrays in Hi, Hj.
  rewrite list_lookup_fmap in Hi, Hj.
  destruct (postTracks h this detections !! i) as [a|] eqn:Ea; [|done].
  destruct (postTracks h this detections !! j) as [b|] eqn:Eb; [|done].
  cbn in Hi, Hj. injection Hi as Hi. injection Hj as Hj.
  destruct (postTracks_array _ _ _ _ _ Ea) as [(t & Ht & Hm & E1)|(di & d & Hin & Hd & E1)];
    destruct (postTracks_array _ _ _ _ _ Eb)
      as [(t' & Ht' & Hm' & E2)|(dj & d' & Hin' & Hd' & E2)].
  - eapply tracks_apart; [done|done|done|congruence].
  - exfalso. eapply (Hfresh d' t); [by eapply list_elem_of_lookup_2
                                   |by eapply list_elem_of_lookup_2|congruence].
  - exfalso. eapply (Hfresh d t'); [by eapply list_elem_of_lookup_2
                                   |by eapply list_elem_of_lookup_2|congruence].
  - assert (di = dj) as -> by (eapply detections_apart; [done|done|done|congruence]).
    by eapply matches_one_track.
Qed.

Lemma numbered_arrays n ds : arrays (numbered n ds) = d_bbox <$> ds.
Proof.
  unfold arrays, numbered. rewrite fmap_imap.
  rewrite <- (imap_const d_bbox). by apply imap_ext.
Qed.

Lemma update_apart h this detections :
  Apart this detections -> NoDup (arrays (tracked (update h this detections).2)).
Proof.
  intros Hap. pose proof (postTracks_apart h this detections Hap) as Hpost.
  destruct Hap as [Htracks Hdets Hfresh].
  rewrite update_tracked. unfold arrays. rewrite fmap_app.
  fold (arrays (survivors h this detections)) (arrays (created h this detections)).
  unfold survivors, created.
  destruct (tracked this) as [|t0 ts] eqn:E.
  - cbn [arrays fmap list_fmap app]. by rewrite numbered_arrays.
  - rewrite numbered_arrays. apply NoDup_app. split_and!.
    + eapply sublist_NoDup; [exact Hpost|].
      apply fmap_sublist, sublist_filter.
    + intros r Hr Hr'.
      apply list_elem_of_fmap in Hr as (t' & -> & Ht').
      apply list_elem_of_filter in Ht' as [_ Ht'].
      apply list_elem_of_lookup in Ht' as (ti & Hti).
      apply list_elem_of_fmap in Hr' as (d' & Hb & Hd').
      apply elem_of_leftOver in Hd' as (dk & Hdk & Hmd). cbn in Hmd.
      destruct (postTracks_array _ _ _ _ _ Hti)
        as [(t & Ht & Hm & E1)|(di & d & Hin & Hd & E1)].
      * eapply (Hfresh d' t); [by eapply list_elem_of_lookup_2| |congruence].
        rewrite E in Ht. by eapply list_elem_of_lookup_2.
      * assert (di = dk) as -> by (eapply detections_apart; [done|done|done|congruence]).
        apply Hmd. apply elem_of_matchedDetections. eauto.
    + eapply sublist_NoDup; [exact Hdets|]. apply fmap_sublist, leftOver_sublist.
Qed.

Lemma update_arrays h this detections r :
  r ∈ arrays (tracked (update h this detections).2) ->
  r ∈ arrays (tracked this) \/ r ∈ d_bbox <$> personDetections detections.
Proof.
  unfold arrays. intros Hr. apply list_elem_of_fmap in Hr as (t' & -> & Ht').
  rewrite update_tracked in Ht'. apply elem_of_app in Ht' as [Hs|Hc].
  - assert (Hin : t' ∈ postTracks h this detections).
    { unfold survivors in Hs. destruct (tracked this); [by apply elem_of_nil in Hs|].
      by apply list_elem_of_filter in Hs as [_ Ht']. }
    apply list_elem_of_lookup in Hin as (ti & Hti).
    destruct (postTracks_array _ _ _ _ _ Hti)
      as [(t & Ht & Hm & E1)|(di & d & Hin & Hd & E1)].
    + left. rewrite E1. apply list_elem_of_fmap_2. by eapply list_elem_of_lookup_2.
    + right. rewrite E1. apply list_elem_of_fmap_2. by eapply list_elem_of_lookup_2.
  - apply created_fresh in Hc as (d & Hd & -> & _). right. by apply list_elem_of_fmap_2.
Qed.

(** Tracks on distinct arrays coast by exactly their velocity. *)
Lemma apart_advance h this detections :
  NoDup (arrays (tracked this)) -> unmatched_advance_by_velocity h this detections.
Proof.
  intros Hnd ti t Ht Hun. cbv zeta.
  pose proof (matching_inv h this detections) as Hinv.
  assert (Hst : forall tj, tj ∉ matched (matching h this detections) ->
                  ms_tracked (matching h this detections) !! tj = tracked this !! tj).
  { intros tj Hj. apply (inv_untouched _ _ _ _ _ Hinv).
    rewrite (inv_matched _ _ _ _ _ Hinv), elem_of_list_to_set in Hj. done. }
  assert (Hstore : (update h this detections).1 = postStore h this detections).
  { rewrite update_store. destruct (tracked this); [done|reflexivity]. }
  rewrite Hstore. unfold postStore.
  assert (Hone : (ageLoop (matched (matching h this detections)) 0
                    (ms_tracked (matching h this detections)) h).2 (t_bbox t)
                 = moved (h (t_bbox t)) t).
  { apply (ageLoop_store_one _ _ 0%nat h ti t); [by rewrite (Hst _ Hun)|done|].
    intros tj t' Hne Hj Hjm E. cbn in Hjm. rewrite (Hst _ Hjm) in Hj.
    apply Hne. symmetry. eapply (tracks_apart this); [exact Hnd|exact Ht|exact Hj|congruence]. }
  split_and!.
  - rewrite postTracks_lookup, (Hst _ Hun), Ht. cbn. unfold agedTrack.
    by rewrite bool_decide_eq_false_2.
  - apply ageLoop_store_size.
  - apply ageLoop_store_size.
  - by rewrite Hone.
  - by rewrite Hone.
Qed.

Lemma frameArrays_cons f frames :
  frameArrays (f :: frames) = (d_bbox <$> personDetections f) ++ frameArrays frames.
Proof. unfold frameArrays. cbn. by rewrite fmap_app. Qed.

Lemma run_apart frames : forall h this,
  NoDup (arrays (tracked this)) ->
  NoDup (frameArrays frames) ->
  (forall r, r ∈ arrays (tracked this) -> r ∉ frameArrays frames) ->
  forall pre f post, frames = pre ++ f :: post ->
    let st := runState h this pre in
    NoDup (arrays (tracked st.2)) /\
    unmatched_advance_by_velocity st.1 st.2 f /\
    NoDup (arrays (tracked (update st.1 st.2 f).2)).
Proof.
  induction frames as [|f0 frames IH]; intros h this Hnd Hfr Hdisj pre f post E.
  - by destruct pre.
  - rewrite frameArrays_cons in Hfr, Hdisj.
    apply NoDup_app in Hfr as (Hf0 & Hcross & Hrest).
    assert (Hfresh : forall d t, d ∈ personDetections f0 -> t ∈ tracked this ->
                       d_bbox d <> t_bbox t).
    { intros d t Hd Ht Eb. apply (Hdisj (t_bbox t)).
      - by apply list_elem_of_fmap_2.
      - apply elem_of_app. left. rewrite <- Eb. by apply list_elem_of_fmap_2. }
    assert (Hap : Apart this f0) by (by split).
    destruct pre as [|f1 pre]; cbn in E.
    + injection E as <- <-.
      cbn [runState]. cbv zeta. split_and!; [done|by apply apart_advance|].
      by apply update_apart.
    + injection E as <- E. cbn [runState].
      apply (IH (update h this f0).1 (update h this f0).2) with (post := post); try done.
      * by apply update_apart.
      * intros r Hr Hr'. apply update_arrays in Hr as [Hr|Hr].
        -- apply (Hdisj r Hr). apply elem_of_app. by right.
        -- by apply (Hcross r).
Qed.

(** X8.  When no array is passed twice, neither within a call nor across
    the calls made on a new tracker, no two tracks ever refer to the same
    array, and in every call each unmatched track grows one call older with
    x and y of its array advanced by exactly its velocity. *)
Theorem fresh_arrays_make_coasting_exact
    (h : Store) (frames : list (list Detection)) :
  NoDup (frameArrays frames) ->
  forall pre f post, frames = pre ++ f :: post ->
    let st := runState h newTracker pre in
    NoDup (arrays (tracked st.2)) /\
    unmatched_advance_by_velocity st.1 st.2 f /\
    NoDup (arrays (tracked (update st.1 st.2 f).2)).
Proof.
  intros Hnd. apply run_apart; [constructor|done|].
  intros r Hr. by apply elem_of_nil in Hr.
Qed.

(** ** Calls without a person: the arrays *)

Lemma quiet_update_store h this detections :
  quiet detections ->
  (update h this detections).1 = (ageLoop ∅ 0 (tracked this) h).2.
Proof.
  unfold quiet. intros Hq. rewrite update_store.
  destruct (tracked this) as [|t0 ts] eqn:E; [done|]. rewrite <- E.
  unfold postStore, matching, sortedCosts. rewrite Hq, buildCosts_no_detection.
  reflexivity.
Qed.

Lemma arrays_older k (l : list TrackedPerson) : arrays (olderBy k <$> l) = arrays l.
Proof. unfold arrays. rewrite <- list_fmap_compose. by apply list_fmap_ext. Qed.

Lemma quiet_update_arrays h this detections :
  quiet detections ->
  sublist (arrays (tracked (update h this detections).2)) (arrays (tracked this)).
Proof.
  intros Hq. rewrite (proj1 (quiet_update h this detections Hq)), arrays_older.
  apply fmap_sublist, sublist_filter.
Qed.

(** One call without a person: an array no track refers to is left alone,
    and the array of a track that shares it with no other track is advanced
    by the velocity of that track. *)
Lemma quiet_update_moves h this detections :
  quiet detections ->
  (forall r, r ∉ arrays (tracked this) -> (update h this detections).1 r = h r) /\
  (NoDup (arrays (tracked this)) ->
   forall t, t ∈ tracked this ->
     (update h this detections).1 (t_bbox t) = moved (h (t_bbox t)) t).
Proof.
  intros Hq. rewrite (quiet_update_store _ _ _ Hq). split.
  - intros r Hr. apply ageLoop_store_other. intros k t Hk _ E. apply Hr.
    rewrite <- E. apply list_elem_of_fmap_2. by eapply list_elem_of_lookup_2.
  - intros Hnd t Ht. apply list_elem_of_lookup in Ht as (k & Hk).
    apply (ageLoop_store_one _ _ 0%nat h k t); [done|set_solver|].
    intros j t' Hne Hj _ E. apply Hne.
    eapply (tracks_apart this); [exact Hnd|exact Hj|exact Hk|exact E].
Qed.

Lemma quiet_run_moves frames : forall h this,
  Forall quiet frames ->
  (forall r, r ∉ arrays (tracked this) -> (runState h this frames).1 r = h r) /\
  (NoDup (arrays (tracked this)) ->
   forall t, t ∈ tracked this -> t_age t + Z.of_nat (length frames) < maxAge ->
     (runState h this frames).1 (t_bbox t)
     = Nat.iter (length frames) (fun b => moved b t) (h (t_bbox t))).
Proof.
  induction frames as [|f frames IH]; intros h this Hq; [done|].
  apply Forall_cons in Hq as [Hf Hq]. cbn [runState]. cbv zeta.
  destruct (IH (update h this f).1 (update h this f).2 Hq) as [IH1 IH2].
  destruct (quiet_update_moves h this f Hf) as [H1 H2].
  pose proof (quiet_update_arrays h this f Hf) as Hsub.
  split.
  - intros r Hr. rewrite IH1; [by apply H1|].
    intros Hin. apply Hr. by eapply elem_of_sublist.
  - intros Hnd t Ht Hage. cbn [length] in *.
    assert (Ht1 : olderBy 1 t ∈ tracked (update h this f).2).
    { rewrite (proj1 (quiet_update h this f Hf)). apply list_elem_of_fmap_2.
      apply list_elem_of_filter. split; [lia|done]. }
    rewrite Nat.iter_succ_r, <- (H2 Hnd t Ht).
    apply (IH2 (sublist_NoDup _ _ Hnd Hsub) (olderBy 1 t) Ht1).
    cbn [olderBy t_age]. lia.
Qed.

(** X2.  After k >= 1 consecutive calls in which no person is detected, the
    tracker holds exactly the tracks whose age was below 15 - k, in their
    order, each k older with its identity, array reference, score and
    velocity unchanged, and its counter has not moved; so a tracker whose
    ages are not negative holds nothing after 15 such calls.  In the store
    the width and height of every array are unchanged and an array no track
    refers to is unchanged; when the tracks refer to distinct arrays, the
    array of every track that remains has had the velocity of the track
    added to x and y once per call, k times in all. *)
Theorem quiet_calls_age_then_forget
    (h : Store) (this : PersonTracker) (frames : list (list Detection)) :
  Forall quiet frames -> frames <> [] ->
  let k := Z.of_nat (length frames) in
  let r := runState h this frames in
  tracked r.2 = olderBy k <$> filter (fun t => t_age t + k < 15) (tracked this) /\
  nextId r.2 = nextId this /\
  (Forall (fun t => 0 <= t_age t) (tracked this) -> 15 <= k -> tracked r.2 = []) /\
  (forall a, b_w (r.1 a) = b_w (h a) /\ b_h (r.1 a) = b_h (h a)) /\
  (forall a, a ∉ arrays (tracked this) -> r.1 a = h a) /\
  (NoDup (arrays (tracked this)) ->
   forall t, t ∈ tracked this -> t_age t + k < 15 ->
     r.1 (t_bbox t) = Nat.iter (length frames) (fun b => moved b t) (h (t_bbox t))).
Proof.
  intros Hq Hne. cbv zeta.
  destruct (quiet_run h frames this Hq Hne) as [Ht Hn]. cbv zeta in Ht.
  split_and!; [exact Ht|exact Hn| |intros a; apply runState_store_size
               |apply (quiet_run_moves frames h this Hq)
               |apply (quiet_run_moves frames h this Hq)].
  intros Hage Hk. rewrite Ht. clear Ht.
  induction (tracked this) as [|t l IHl]; [done|].
  apply Forall_cons in Hage as [H0 Hl].
  rewrite filter_cons, decide_False by (unfold maxAge; lia). by apply IHl.
Qed.

(** * More on the numbers *)

Module Rounded.
Import Num Sign IEEE.

Lemma shr_fexp_nonneg m e l :
  0 <= m -> 0 <= shr_m (fst (shr_fexp prec emax m e l)).
Proof.
  intros Hm. unfold shr_fexp, shr.
  assert (Hrec : shr_m (shr_record_of_loc m l) = m)
    by (destruct l as [|[]]; reflexivity).
  destruct (SpecFloat.fexp prec emax (Zdigits2 m + e) - e) as [|n|n];
    cbn [fst]; try (rewrite Hrec; lia).
  rewrite iter_shr_1_m by lia. rewrite Hrec.
  apply Z.div_pos; [lia|]. apply Z.pow_pos_nonneg; lia.
Qed.

Lemma round_nearest_even_nonneg m l : 0 <= m -> 0 <= round_nearest_even m l.
Proof.
  intros Hm. destruct l as [|[]]; cbn [round_nearest_even]; try lia.
  destruct (Z.even m); lia.
Qed.

(** Rounding never produces NaN and keeps the sign it is given. *)
Lemma binary_round_aux_weakly s m e l :
  0 <= m -> weakly s (binary_round_aux prec emax s m e l).
Proof.
  intros Hm. unfold binary_round_aux.
  pose proof (shr_fexp_nonneg m e l Hm) as H1.
  destruct (shr_fexp prec emax m e l) as [mrs' e'].
  cbn [fst] in H1.
  pose proof (round_nearest_even_nonneg (shr_m mrs') (loc_of_shr_record mrs') H1) as H2.
  pose proof (shr_fexp_nonneg _ e' loc_Exact H2) as H3.
  destruct (shr_fexp prec emax _ e' loc_Exact) as [mrs'' e''].
  cbn [fst] in H3.
  destruct (shr_m mrs'') as [|m2|m2]; try lia; [reflexivity|].
  destruct (e'' <=? emax - prec); reflexivity.
Qed.

(** Rounding commutes with the change of sign. *)
Lemma binary_round_aux_opp s m e l :
  binary_round_aux prec emax (negb s) m e l = SFopp (binary_round_aux prec emax s m e l).
Proof.
  unfold binary_round_aux.
  destruct (shr_fexp prec emax m e l) as [mrs' e'].
  destruct (shr_fexp prec emax _ e' loc_Exact) as [mrs'' e''].
  destruct (shr_m mrs'') as [|m2|m2]; try reflexivity.
  destruct (e'' <=? emax - prec); reflexivity.
Qed.

Lemma binary_round_opp s m e :
  binary_round prec emax (negb s) m e = SFopp (binary_round prec emax s m e).
Proof.
  unfold binary_round. destruct (shl_align _ _ _) as [mz ez].
  apply binary_round_aux_opp.
Qed.

Lemma binary_normalize_opp m e :
  binary_normalize prec emax (- m) e false =
  match m with
  | 0 => S754_zero false
  | _ => SFopp (binary_normalize prec emax m e false)
  end.
Proof.
  destruct m as [|p|p]; [reflexivity| |].
  - apply (binary_round_opp false).
  - change (binary_normalize prec emax (- Z.neg p) e false)
      with (binary_round prec emax false p e).
    change (binary_normalize prec emax (Z.neg p) e false)
      with (binary_round prec emax (negb false) p e).
    rewrite binary_round_opp.
    destruct (binary_round prec emax false p e) as [[]|[]| |[] ? ?]; reflexivity.
Qed.

Lemma SFmul_weakly x y :
  weakly false x -> weakly false y ->
  SF64mul x y = S754_nan \/ weakly false (SF64mul x y).
Proof.
  destruct x as [sx|sx| |sx mx ex], y as [sy|sy| |sy my ey]; cbn; try tauto;
    intros -> ->; cbn; auto.
  right. apply (binary_round_aux_weakly false). lia.
Qed.

Lemma SFdiv_core_nonneg m1 e1 m2 e2 :
  0 <= (SFdiv_core_binary prec emax (Zpos m1) e1 (Zpos m2) e2).1.1.
Proof.
  unfold SFdiv_core_binary.
  set (s := e1 - e2 - _).
  set (m' := match s with 0 => Z.pos m1 | Z.pos _ => Z.shiftl (Z.pos m1) s | Z.neg _ => 0 end).
  assert (Hm' : 0 <= m').
  { subst m'. destruct s; try lia. apply Z.shiftl_nonneg. lia. }
  pose proof (Z_div_mod m' (Z.pos m2) ltac:(lia)) as Hdiv.
  destruct (Z.div_eucl m' (Z.pos m2)) as [q r]. cbn [fst].
  destruct Hdiv as [Hq Hr]. nia.
Qed.

(** A quotient of two numbers that are not negative is a number that is not
    negative, unless both are zero or both infinite. *)
Lemma SFdiv_weakly x y :
  weakly false x -> weakly false y ->
  SF64div x y = S754_nan \/ weakly false (SF64div x y).
Proof.
  destruct x as [sx|sx| |sx mx ex], y as [sy|sy| |sy my ey]; cbn; try tauto;
    intros -> ->; cbn; auto.
  right. unfold SF64div, SFdiv.
  pose proof (SFdiv_core_nonneg mx ex my ey) as Hq.
  destruct (SFdiv_core_binary prec emax (Z.pos mx) ex (Z.pos my) ey) as [[mz ez] lz].
  cbn [fst] in Hq. by apply (binary_round_aux_weakly false).
Qed.

End Rounded.

Module Exponent.
Import Num Sign IEEE.

(** The exponent a right shift ends on. *)
Lemma shr_fexp_exponent m e l :
  SpecFloat.fexp prec emax (Zdigits2 m + e) <= snd (shr_fexp prec emax m e l) /\
  e <= snd (shr_fexp prec emax m e l).
Proof.
  unfold shr_fexp, shr.
  destruct (SpecFloat.fexp prec emax (Zdigits2 m + e) - e) eqn:E; cbn [snd]; lia.
Qed.

(** A rounded number is written with an exponent that is at least the one
    its number of digits asks for. *)
Lemma binary_round_aux_exponent s m e l s' mr er :
  binary_round_aux prec emax s m e l = S754_finite s' mr er ->
  SpecFloat.fexp prec emax (Zdigits2 m + e) <= er.
Proof.
  unfold binary_round_aux.
  pose proof (shr_fexp_exponent m e l) as [H1 _].
  destruct (shr_fexp prec emax m e l) as [mrs' e']. cbn [snd] in H1.
  pose proof (shr_fexp_exponent
                (round_nearest_even (shr_m mrs') (loc_of_shr_record mrs')) e' loc_Exact)
    as [_ H2].
  destruct (shr_fexp prec emax _ e' loc_Exact) as [mrs'' e'']. cbn [snd] in H2.
  destruct (shr_m mrs''); try discriminate.
  destruct (e'' <=? emax - prec); [|discriminate].
  intros [= _ _ <-]. lia.
Qed.

Lemma binary_round_exponent s m e s' mr er :
  binary_round prec emax s m e = S754_finite s' mr er ->
  Zpos (digits2_pos m) + e - prec <= er.
Proof.
  unfold binary_round.
  destruct (shl_align m e (SpecFloat.fexp prec emax (Z.pos (digits2_pos m) + e)))
    as [mz ez] eqn:E.
  intros H. apply binary_round_aux_exponent in H. cbn [Zdigits2] in H.
  assert (Hd : Zpos (digits2_pos m) + e <= Zpos (digits2_pos mz) + ez).
  { unfold shl_align in E.
    destruct (SpecFloat.fexp prec emax (Z.pos (digits2_pos m) + e) - e) as [|d|d] eqn:E';
      inversion E; subst; try lia.
    pose proof (digits2_pos_bounds m) as [Hlo _].
    pose proof (digits2_pos_bounds (Pos.iter xO m d)) as [_ Hhi].
    rewrite pos_iter_xO in Hhi.
    assert (Hp : 2 ^ (Z.pos (digits2_pos m) - 1 + Z.pos d)
                 < 2 ^ Z.pos (digits2_pos (Pos.iter xO m d))).
    { rewrite Z.pow_add_r by lia.
      assert (0 < 2 ^ Z.pos d) by (apply Z.pow_pos_nonneg; lia). nia. }
    apply Z.pow_lt_mono_r_iff in Hp; lia. }
  unfold SpecFloat.fexp in H. lia.
Qed.

End Exponent.

Module Binary64.
#[local] Open Scope float_scope.
Import Num Sign F64 JsFacts.

Lemma add_comm x y : x + y = y + x.
Proof.
  apply Prim2SF_inj. rewrite !add_spec.
  destruct (Prim2SF x) as [sx|sx| |sx mx ex], (Prim2SF y) as [sy|sy| |sy my ey];
    cbn; try reflexivity; try (by destruct sx, sy).
  unfold SF64add, SFadd.
  rewrite (Z.min_comm ey ex). f_equal. apply Z.add_comm.
Qed.

Lemma add_nan_l y : nan + y = nan.
Proof. apply Prim2SF_inj. rewrite add_spec, Prim2SF_nan. reflexivity. Qed.

Lemma add_nan_r x : x + nan = nan.
Proof. by rewrite add_comm, add_nan_l. Qed.

Lemma sub_nan_l y : nan - y = nan.
Proof. apply Prim2SF_inj. rewrite sub_spec, Prim2SF_nan. reflexivity. Qed.

Lemma div_nan_l y : nan / y = nan.
Proof. apply Prim2SF_inj. rewrite div_spec, Prim2SF_nan. reflexivity. Qed.

Lemma div_nan_r x : x / nan = nan.
Proof.
  apply Prim2SF_inj. rewrite div_spec, Prim2SF_nan. by destruct (Prim2SF x).
Qed.

Lemma sqrt_nan : sqrt nan = nan.
Proof. apply Prim2SF_inj. rewrite sqrt_spec, Prim2SF_nan. reflexivity. Qed.

Lemma ltb_nan_l x : (nan <? x) = false.
Proof. rewrite ltb_spec, Prim2SF_nan. reflexivity. Qed.

Lemma leb_nan_l x : (nan <=? x) = false.
Proof. rewrite leb_spec, Prim2SF_nan. reflexivity. Qed.

Lemma leb_nan_r x : (x <=? nan) = false.
Proof. rewrite leb_spec, Prim2SF_nan. by destruct (Prim2SF x). Qed.

(** [is_finite]: a zero or a finite number. *)
Lemma is_finite_Prim2SF x :
  is_finite x = true <->
  match Prim2SF x with S754_zero _ | S754_finite _ _ _ => True | _ => False end.
Proof.
  unfold is_finite, is_infinity.
  rewrite FloatAxioms.eqb_spec, abs_spec.
  change (Prim2SF infinity) with (S754_infinity false).
  destruct (is_nan x) eqn:Hn.
  - apply is_nan_Prim2SF in Hn. rewrite Hn. cbn. split; [discriminate|done].
  - assert (Hx : Prim2SF x <> S754_nan) by (rewrite <- is_nan_Prim2SF; congruence).
    destruct (Prim2SF x) as [s|s| |s m e]; cbn; try (split; (done || discriminate)).
Qed.

(** A finite number minus itself is +0. *)
Lemma sub_diag x : is_finite x = true -> x - x = 0.
Proof.
  rewrite is_finite_Prim2SF. intros Hx.
  apply Prim2SF_inj. rewrite sub_spec, Prim2SF_zero.
  destruct (Prim2SF x) as [s|s| |s m e]; try done.
  - by destruct s.
  - unfold SF64sub, SFsub. by rewrite Z.sub_diag.
Qed.

(** The square of a difference does not depend on the order of the
    operands. *)
Lemma sqr_sub_comm x y : Js.sqr (x - y) = Js.sqr (y - x).
Proof.
  unfold Js.sqr. apply Prim2SF_inj. rewrite !mul_spec, !sub_spec.
  destruct (Prim2SF x) as [sx|sx| |sx mx ex], (Prim2SF y) as [sy|sy| |sy my ey];
    try reflexivity; try (by destruct sx, sy); try (by destruct sx); try (by destruct sy).
  unfold SF64sub, SFsub. rewrite (Z.min_comm ey ex).
  set (a := cond_Zopp sx _). set (b := cond_Zopp sy _).
  replace (b - a)%Z with (- (a - b))%Z by lia.
  rewrite Rounded.binary_normalize_opp.
  destruct (a - b)%Z as [|p|p] eqn:E; [reflexivity| |].
  all: destruct (binary_normalize prec emax _ _ false) as [[]|[]| |[] m e]; reflexivity.
Qed.

(** ** [Math.max] and [Math.min] of two numbers *)

Lemma above_neg_infinity u :
  is_nan u = false -> (if neg_infinity <? u then u else neg_infinity) = u.
Proof.
  intros Hu. destruct (neg_infinity <? u) eqn:E; [done|].
  apply Prim2SF_inj. rewrite ltb_spec in E.
  assert (Hn : Prim2SF u <> S754_nan) by (rewrite <- is_nan_Prim2SF; congruence).
  change (Prim2SF neg_infinity) with (S754_infinity true) in *.
  destruct (Prim2SF u) as [s|[]| |s m e]; cbn in E; try done.
Qed.

Lemma below_infinity u :
  is_nan u = false -> (if u <? infinity then u else infinity) = u.
Proof.
  intros Hu. destruct (u <? infinity) eqn:E; [done|].
  apply Prim2SF_inj. rewrite ltb_spec in E.
  assert (Hn : Prim2SF u <> S754_nan) by (rewrite <- is_nan_Prim2SF; congruence).
  change (Prim2SF infinity) with (S754_infinity false) in *.
  destruct (Prim2SF u) as [[]|[]| |[] m e]; cbn in E; try done.
Qed.

Lemma Math_max_two u v :
  Js.Math_max [u; v] =
  if is_nan u then nan else if is_nan v then nan
  else let h := if Js.isPosZero v && Js.isNegZero u then v else u in
       if h <? v then v else h.
Proof.
  unfold Js.Math_max. cbn [Js.maxFrom].
  destruct (is_nan u) eqn:Hu; [done|].
  replace (Js.isNegZero neg_infinity) with false by reflexivity.
  rewrite andb_false_r, (above_neg_infinity u Hu). reflexivity.
Qed.

Lemma Math_min_two u v :
  Js.Math_min [u; v] =
  if is_nan u then nan else if is_nan v then nan
  else let l := if Js.isNegZero v && Js.isPosZero u then v else u in
       if v <? l then v else l.
Proof.
  unfold Js.Math_min. cbn [Js.minFrom].
  destruct (is_nan u) eqn:Hu; [done|].
  replace (Js.isPosZero infinity) with false by reflexivity.
  rewrite andb_false_r, (below_infinity u Hu). reflexivity.
Qed.

(** Two numbers that compare equal are the same number or two zeros. *)
Lemma compare_Eq x y :
  SFcompare (Prim2SF x) (Prim2SF y) = Some Eq ->
  x = y \/ exists s1 s2, Prim2SF x = S754_zero s1 /\ Prim2SF y = S754_zero s2.
Proof.
  intros H.
  destruct (Prim2SF x) as [sx|sx| |sx mx ex] eqn:Ex,
           (Prim2SF y) as [sy|sy| |sy my ey] eqn:Ey;
    cbn in H; try discriminate; try (by destruct sx); try (by destruct sy).
  - right. eauto.
  - left. apply Prim2SF_inj. rewrite Ex, Ey. by destruct sx, sy.
  - left. apply Prim2SF_inj. rewrite Ex, Ey.
    destruct sx, sy; try discriminate.
    all: destruct (Z.compare_spec ex ey) as [He|He|He]; try discriminate.
    all: change (Pos.compare_cont Eq mx my) with (Pos.compare mx my) in H.
    all: destruct (Pos.compare_spec mx my) as [Hm|Hm|Hm]; try discriminate.
    all: by subst.
Qed.

Lemma zero_flags x s :
  Prim2SF x = S754_zero s ->
  Js.isPosZero x = negb s /\ Js.isNegZero x = s.
Proof.
  intros E. split.
  - destruct (Js.isPosZero x) eqn:B.
    + apply classify_PZero in B. rewrite E in B. by injection B as ->.
    + destruct s; [done|]. apply classify_PZero in E. congruence.
  - destruct (Js.isNegZero x) eqn:B.
    + apply classify_NZero in B. rewrite E in B. by injection B as ->.
    + destruct s; [|done]. apply classify_NZero in E. congruence.
Qed.

Lemma not_zero_flags x :
  (forall s, Prim2SF x <> S754_zero s) ->
  Js.isPosZero x = false /\ Js.isNegZero x = false.
Proof.
  intros H. split.
  - destruct (Js.isPosZero x) eqn:B; [|done]. apply classify_PZero in B. by apply H in B.
  - destruct (Js.isNegZero x) eqn:B; [|done]. apply classify_NZero in B. by apply H in B.
Qed.

Lemma compare_cases u v :
  is_nan u = false -> is_nan v = false ->
  ((u <? v) = true /\ (v <? u) = false /\
     Js.isPosZero v && Js.isNegZero u = false /\ Js.isPosZero u && Js.isNegZero v = false /\
     Js.isNegZero v && Js.isPosZero u = false /\ Js.isNegZero u && Js.isPosZero v = false) \/
  ((v <? u) = true /\ (u <? v) = false /\
     Js.isPosZero v && Js.isNegZero u = false /\ Js.isPosZero u && Js.isNegZero v = false /\
     Js.isNegZero v && Js.isPosZero u = false /\ Js.isNegZero u && Js.isPosZero v = false) \/
  ((u <? v) = false /\ (v <? u) = false /\
     (u = v \/ exists s1 s2, Prim2SF u = S754_zero s1 /\ Prim2SF v = S754_zero s2)).
Proof.
  intros Hu Hv.
  assert (Hnz : forall a b, (a <? b) = true ->
            Js.isPosZero a && Js.isNegZero b = false /\
            Js.isPosZero b && Js.isNegZero a = false).
  { intros a b Hab. split.
    - destruct (Js.isPosZero a) eqn:B1, (Js.isNegZero b) eqn:B2; try done.
      apply classify_PZero in B1. apply classify_NZero in B2.
      rewrite ltb_spec, B1, B2 in Hab. done.
    - destruct (Js.isPosZero b) eqn:B1, (Js.isNegZero a) eqn:B2; try done.
      apply classify_PZero in B1. apply classify_NZero in B2.
      rewrite ltb_spec, B1, B2 in Hab. done. }
  destruct (u <? v) eqn:E1.
  - left. destruct (Hnz _ _ E1) as [H1 H2].
    split_and!; try done; try (by apply ltb_asym); by rewrite andb_comm.
  - destruct (v <? u) eqn:E2.
    + right; left. destruct (Hnz _ _ E2) as [H1 H2].
      split_and!; try done; by rewrite andb_comm.
    + right; right. split_and!; try done.
      apply compare_Eq.
      rewrite ltb_spec in E1. rewrite ltb_flip in E2.
      assert (Hn1 : Prim2SF u <> S754_nan) by (rewrite <- is_nan_Prim2SF; congruence).
      assert (Hn2 : Prim2SF v <> S754_nan) by (rewrite <- is_nan_Prim2SF; congruence).
      unfold SFltb in E1.
      destruct (SFcompare (Prim2SF u) (Prim2SF v)) as [[]|] eqn:Ec; try done.
      destruct (Prim2SF u), (Prim2SF v); cbn in Ec; done.
Qed.

Lemma Math_max_comm u v : Js.Math_max [u; v] = Js.Math_max [v; u].
Proof.
  rewrite !Math_max_two.
  destruct (is_nan u) eqn:Hu, (is_nan v) eqn:Hv; try reflexivity. cbv zeta.
  destruct (compare_cases u v Hu Hv)
    as [(L1 & L2 & Z1 & Z2 & _)|[(L1 & L2 & Z1 & Z2 & _)|(L1 & L2 & [->|(s1 & s2 & E1 & E2)])]].
  - by rewrite Z1, Z2, L1, L2.
  - by rewrite Z1, Z2, L1, L2.
  - by destruct (_ && _).
  - destruct (zero_flags _ _ E1) as [-> ->], (zero_flags _ _ E2) as [-> ->].
    destruct s1, s2; cbn [negb andb]; rewrite ?L1, ?L2, ?ltb_irrefl; try reflexivity.
    all: apply Prim2SF_inj; by rewrite E1, E2.
Qed.

Lemma Math_min_comm u v : Js.Math_min [u; v] = Js.Math_min [v; u].
Proof.
  rewrite !Math_min_two.
  destruct (is_nan u) eqn:Hu, (is_nan v) eqn:Hv; try reflexivity. cbv zeta.
  destruct (compare_cases u v Hu Hv)
    as [(L1 & L2 & _ & _ & Z1 & Z2)|[(L1 & L2 & _ & _ & Z1 & Z2)|(L1 & L2 & [->|(s1 & s2 & E1 & E2)])]].
  - by rewrite Z1, Z2, L1, L2.
  - by rewrite Z1, Z2, L1, L2.
  - by destruct (_ && _).
  - destruct (zero_flags _ _ E1) as [-> ->], (zero_flags _ _ E2) as [-> ->].
    destruct s1, s2; cbn [negb andb]; rewrite ?L1, ?L2, ?ltb_irrefl; try reflexivity.
    all: apply Prim2SF_inj; by rewrite E1, E2.
Qed.

End Binary64.

(** * Geometry and scores on all numbers *)

Section GeometryFacts.
#[local] Open Scope float_scope.
Import Num Sign F64 JsFacts Binary64.

(** X9.  [iou] and [centerDistance] do not depend on the order of their
    arguments, for all numbers, NaN, zeros of either sign and infinities
    included. *)
Theorem iou_and_centerDistance_symmetric (a b : Bbox) :
  iou a b = iou b a /\ centerDistance a b = centerDistance b a.
Proof.
  split.
  - unfold iou. cbv zeta.
    rewrite (Math_max_comm (b_x a) (b_x b)), (Math_max_comm (b_y a) (b_y b)).
    rewrite (Math_min_comm (b_x a + b_w a) (b_x b + b_w b)).
    rewrite (Math_min_comm (b_y a + b_h a) (b_y b + b_h b)).
    by rewrite (add_comm (b_w a * b_h a) (b_w b * b_h b)).
  - unfold centerDistance. cbv zeta.
    by rewrite (sqr_sub_comm (b_x a + b_w a / 2)), (sqr_sub_comm (b_y a + b_h a / 2)).
Qed.

Lemma weakly_leb x : weakly false (Prim2SF x) -> is_nan x = false /\ (0 <=? x) = true.
Proof.
  intros H. split.
  - destruct (is_nan x) eqn:E; [|done]. apply is_nan_Prim2SF in E. by rewrite E in H.
  - rewrite leb_spec, Prim2SF_zero.
    destruct (Prim2SF x) as [s|s| |s m e]; cbn in H; try done; by subst.
Qed.

Lemma extent_weakly lo1 hi1 lo2 hi2 :
  extent lo1 hi1 lo2 hi2 = nan \/ weakly false (Prim2SF (extent lo1 hi1 lo2 hi2)).
Proof.
  unfold extent. rewrite Math_max_zero.
  destruct (is_nan _); [by left|]. right.
  destruct (0 <? _) eqn:E; [|done].
  apply positive_signed in E. by destruct (Prim2SF _).
Qed.

Lemma interArea_weakly a b :
  interArea a b = nan \/ weakly false (Prim2SF (interArea a b)).
Proof.
  unfold interArea.
  fold (extent (b_x a) (b_x a + b_w a) (b_x b) (b_x b + b_w b)).
  fold (extent (b_y a) (b_y a + b_h a) (b_y b) (b_y b + b_h b)).
  destruct (extent_weakly (b_x a) (b_x a + b_w a) (b_x b) (b_x b + b_w b)) as [->|H1];
    [left; apply mul_nan_l|].
  destruct (extent_weakly (b_y a) (b_y a + b_h a) (b_y b) (b_y b + b_h b)) as [->|H2];
    [left; apply mul_nan_r|].
  destruct (Rounded.SFmul_weakly _ _ H1 H2) as [H|H].
  - left. apply Prim2SF_inj. by rewrite mul_spec.
  - right. by rewrite mul_spec.
Qed.

Lemma Math_max_nan_l v : Js.Math_max [nan; v] = nan.
Proof. by rewrite Math_max_two. Qed.

Lemma Math_max_nan_r u : Js.Math_max [u; nan] = nan.
Proof. rewrite Math_max_two. by destruct (is_nan u). Qed.

Lemma Math_min_nan_l v : Js.Math_min [nan; v] = nan.
Proof. by rewrite Math_min_two. Qed.

Lemma Math_min_nan_r u : Js.Math_min [u; nan] = nan.
Proof. rewrite Math_min_two. by destruct (is_nan u). Qed.

Lemma extent_nan lo1 hi1 lo2 hi2 :
  is_nan lo1 || is_nan hi1 || is_nan lo2 || is_nan hi2 = true ->
  extent lo1 hi1 lo2 hi2 = nan.
Proof.
  intros H. unfold extent.
  assert (Hd : Js.Math_min [hi1; hi2] - Js.Math_max [lo1; lo2] = nan);
    [|by rewrite Hd, Math_max_zero].
  repeat apply orb_prop in H as [H|H]; apply is_nan_eq in H; subst.
  - by rewrite Math_max_nan_l, sub_nan_r.
  - by rewrite Math_min_nan_l, sub_nan_l.
  - by rewrite Math_max_nan_r, sub_nan_r.
  - by rewrite Math_min_nan_r, sub_nan_l.
Qed.

Lemma interArea_nan a b : hasNaN a || hasNaN b = true -> interArea a b = nan.
Proof.
  intros H. unfold interArea.
  fold (extent (b_x a) (b_x a + b_w a) (b_x b) (b_x b + b_w b)).
  fold (extent (b_y a) (b_y a + b_h a) (b_y b) (b_y b + b_h b)).
  assert (Hadd : forall u v, is_nan u || is_nan v = true -> is_nan (u + v) = true).
  { intros u v Huv. apply orb_prop in Huv as [Hu|Hu]; apply is_nan_eq in Hu; subst.
    - by rewrite add_nan_l.
    - by rewrite add_nan_r. }
  assert (Hc : (is_nan (b_x a) || is_nan (b_x a + b_w a)
                || is_nan (b_x b) || is_nan (b_x b + b_w b) = true) \/
               (is_nan (b_y a) || is_nan (b_y a + b_h a)
                || is_nan (b_y b) || is_nan (b_y b + b_h b) = true)).
  { unfold hasNaN in H.
    repeat apply orb_prop in H as [H|H].
    all: first
      [ left;
        solve [ rewrite ?H, ?(Hadd (b_x a) (b_w a)), ?(Hadd (b_x b) (b_w b))
                  by (rewrite H; apply orb_true_r);
                rewrite ?orb_true_r; reflexivity ]
      | right;
        solve [ rewrite ?H, ?(Hadd (b_y a) (b_h a)), ?(Hadd (b_y b) (b_h b))
                  by (rewrite H; apply orb_true_r);
                rewrite ?orb_true_r; reflexivity ] ]. }
  destruct Hc as [Hc|Hc]; rewrite (extent_nan _ _ _ _ Hc).
  - apply mul_nan_l.
  - apply mul_nan_r.
Qed.

(** [iou] returns a number that is not negative, and never -0. *)
Lemma iou_weakly a b : weakly false (Prim2SF (iou a b)).
Proof.
  rewrite iou_unfold. destruct (0 <? unionArea a b) eqn:E; [|done].
  pose proof (positive_signed _ E) as HU.
  unfold unionArea in HU, E |- *.
  destruct (interArea_weakly a b) as [HI|HI].
  { rewrite HI, sub_nan_r, ltb_nan_r in E. discriminate. }
  rewrite sub_spec in HU. rewrite div_spec, sub_spec.
  set (I := Prim2SF (interArea a b)) in *.
  set (S := Prim2SF (b_w a * b_h a + b_w b * b_h b)) in *.
  assert (HU' : weakly false (SF64sub S I)) by (by destruct (SF64sub S I)).
  destruct (Rounded.SFdiv_weakly _ _ HI HU') as [Hn|Hw]; [|done].
  exfalso. clearbody I S. clear -HU HI Hn.
  destruct I as [si|si| |si mi ei]; cbn in HI; try done; subst si.
  - destruct (SF64sub S (S754_zero false)) as [s|s| |s m e]; cbn in *; done.
  - destruct S as [s|[]| |s m e]; cbn in *; done.
  - destruct (SF64sub S (S754_finite false mi ei)) as [s|s| |s m e] eqn:Es;
      cbn in HU; try done; subst s.
    unfold SF64div, SFdiv in Hn.
    pose proof (Rounded.SFdiv_core_nonneg mi ei m e) as Hq.
    destruct (SFdiv_core_binary prec emax (Z.pos mi) ei (Z.pos m) e) as [[mz ez] lz].
    cbn [fst] in Hq.
    pose proof (Rounded.binary_round_aux_weakly (xorb false false) mz ez lz Hq) as Hw.
    rewrite Hn in Hw. done.
Qed.

(** X10.  [iou] never returns NaN and never a negative number, whatever the
    eight numbers it is given; it returns 0 as soon as one of them is
    NaN. *)
Theorem iou_is_a_number_not_below_zero (a b : Bbox) :
  is_nan (iou a b) = false /\ (0 <=? iou a b) = true /\
  (hasNaN a || hasNaN b = true -> iou a b = 0).
Proof.
  destruct (weakly_leb _ (iou_weakly a b)) as [H1 H2].
  split_and!; [done|done|].
  intros Hnan. rewrite iou_unfold. unfold unionArea.
  by rewrite (interArea_nan a b Hnan), sub_nan_r, ltb_nan_r.
Qed.

End GeometryFacts.

(** ** NaN, and the array matched again *)

Section NaN.
#[local] Open Scope float_scope.
Import Num Sign F64 JsFacts Binary64.

Lemma center_nan x w : is_nan x || is_nan w = true -> x + w / 2 = nan.
Proof.
  intros H. apply orb_prop in H as [H|H]; apply is_nan_eq in H; subst.
  - apply add_nan_l.
  - by rewrite div_nan_l, add_nan_r.
Qed.

Lemma centerDistance_nan a b :
  hasNaN a || hasNaN b = true -> centerDistance a b = nan.
Proof.
  intros H. unfold centerDistance. cbv zeta. unfold Js.Math_sqrt.
  assert (Hs : Js.sqr (b_x a + b_w a / 2 - (b_x b + b_w b / 2))
               + Js.sqr (b_y a + b_h a / 2 - (b_y b + b_h b / 2)) = nan);
    [|by rewrite Hs, sqrt_nan].
  unfold Js.sqr, hasNaN in *.
  repeat apply orb_prop in H as [H|H].
  all: first
    [ rewrite (center_nan (b_x a) (b_w a)) by (rewrite H, ?orb_true_r; reflexivity);
      by rewrite sub_nan_l, mul_nan_l, add_nan_l
    | rewrite (center_nan (b_y a) (b_h a)) by (rewrite H, ?orb_true_r; reflexivity);
      by rewrite sub_nan_l, mul_nan_l, add_nan_r
    | rewrite (center_nan (b_x b) (b_w b)) by (rewrite H, ?orb_true_r; reflexivity);
      by rewrite sub_nan_r, mul_nan_l, add_nan_l
    | rewrite (center_nan (b_y b) (b_h b)) by (rewrite H, ?orb_true_r; reflexivity);
      by rewrite sub_nan_r, mul_nan_l, add_nan_r ].
Qed.

Lemma combinedScore_nan P D :
  hasNaN P || hasNaN D = true -> combinedScore P D = nan.
Proof.
  intros H. unfold combinedScore. cbv zeta.
  rewrite (centerDistance_nan P D H), div_nan_l, sub_nan_r, Math_max_zero.
  cbn [is_nan]. replace (is_nan nan) with true by reflexivity.
  by rewrite mul_nan_l, add_nan_r.
Qed.

(** X11.  When one of the numbers of the predicted rectangle or of the
    rectangle of the detection is NaN, [centerDistance] and the combined
    score are NaN; so a track whose array or velocity holds a NaN is never
    matched: [update] returns it one call older, until it is evicted; and a
    person detection whose array holds a NaN is never matched either: the
    list [update] returns holds a new track made of it, with an identity
    taken from the counter. *)
Theorem nan_rectangles_never_match
    (h : Store) (this : PersonTracker) (detections : list Detection) :
  let st := matching h this detections in
  let r := update h this detections in
  (forall P D, hasNaN P || hasNaN D = true ->
     centerDistance P D = nan /\ combinedScore P D = nan) /\
  (forall ti t,
     tracked this !! ti = Some t -> hasNaN (predictedBox h t) = true ->
     (ti ∉ matched st) /\
     ((t_age t + 1 < maxAge)%Z -> older t ∈ tracked r.2)) /\
  (forall di d,
     personDetections detections !! di = Some d -> hasNaN (h (d_bbox d)) = true ->
     (di ∉ matchedDetections st) /\
     exists n, (nextId this <= n < nextId r.2)%Z /\ newTrack n d ∈ tracked r.2).
Proof.
  cbv zeta.
  assert (Hno : forall ti di t d,
            tracked this !! ti = Some t ->
            personDetections detections !! di = Some d ->
            hasNaN (predictedBox h t) || hasNaN (h (d_bbox d)) = true ->
            (ti, di) ∉ matches h this detections).
  { intros ti di t d Ht Hd Hnan Hin.
    apply matches_retained in Hin as (c & Hc & <- & <- & Hs).
    apply elem_of_buildCosts in Hc as (t' & d' & Ht' & Hd' & Hsc & _).
    assert (t' = t) as -> by congruence. assert (d' = d) as -> by congruence.
    rewrite Hsc, (combinedScore_nan _ _ Hnan), ltb_nan_r in Hs. discriminate. }
  split_and!.
  - intros P D H. split; [by apply centerDistance_nan|by apply combinedScore_nan].
  - intros ti t Ht Hnan.
    assert (Hti : ti ∉ matched (matching h this detections)).
    { intros Hm. apply elem_of_matched in Hm as (di & Hin).
      destruct (matches_lookup _ _ _ _ _ Hin) as (t' & d & Ht' & Hd & _).
      eapply Hno; [exact Ht|exact Hd| |exact Hin]. by rewrite Hnan. }
    split; [exact Hti|]. intros Hage.
    apply (returned_unmatched _ _ _ ti); [done| |done]. by rewrite elem_of_matches_1.
  - intros di d Hd Hnan.
    assert (Hdi : di ∉ matchedDetections (matching h this detections)).
    { intros Hm. apply elem_of_matchedDetections in Hm as (ti & Hin).
      destruct (matches_lookup _ _ _ _ _ Hin) as (t & d' & Ht & Hd' & _).
      eapply Hno; [exact Ht|exact Hd| |exact Hin]. rewrite Hnan. apply orb_true_r. }
    split; [exact Hdi|].
    apply (returned_spawned _ _ _ di); [done|]. by rewrite elem_of_matches_2.
Qed.

(** X12.  A track matched with a detection that comes with the very array
    the track refers to, as happens when the caller passes the same
    detections to consecutive calls, ends the call with velocity (0, 0),
    provided x and y in that array are finite. *)
Theorem rematch_with_own_array_stops_the_track
    (h : Store) (this : PersonTracker) (detections : list Detection)
    (ti di : nat) (track : TrackedPerson) (det : Detection) :
  (ti, di) ∈ matches h this detections ->
  tracked this !! ti = Some track ->
  personDetections detections !! di = Some det ->
  d_bbox det = t_bbox track ->
  is_finite (b_x (h (t_bbox track))) = true ->
  is_finite (b_y (h (t_bbox track))) = true ->
  let post := {| t_id := t_id track; t_bbox := t_bbox track; t_score := d_score det;
                 t_age := 0; t_velocity := (0, 0) |} in
  postTracks h this detections !! ti = Some post /\
  post ∈ tracked (update h this detections).2.
Proof.
  intros Hin Ht Hd Hb Hx Hy. cbv zeta.
  destruct (matches_lookup _ _ _ _ _ Hin) as (t' & d' & Ht' & Hd' & _ & Hp & Hs).
  assert (t' = track) as -> by congruence. assert (d' = det) as -> by congruence.
  assert (E : applyMatch h track det =
              {| t_id := t_id track; t_bbox := t_bbox track; t_score := d_score det;
                 t_age := 0; t_velocity := (0, 0) |}).
  { unfold applyMatch. rewrite Hb, !sub_diag by done. reflexivity. }
  rewrite <- E. split; [done|].
  rewrite update_tracked. apply elem_of_app. by left.
Qed.

End NaN.

(** ** A canvas without size *)

Section DegenerateCanvas.
#[local] Open Scope float_scope.
Import Num Sign F64 JsFacts Binary64.

Lemma div_zero_not_finite a c : (c =? 0) = true -> is_finite (a / c) = false.
Proof.
  intros Hc. destruct (is_finite (a / c)) eqn:E; [|done]. exfalso.
  apply is_finite_Prim2SF in E. rewrite div_spec in E.
  rewrite FloatAxioms.eqb_spec, Prim2SF_zero in Hc. unfold SFeqb in Hc.
  destruct (Prim2SF c) as [s|s| |s m e]; cbn in Hc; try done;
    try (by destruct s).
  by destruct (Prim2SF a).
Qed.

Lemma mul_not_finite x s : is_finite s = false -> is_finite (x * s) = false.
Proof.
  intros Hs. destruct (is_finite (x * s)) eqn:E; [|done]. exfalso.
  apply is_finite_Prim2SF in E. rewrite mul_spec in E.
  assert (Hs' : ~ match Prim2SF s with
                  | S754_zero _ | S754_finite _ _ _ => True
                  | _ => False
                  end).
  { intros H. apply is_finite_Prim2SF in H. congruence. }
  destruct (Prim2SF s) as [ss|ss| |ss ms es]; try (by apply Hs');
    by destruct (Prim2SF x).
Qed.

(** A point with a coordinate that is not finite is in no finite interval. *)
Lemma outside_finite lo hi v :
  is_finite lo = true -> is_finite hi = true -> is_finite v = false ->
  (lo <=? v) && (v <=? hi) = false.
Proof.
  rewrite !is_finite_Prim2SF. intros Hlo Hhi Hv.
  assert (Hv' : ~ match Prim2SF v with
                  | S754_zero _ | S754_finite _ _ _ => True
                  | _ => False
                  end).
  { intros H. apply is_finite_Prim2SF in H. congruence. }
  rewrite !leb_spec. unfold SFleb.
  destruct (Prim2SF v) as [sv|[]| |sv mv ev]; try (by exfalso; apply Hv').
  - destruct (Prim2SF lo) as [s|s| |[] m e]; try done.
  - destruct (Prim2SF hi) as [s|s| |[] m e]; try done; apply andb_false_r.
  - by destruct (Prim2SF lo).
Qed.

Lemma containsPoint_outside b vx vy :
  finiteBox b = true -> is_finite vx = false \/ is_finite vy = false ->
  containsPoint b vx vy = false.
Proof.
  unfold finiteBox, containsPoint. rewrite !andb_true_iff.
  intros [[[Hx Hy] Hxw] Hyh] [Hv|Hv].
  - by rewrite (outside_finite _ _ _ Hx Hxw Hv).
  - rewrite <- andb_assoc, (outside_finite _ _ _ Hy Hyh Hv). apply andb_false_r.
Qed.

(** X13.  [findPersonAtPoint] finds nobody when the canvas has no width or
    no height and the rectangles of the tracks have finite edges (the
    division by zero sends the point to infinity or to NaN), and when one of
    its six numbers is NaN. *)
Theorem findPersonAtPoint_needs_a_canvas
    (h : Store) (persons : list TrackedPerson)
    (x y canvasWidth canvasHeight videoWidth videoHeight : float) :
  (((canvasWidth =? 0) = true \/ (canvasHeight =? 0) = true) /\
   Forall (fun p => finiteBox (h (t_bbox p)) = true) persons) \/
  is_nan x || is_nan y || is_nan canvasWidth || is_nan canvasHeight
  || is_nan videoWidth || is_nan videoHeight = true ->
  findPersonAtPoint h persons x y canvasWidth canvasHeight videoWidth videoHeight = None.
Proof.
  unfold findPersonAtPoint. cbv zeta. intros [[Hc Hfin]|Hnan].
  - apply scanPersons_None. intros q Hq.
    eapply Forall_forall in Hfin; [|exact Hq].
    apply containsPoint_outside; [done|].
    destruct Hc as [Hc|Hc]; [left|right]; by apply mul_not_finite, div_zero_not_finite.
  - apply scanPersons_None. intros q _.
    unfold containsPoint.
    assert (Hv : x * (videoWidth / canvasWidth) = nan \/
                 y * (videoHeight / canvasHeight) = nan).
    { repeat apply orb_prop in Hnan as [Hnan|Hnan]; apply is_nan_eq in Hnan; subst;
        rewrite ?div_nan_l, ?div_nan_r, ?mul_nan_l, ?mul_nan_r; auto. }
    destruct Hv as [-> | ->]; rewrite ?leb_nan_r, ?leb_nan_l, ?andb_false_r; reflexivity.
Qed.

End DegenerateCanvas.

(** ** Pairs too far apart, pairs on the same center *)

Section Gating.
#[local] Open Scope float_scope.
Import Num Sign F64 JsFacts Binary64.

Lemma binary_round_weakly s m e : weakly s (binary_round prec emax s m e).
Proof.
  unfold binary_round. destruct (shl_align _ _ _) as [mz ez].
  apply Rounded.binary_round_aux_weakly. lia.
Qed.

(** A finite number minus a number is a number. *)
Lemma sub_is_number x y :
  is_finite x = true -> is_nan y = false -> is_nan (x - y) = false.
Proof.
  rewrite is_finite_Prim2SF. intros Hx Hy.
  assert (Hn : Prim2SF y <> S754_nan) by (rewrite <- is_nan_Prim2SF; congruence).
  destruct (is_nan (x - y)) eqn:E; [|done]. exfalso.
  apply is_nan_Prim2SF in E. rewrite sub_spec in E.
  destruct (Prim2SF x) as [sx|sx| |sx mx ex], (Prim2SF y) as [sy|sy| |sy my ey];
    try done; try (by destruct sx, sy).
  unfold SF64sub, SFsub in E.
  destruct (cond_Zopp sx _ - cond_Zopp sy _)%Z as [|p|p]; cbn [binary_normalize] in E;
    try done.
  - pose proof (binary_round_weakly false p (Z.min ex ey)) as Hw. by rewrite E in Hw.
  - pose proof (binary_round_weakly true p (Z.min ex ey)) as Hw. by rewrite E in Hw.
Qed.

Lemma far_score P D :
  disjointBoxes P D ->
  (1 <=? centerDistance P D / (Js.Math_max [b_w P; b_h P; 100] * 2)) = true ->
  combinedScore P D = 0.
Proof.
  intros Hd Hfar. unfold combinedScore. cbv zeta.
  rewrite (iou_disjoint _ _ Hd).
  set (q := centerDistance P D / _) in *.
  rewrite Math_max_zero.
  apply leb_le in Hfar. destruct (le_not_nan _ _ Hfar) as [_ Hq].
  rewrite (sub_is_number 1 q) by done.
  rewrite zero_ltb_sub, (le_not_ltb _ _ Hfar). reflexivity.
Qed.

(** X14.  A track and a person detection whose rectangles do not overlap
    and whose centers are at least 2 * max(width, height, 100) apart (of the
    predicted rectangle) have combined score 0 and are never matched. *)
Theorem far_apart_rectangles_never_match
    (h : Store) (this : PersonTracker) (detections : list Detection)
    (ti di : nat) (t : TrackedPerson) (d : Detection) :
  tracked this !! ti = Some t ->
  personDetections detections !! di = Some d ->
  let P := predictedBox h t in
  let D := h (d_bbox d) in
  disjointBoxes P D ->
  (1 <=? centerDistance P D / (Js.Math_max [b_w P; b_h P; 100] * 2)) = true ->
  combinedScore P D = 0 /\ (ti, di) ∉ matches h this detections.
Proof.
  intros Ht Hd P D Hdis Hfar. split; [by apply far_score|].
  intros Hin.
  apply matches_retained in Hin as (c & Hc & <- & <- & Hs).
  apply elem_of_buildCosts in Hc as (t' & d' & Ht' & Hd' & Hsc & _).
  assert (t' = t) as -> by congruence. assert (d' = d) as -> by congruence.
  rewrite Hsc in Hs. fold P D in Hs. rewrite (far_score P D Hdis Hfar) in Hs.
  discriminate.
Qed.

End Gating.

Section SameCenter.
#[local] Open Scope float_scope.
Import Num Sign F64 JsFacts Binary64.

(** Adding 0.4 to a number that is not negative gives more than 0.1. *)
Lemma add_04_above z : weakly false (Prim2SF z) -> (0.1 <? z + 0.4) = true.
Proof.
  intros Hz. rewrite ltb_spec, add_spec.
  change (Prim2SF 0.1) with (S754_finite false 7205759403792794 (-56)).
  change (Prim2SF 0.4) with (S754_finite false 7205759403792794 (-54)).
  pose proof (Prim2SF_valid z) as V.
  destruct (Prim2SF z) as [s|s| |s m e]; cbn in Hz; try done; subst s;
    try reflexivity.
  apply IEEE.valid_finite in V as (He & _).
  unfold SF64add, SFadd. cbn [cond_Zopp].
  set (ez := Z.min e (-54)).
  set (a := fst (shl_align m e ez)).
  set (b := fst (shl_align 7205759403792794 (-54) ez)).
  change (Z.pos a + Z.pos b)%Z with (Z.pos (a + b)).
  cbn [binary_normalize].
  assert (Hez : (IEEE.emin <= ez)%Z) by (subst ez; unfold SpecFloat.emin, prec, emax in *; lia).
  pose proof (IEEE.binary_round_signed false (a + b) ez Hez) as Hs.
  destruct (binary_round prec emax false (a + b) ez) as [s|s| |s mr er] eqn:Er;
    cbn in Hs; try done; subst s; [reflexivity|].
  apply Exponent.binary_round_exponent in Er.
  assert (Hb : (Z.pos b = 7205759403792794 * 2 ^ (-54 - ez))%Z)
    by (subst b; apply IEEE.shl_align_val; subst ez; lia).
  pose proof (IEEE.digits2_pos_bounds (a + b)) as [_ Hhi].
  assert (Hp : (2 ^ (52 + (-54 - ez)) < 2 ^ Z.pos (digits2_pos (a + b)))%Z).
  { rewrite Z.pow_add_r by (subst ez; lia).
    assert (0 < 2 ^ (-54 - ez))%Z by (apply Z.pow_pos_nonneg; subst ez; lia).
    assert (2 ^ 52 <= 7205759403792794)%Z by (vm_compute; discriminate).
    rewrite Pos2Z.inj_add in Hhi. nia. }
  apply Z.pow_lt_mono_r_iff in Hp; [|lia|lia].
  assert (Hlt : (-56 < er)%Z) by (unfold prec in Er; lia).
  unfold SFltb. cbn [SFcompare].
  apply Z.compare_lt_iff in Hlt. by rewrite Hlt.
Qed.

Lemma mul_06_weakly y : weakly false (Prim2SF y) -> weakly false (Prim2SF (y * 0.6)).
Proof.
  intros Hy. rewrite mul_spec.
  change (Prim2SF 0.6) with (S754_finite false 5404319552844595 (-53)).
  destruct (Prim2SF y) as [s|s| |s m e]; cbn in Hy; try done; subst s; try reflexivity.
  unfold SF64mul, SFmul. apply (Rounded.binary_round_aux_weakly false). lia.
Qed.

(** [Math.max(w, h, 100) * 2] is above 0 as soon as [w] and [h] are
    numbers. *)
Lemma maxDim_positive w h :
  is_nan w = false -> is_nan h = false ->
  (0 <? Js.Math_max [w; h; 100] * 2) = true.
Proof.
  intros Hw Hh.
  assert (E : Js.Math_max [w; h; 100] =
              if Js.Math_max [w; h] <? 100 then 100 else Js.Math_max [w; h]).
  { rewrite Math_max_two, Hw, Hh. cbv zeta.
    unfold Js.Math_max. cbn [Js.maxFrom]. rewrite Hw, Hh.
    replace (Js.isNegZero neg_infinity) with false by reflexivity.
    rewrite andb_false_r, (above_neg_infinity w Hw).
    replace (is_nan 100) with false by reflexivity.
    replace (Js.isPosZero 100) with false by reflexivity.
    cbn [andb]. reflexivity. }
  rewrite E.
  assert (Hm : is_nan (Js.Math_max [w; h]) = false).
  { rewrite Math_max_two, Hw, Hh. cbv zeta.
    destruct (Js.isPosZero h && Js.isNegZero w); destruct (_ <? h); done. }
  destruct (Js.Math_max [w; h] <? 100) eqn:L; [reflexivity|].
  assert (Hle : le 100 (Js.Math_max [w; h])) by (apply not_ltb_le; [exact Hm|reflexivity|exact L]).
  pose proof (Prim2SF_valid (Js.Math_max [w; h])) as V.
  rewrite ltb_spec, mul_spec, Prim2SF_zero.
  unfold le, SFle in Hle.
  change (Prim2SF 100) with (S754_finite false 7036874417766400 (-46)) in Hle.
  change (Prim2SF 2) with (S754_finite false 4503599627370496 (-51)).
  destruct (Prim2SF (Js.Math_max [w; h])) as [s|s| |s m e]; cbn [SFcompare] in Hle;
    try done.
  - by destruct s.
  - destruct s; [done|].
    assert (He : (-46 <= e)%Z).
    { destruct (Z.compare_spec (-46) e); by try lia. }
    unfold SF64mul, SFmul. cbn [xorb].
    apply (IEEE.SFltb_signed_zero false).
    apply IEEE.binary_round_aux_signed. unfold SpecFloat.emin, prec, emax. lia.
Qed.

Lemma same_center_score P D :
  centerDistance P D = 0 ->
  is_nan (b_w P) = false -> is_nan (b_h P) = false ->
  combinedScore P D = iou P D * 0.6 + 0.4 /\ (0.1 <? combinedScore P D) = true.
Proof.
  intros Hd Hw Hh.
  assert (E : combinedScore P D = iou P D * 0.6 + 0.4).
  { unfold combinedScore. cbv zeta.
    rewrite Hd, (zero_div_positive _ (maxDim_positive _ _ Hw Hh)). reflexivity. }
  split; [exact E|]. rewrite E.
  apply add_04_above, mul_06_weakly, iou_weakly.
Qed.

(** X15.  A track and a person detection whose centers coincide (the
    predicted rectangle against the rectangle of the detection, as when a
    motionless track meets the array it refers to), the predicted width and
    height being numbers, always form a candidate: their combined score is
    iou * 0.6 + 0.4, which is above 0.1; so the call matches the track or
    the detection, and when the track and the detection are the only ones it
    matches them with each other. *)
Theorem same_center_pair_is_a_candidate
    (h : Store) (this : PersonTracker) (detections : list Detection)
    (ti di : nat) (t : TrackedPerson) (d : Detection) :
  tracked this !! ti = Some t ->
  personDetections detections !! di = Some d ->
  let P := predictedBox h t in
  let D := h (d_bbox d) in
  centerDistance P D = 0 ->
  is_nan (b_w P) = false -> is_nan (b_h P) = false ->
  combinedScore P D = iou P D * 0.6 + 0.4 /\
  (0.1 <? combinedScore P D) = true /\
  mkCost ti di (combinedScore P D)
    ∈ buildCosts h (tracked this) (personDetections detections) /\
  (ti ∈ matched (matching h this detections) \/
   di ∈ matchedDetections (matching h this detections)) /\
  (length (tracked this) = 1%nat -> length (personDetections detections) = 1%nat ->
   matches h this detections = [(0, 0)]%nat).
Proof.
  intros Ht Hd P D Hdist Hw Hh.
  destruct (same_center_score P D Hdist Hw Hh) as [E Hs].
  assert (Hc : mkCost ti di (combinedScore P D)
               ∈ buildCosts h (tracked this) (personDetections detections)).
  { apply elem_of_buildCosts. exists t, d. split_and!; done. }
  split_and!; try done.
  - apply (candidate_matched h this detections _ Hc).
  - intros L1 L2. unfold matches, sortedCosts.
    destruct (tracked this) as [|t0 [|]] eqn:Et; try discriminate.
    destruct (personDetections detections) as [|d0 [|]] eqn:Ed; try discriminate.
    destruct ti; [|done]. destruct di; [|done].
    cbn in Ht, Hd. injection Ht as ->. injection Hd as ->.
    unfold buildCosts. cbn [costsOuter costsInner].
    fold P D. rewrite Hs. reflexivity.
Qed.

End SameCenter.

(** * The renderer and the component *)

(** ** The renderer *)

Section RendererFacts.
#[local] Open Scope float_scope.

Lemma findById_Some persons sel p :
  findById persons sel = Some p <->
  exists i, persons !! i = Some p /\ t_id p = sel /\
            forall j q, (j < i)%nat -> persons !! j = Some q -> t_id q <> sel.
Proof.
  induction persons as [|q0 persons IH]; cbn [findById].
  - split; [done|]. by intros (i & Hi & _).
  - destruct (Z.eqb_spec (t_id q0) sel) as [E|E].
    + split.
      * intros [= <-]. exists 0%nat. split_and!; try done. intros j q Hj. lia.
      * intros ([|i] & Hi & Hid & Hb).
        -- cbn in Hi. congruence.
        -- exfalso. apply (Hb 0%nat q0); [lia|done|done].
    + rewrite IH. split.
      * intros (i & Hi & Hid & Hb). exists (S i). split_and!; try done.
        intros [|j] q Hj Hq; cbn in Hq.
        -- by injection Hq as <-.
        -- apply (Hb j); [lia|done].
      * intros ([|i] & Hi & Hid & Hb).
        -- cbn in Hi. injection Hi as ->. done.
        -- exists i. split_and!; try done.
           intros j q Hj Hq. apply (Hb (S j)); [lia|done].
Qed.

Lemma findById_None persons sel :
  findById persons sel = None <-> sel ∉ ids persons.
Proof.
  induction persons as [|q0 persons IH]; cbn [findById].
  - split; [|done]. intros _ H. by apply elem_of_nil in H.
  - unfold ids in *. rewrite fmap_cons, not_elem_of_cons.
    destruct (Z.eqb_spec (t_id q0) sel) as [E|E].
    + split; [done|]. intros [H _]. congruence.
    + rewrite IH. split; [intros H; split; [congruence|done]|tauto].
Qed.

Lemma findById_unique persons p :
  NoDup (ids persons) -> p ∈ persons -> findById persons (t_id p) = Some p.
Proof.
  intros Hnd Hp. destruct (findById persons (t_id p)) as [q|] eqn:E.
  - apply findById_Some in E as (i & Hi & Hid & _).
    f_equal. eapply (NoDup_fmap_eq t_id); [exact Hnd| |done|done].
    by eapply list_elem_of_lookup_2.
  - apply findById_None in E. exfalso. apply E. by apply list_elem_of_fmap_2.
Qed.

(** X16.  [renderWithSelectiveBlur] leaves the filter, the clipping region
    and the stack of saved states of the context as it found them, whatever
    its arguments; when the video has no width or no height it makes no call
    at all. *)
Theorem render_leaves_the_context_as_found
    (c : Canvas) (h : Store) (W H VW VH : float) (persons : list TrackedPerson)
    (selectedPersonId : option Z) (blurAmount : option float) :
  let c' := canvasCalls c
              (renderWithSelectiveBlur h W H VW VH persons selectedPersonId blurAmount) in
  cv_state c' = cv_state c /\ cv_stack c' = cv_stack c /\
  (falsy VW || falsy VH = true -> c' = c).
Proof.
  cbv zeta. unfold renderWithSelectiveBlur. cbv zeta.
  destruct (falsy VW || falsy VH); [done|].
  destruct selectedPersonId as [sel|]; [|done].
  destruct (findById persons sel); done.
Qed.

(** X17.  When the video has a width and a height, [renderWithSelectiveBlur]
    paints the whole canvas through the blur filter and then, only if a
    person of the list has the selected identity, paints it once more
    without filter and clipped to the rectangle of the first such person,
    scaled by canvas size over video size; it paints nothing else.  A
    selected identity that is not in the list (an evicted track) leaves the
    frame blurred; when the identities of the list are distinct the person
    found is the one of that identity. *)
Theorem render_blurs_all_but_the_selected_rectangle
    (c : Canvas) (h : Store) (W H VW VH : float) (persons : list TrackedPerson)
    (selectedPersonId : option Z) (blurAmount : option float) :
  let calls := renderWithSelectiveBlur h W H VW VH persons selectedPersonId blurAmount in
  let blurred :=
    {| pt_state := {| ds_filter := filterBlur (default 15 blurAmount);
                      ds_clip := ds_clip (cv_state c) |};
       pt_dest := mkBbox 0 0 W H |} in
  let sharp (p : TrackedPerson) :=
    {| pt_state :=
         {| ds_filter := filterNone;
            ds_clip :=
              [mkBbox (b_x (h (t_bbox p)) * (W / VW)) (b_y (h (t_bbox p)) * (H / VH))
                      (b_w (h (t_bbox p)) * (W / VW)) (b_h (h (t_bbox p)) * (H / VH))]
              :: ds_clip (cv_state c) |};
       pt_dest := mkBbox 0 0 W H |} in
  (falsy VW || falsy VH = true -> calls = []) /\
  (falsy VW || falsy VH = false ->
   match selectedPersonId ≫= findById persons with
   | None => cv_painted (canvasCalls c calls) = cv_painted c ++ [blurred]
   | Some p => cv_painted (canvasCalls c calls) = cv_painted c ++ [blurred; sharp p]
   end) /\
  (forall sel p,
     findById persons sel = Some p <->
     exists i, persons !! i = Some p /\ t_id p = sel /\
               forall j q, (j < i)%nat -> persons !! j = Some q -> t_id q <> sel) /\
  (forall sel, findById persons sel = None <-> sel ∉ ids persons) /\
  (NoDup (ids persons) -> forall p, p ∈ persons -> findById persons (t_id p) = Some p).
Proof.
  cbv zeta. split_and!.
  - unfold renderWithSelectiveBlur. cbv zeta. by intros ->.
  - unfold renderWithSelectiveBlur. cbv zeta. intros ->.
    destruct selectedPersonId as [sel|]; cbn [mbind option_bind]; [|done].
    destruct (findById persons sel); [|done].
    unfold canvasCalls.
    cbn [app foldl canvasCall cv_state cv_path cv_stack cv_painted ds_filter ds_clip].
    by rewrite <- app_assoc.
  - apply findById_Some.
  - apply findById_None.
  - intros Hnd p Hp. by apply findById_unique.
Qed.

End RendererFacts.

(** ** The click handler *)

Section ClickFacts.
#[local] Open Scope float_scope.

Lemma scanPersons_elem h persons vx vy p :
  scanPersons h persons vx vy = Some p ->
  p ∈ persons /\ containsPoint (h (t_bbox p)) vx vy = true.
Proof.
  intros H. apply scanPersons_Some in H as (i & Hi & Hc & _).
  split; [by eapply list_elem_of_lookup_2|done].
Qed.

(** X18.  A click selects the identity of the first tracked person whose
    rectangle contains the clicked point (mapped to the canvas, then to the
    video), unless that identity was the selection already, in which case it
    clears the selection; a click on no rectangle clears it; so the selection
    after a click is nothing or a tracked identity, a second identical click
    undoes the first one when nothing was selected, and a click with no
    canvas or video leaves the selection alone. *)
Theorem click_toggles_the_person_under_the_pointer
    (h : Store) (tracker : PersonTracker) (view : View) (e : Click)
    (prev : option Z) :
  let vx := (clientX e - rect_left e) * (canvas_width view / rect_width e)
            * (videoWidth view / canvas_width view) in
  let vy := (clientY e - rect_top e) * (canvas_height view / rect_height e)
            * (videoHeight view / canvas_height view) in
  let under := scanPersons h (tracked tracker) vx vy in
  let click := handleCanvasClick h tracker (Some view) e in
  (forall i, click prev = Some i ->
     prev <> Some i /\
     exists p, under = Some p /\ p ∈ tracked tracker /\ t_id p = i /\
               containsPoint (h (t_bbox p)) vx vy = true) /\
  (under = None -> click prev = None) /\
  (forall p, under = Some p -> prev = Some (t_id p) -> click prev = None) /\
  (forall p, under = Some p -> prev <> Some (t_id p) -> click prev = Some (t_id p)) /\
  click (click None) = None /\
  click (click (click prev)) = click prev /\
  handleCanvasClick h tracker None e prev = prev.
Proof.
  cbv zeta. unfold handleCanvasClick, findPersonAtPoint, getTracked. cbv zeta.
  set (under := scanPersons h (tracked tracker) _ _).
  split_and!.
  - intros i Hi. destruct under as [p|] eqn:E; [|done].
    destruct (decide (prev = Some (t_id p))) as [Hp|Hp]; [done|].
    injection Hi as <-. split; [done|].
    destruct (scanPersons_elem _ _ _ _ _ E) as [Hin Hc]. by exists p.
  - by intros ->.
  - intros p -> ->. by rewrite decide_True.
  - intros p -> Hp. by rewrite decide_False.
  - destruct under as [p|]; [|done].
    repeat case_decide; congruence.
  - destruct under as [p|]; [|done].
    repeat case_decide; congruence.
  - reflexivity.
Qed.

(** X19.  On a tracker whose identities increase and are below its counter,
    the person a click selects is the person the renderer leaves sharp: the
    clipping rectangle of the sharp paint is the rectangle of the clicked
    track. *)
Theorem clicked_person_is_the_one_drawn_sharp
    (h : Store) (tracker : PersonTracker) (view : View) (e : Click)
    (prev : option Z) (i : Z) (blurAmount : float) :
  wf tracker ->
  handleCanvasClick h tracker (Some view) e prev = Some i ->
  falsy (videoWidth view) || falsy (videoHeight view) = false ->
  let W := canvas_width view in
  let H := canvas_height view in
  let VW := videoWidth view in
  let VH := videoHeight view in
  exists p,
    findPersonAtPoint h (getTracked tracker)
      ((clientX e - rect_left e) * (W / rect_width e))
      ((clientY e - rect_top e) * (H / rect_height e)) W H VW VH = Some p /\
    t_id p = i /\
    renderWithSelectiveBlur h W H VW VH (tracked tracker) (Some i) (Some blurAmount) =
      [save; setFilter (filterBlur blurAmount); drawImage 0 0 W H; restore;
       save; beginPath;
       rect (b_x (h (t_bbox p)) * (W / VW)) (b_y (h (t_bbox p)) * (H / VH))
            (b_w (h (t_bbox p)) * (W / VW)) (b_h (h (t_bbox p)) * (H / VH));
       clip; setFilter filterNone; drawImage 0 0 W H; restore].
Proof.
  intros Hwf Hclick Hv. cbv zeta. unfold handleCanvasClick in Hclick. cbv zeta in Hclick.
  destruct (findPersonAtPoint _ _ _ _ _ _ _ _) as [p|] eqn:E; [|done].
  destruct (decide (prev = Some (t_id p))); [done|]. injection Hclick as <-.
  exists p. split_and!; try done.
  unfold findPersonAtPoint, getTracked in E.
  apply scanPersons_elem in E as [Hin _].
  unfold renderWithSelectiveBlur. cbv zeta. rewrite Hv.
  by rewrite (findById_unique _ _ (wf_NoDup _ Hwf) Hin).
Qed.

End ClickFacts.

(** ** The loop *)

Lemma toDetections_persons predictions :
  Forall isPerson (toDetections predictions).
Proof.
  unfold toDetections. apply Forall_forall. intros d Hd.
  apply elem_of_lookup_imap in Hd as (i & p & -> & Hp).
  apply list_elem_of_lookup_2, list_elem_of_filter in Hp as [Hp _].
  exact Hp.
Qed.

Lemma imap_ids {A} (f : A -> ref) (g : A -> float) (c : A -> string) (l : list A) :
  forall k,
  d_id <$> imap (fun i p => {| d_id := Z.of_nat (k + i); d_bbox := f p;
                               d_score := g p; d_class := c p |}) l
  = seqZ (Z.of_nat k) (Z.of_nat (length l)).
Proof.
  induction l as [|x l IH]; intros k; [done|].
  rewrite imap_cons, fmap_cons. cbn [d_id length].
  rewrite Nat2Z.inj_succ, (seqZ_cons (Z.of_nat k)) by lia.
  rewrite Nat.add_0_r. f_equal.
  replace (Z.succ (Z.of_nat k)) with (Z.of_nat (S k)) by lia.
  replace (Z.pred (Z.succ (Z.of_nat (length l)))) with (Z.of_nat (length l)) by lia.
  rewrite <- IH. f_equal. apply imap_ext. intros i y _. cbn. do 2 f_equal. lia.
Qed.

Lemma toDetections_ids predictions :
  d_id <$> toDetections predictions =
  seqZ 0 (Z.of_nat (length (toDetections predictions))).
Proof.
  unfold toDetections. rewrite length_imap.
  apply (imap_ids p_bbox p_score p_class _ 0%nat).
Qed.

Lemma EffectInv_atStage s e :
  EffectInv e -> s <> suspended -> EffectInv (atStage s e).
Proof. intros [H1 H2 H3 H4 H5] Hs. by split. Qed.

Lemma EffectInv_halted e : EffectInv e -> EffectInv (halted e).
Proof. intros [H1 H2 H3 H4 H5]. by split. Qed.

Lemma EffectInv_new sel blur : EffectInv (newEffect sel blur).
Proof. by split. Qed.

Lemma PageInv_withEffect h pg k e :
  PageInv h pg -> EffectInv e -> PageInv h (withEffect pg k e).
Proof.
  intros [Hwf Ha Hz He] Hi. split; try done. cbn.
  destruct (decide (k < length (pg_effects pg))%nat) as [Hk|Hk].
  - by apply Forall_insert.
  - by rewrite list_insert_ge by lia.
Qed.

Lemma PageInv_finishPass h pg k e v :
  PageInv h pg -> EffectInv e -> stage e <> suspended \/ 3 <= frameIdx e ->
  PageInv h (finishPass pg k e v).
Proof.
  intros [Hwf Ha Hz He] [H1 H2 H3 H4 H5] Hst. unfold finishPass. cbv zeta.
  split; cbn [pg_store pg_tracker pg_effects].
  - by apply wf_update.
  - apply Forall_forall. intros t Ht. split.
    + assert (H0 : Forall (fun t => 0 <= t_age t) (tracked (pg_tracker pg))).
      { eapply Forall_impl; [exact Ha|]. cbn. lia. }
      pose proof (update_ages_nonneg (pg_store pg) (pg_tracker pg) (lastDetections e) H0)
        as Hn.
      by eapply Forall_forall in Hn.
    + pose proof (update_ages _ _ _ _ Ht). unfold maxAge in *. lia.
  - intros r. destruct (Hz r) as [<- <-].
    rewrite update_store. destruct (tracked (pg_tracker pg)); [done|].
    apply ageLoop_store_size.
  - assert (Hi : EffectInv (atStage requested e)) by (by split).
    destruct (decide (k < length (pg_effects pg))%nat) as [Hk|Hk].
    + by apply Forall_insert.
    + by rewrite list_insert_ge by lia.
Qed.

Lemma PageInv_step h pg ev : PageInv h pg -> PageInv h (step pg ev).
Proof.
  intros Hinv. pose proof Hinv as [Hwf Ha Hz He].
  assert (Hk : forall k e, pg_effects pg !! k = Some e -> EffectInv e).
  { intros k e Hl. eapply Forall_forall in He; [exact He|].
    by eapply list_elem_of_lookup_2. }
  destruct ev as [sel blur|k|k p|k answer v|]; cbn [step].
  - split; try done. cbn. apply Forall_app. split; [done|].
    apply Forall_singleton, EffectInv_new.
  - destruct (pg_effects pg !! k) as [e|] eqn:E; [|done].
    apply PageInv_withEffect; [done|]. apply EffectInv_halted. eauto.
  - unfold loopCall. destruct (pg_effects pg !! k) as [e|] eqn:E; [|done].
    pose proof (Hk _ _ E) as Hi.
    destruct (stage e) eqn:Es; try done.
    destruct (negb (running e)).
    { apply PageInv_withEffect; [done|]. by apply EffectInv_atStage. }
    destruct (negb (mounted p) || paused p || ended p || _); [done|].
    destruct (negb (context p)).
    { apply PageInv_withEffect; [done|]. by apply EffectInv_atStage. }
    cbv zeta. destruct Hi as [H1 H2 H3 H4 H5].
    cbn [atFrame frameIdx].
    destruct (Z.eqb_spec (Z.rem (frameIdx e + 1) detectEveryN) 0) as [Hr|Hr];
      cbn [andb].
    + assert (H3' : 3 <= frameIdx e + 1).
      { unfold detectEveryN in Hr.
        destruct (decide (3 <= frameIdx e + 1)) as [|Hlt]; [done|]. exfalso.
        assert (Hc : frameIdx e + 1 = 1 \/ frameIdx e + 1 = 2) by lia.
        destruct Hc as [Hc|Hc]; rewrite Hc in Hr; done. }
      destruct (model p).
      * apply PageInv_withEffect; [done|].
        split; cbn; try done; try lia; try (intros _; split; [lia|done]).
      * apply PageInv_finishPass; [done| |right; cbn; lia].
        split; cbn; try done; lia.
    + apply PageInv_finishPass; [done| |left; cbn; by rewrite Es].
      split; cbn; try done; try lia.
      * intros Hlt. apply H4. lia.
      * by rewrite Es.
  - unfold loopResume. destruct (pg_effects pg !! k) as [e|] eqn:E; [|done].
    pose proof (Hk _ _ E) as Hi.
    destruct (stage e) eqn:Es; try done.
    destruct Hi as [H1 H2 H3 H4 H5]. destruct (H5 Es) as [Hpos Hrem].
    assert (H3' : 3 <= frameIdx e).
    { unfold detectEveryN in Hrem.
      destruct (decide (3 <= frameIdx e)) as [|Hlt]; [done|]. exfalso.
      assert (Hc : frameIdx e = 1 \/ frameIdx e = 2) by lia.
      destruct Hc as [Hc|Hc]; rewrite Hc in Hrem; done. }
    apply PageInv_finishPass; [done| |right; by destruct answer].
    destruct answer as [predictions|]; [|by split].
    split; cbn; try done; try lia.
    + apply toDetections_persons.
    + apply toDetections_ids.
  - split; try done. cbn. apply wf_reset.
Qed.

Lemma PageInv_mount h : PageInv h (mountPage h).
Proof. split; cbn; try done. apply wf_newTracker. Qed.

Lemma PageInv_run h events : forall pg,
  PageInv h pg -> PageInv h (runPage pg events).
Proof.
  induction events as [|ev events IH]; intros pg Hinv; [done|].
  cbn. apply IH. by apply PageInv_step.
Qed.

Lemma finishPass_tracker pg k e0 e v :
  pg_effects pg !! k = Some e0 ->
  exists e', e' ∈ pg_effects (finishPass pg k e v) /\
    lastDetections e' = lastDetections e /\
    (pg_store (finishPass pg k e v), pg_tracker (finishPass pg k e v))
      = update (pg_store pg) (pg_tracker pg) (lastDetections e).
Proof.
  intros Hk. exists (atStage requested e). split_and!.
  - cbn. apply (list_elem_of_lookup_2 _ k).
    apply list_lookup_insert_eq. by eapply lookup_lt_Some.
  - reflexivity.
  - unfold finishPass. cbv zeta. cbn [pg_store pg_tracker]. by destruct (update _ _ _).
Qed.

(** What an event does to the tracker: nothing, [reset], or [update] with
    the detections that a run of the effect holds after the event. *)
Lemma step_tracker pg ev :
  (pg_store (step pg ev), pg_tracker (step pg ev)) = (pg_store pg, pg_tracker pg) \/
  (pg_store (step pg ev), pg_tracker (step pg ev))
    = (pg_store pg, reset (pg_tracker pg)) \/
  exists e, e ∈ pg_effects (step pg ev) /\
    (pg_store (step pg ev), pg_tracker (step pg ev))
      = update (pg_store pg) (pg_tracker pg) (lastDetections e).
Proof.
  destruct ev as [sel blur|k|k p|k answer v|]; cbn [step].
  - by left.
  - left. by destruct (pg_effects pg !! k).
  - unfold loopCall. destruct (pg_effects pg !! k) as [e|] eqn:E; [|by left].
    destruct (stage e); try (by left).
    destruct (negb (running e)); [by left|].
    destruct (negb (mounted p) || paused p || ended p || _); [by left|].
    destruct (negb (context p)); [by left|].
    cbv zeta. destruct (_ && _); [by left|].
    right. right.
    destruct (finishPass_tracker pg k e (atFrame (frameIdx e + 1) e) (view p) E)
      as (e' & Hin & Hd & Hu).
    exists e'. split; [done|]. by rewrite Hd.
  - unfold loopResume. destruct (pg_effects pg !! k) as [e|] eqn:E; [|by left].
    destruct (stage e); try (by left).
    right. right. cbv zeta.
    match goal with |- context [finishPass pg k ?e1 v] =>
      destruct (finishPass_tracker pg k e e1 v E) as (e' & Hin & Hd & Hu) end.
    exists e'. split; [done|]. by rewrite Hd.
  - right. by left.
Qed.

(** X20.  Whatever happens to the mounted component, in whatever order
    (the effect runs and is cleaned up, frames come, answers of the detector
    arrive while other runs of the effect have started, [stopInput] resets
    the tracker): the identities of the tracker increase below its counter
    and its ages are within 0..14; the width and height of every array are
    untouched; every run of the effect holds person detections numbered 0,
    1, 2, ..., none before its third frame, and waits for the detector only
    on a frame whose number is a positive multiple of 3; and an event
    changes the tracker by [reset] or by one [update] call with such a list
    of detections, so the filter of [update] removes none of them. *)
Theorem loop_hands_the_tracker_numbered_person_detections
    (h : Store) (events : list Event) :
  let pg := runPage (mountPage h) events in
  wf (pg_tracker pg) /\
  Forall (fun t => 0 <= t_age t <= 14) (tracked (pg_tracker pg)) /\
  (forall r, b_w (pg_store pg r) = b_w (h r) /\ b_h (pg_store pg r) = b_h (h r)) /\
  Forall (fun e =>
            personDetections (lastDetections e) = lastDetections e /\
            d_id <$> lastDetections e =
              seqZ 0 (Z.of_nat (length (lastDetections e))) /\
            0 <= frameIdx e /\
            (frameIdx e < 3 -> lastDetections e = []) /\
            (stage e = suspended -> 0 < frameIdx e /\ Z.rem (frameIdx e) 3 = 0))
         (pg_effects pg) /\
  (forall ev,
     let pg' := step pg ev in
     (pg_store pg', pg_tracker pg') = (pg_store pg, pg_tracker pg) \/
     (pg_store pg', pg_tracker pg') = (pg_store pg, reset (pg_tracker pg)) \/
     exists ds,
       personDetections ds = ds /\
       d_id <$> ds = seqZ 0 (Z.of_nat (length ds)) /\
       (pg_store pg', pg_tracker pg') = update (pg_store pg) (pg_tracker pg) ds).
Proof.
  cbv zeta.
  pose proof (PageInv_run h events _ (PageInv_mount h)) as Hinv.
  pose proof Hinv as [Hwf Ha Hz He].
  split_and!; try done.
  - eapply Forall_impl; [exact He|]. intros e [H1 H2 H3 H4 H5].
    split_and!; try done. by apply personDetections_all.
  - intros ev.
    destruct (step_tracker (runPage (mountPage h) events) ev)
      as [Hs|[Hs|(e & Hin & Hs)]]; [by left|by right; left|].
    right. right. exists (lastDetections e).
    pose proof (PageInv_step h _ ev Hinv) as [_ _ _ He'].
    eapply Forall_forall in He'; [|exact Hin]. destruct He' as [H1 H2 _ _ _].
    split_and!; try done. by apply personDetections_all.
Qed.

(** A call of [loop] suspended at the detector runs to its end when the
    answer arrives, also when its run of the effect has been cleaned up and
    another run has started: here the answer, one person on array 2, gives
    the tracker its first track while the new run has not had a frame yet. *)
Example suspended_call_outlives_its_run :
  let pg :=
    runPage (mountPage Scenario.store0)
      [ effectRuns None 15;
        animationFrame 0 Clicks.shown; animationFrame 0 Clicks.shown;
        animationFrame 0 Clicks.shown;
        effectCleanup 0; effectRuns (Some 1) 15;
        detectSettles 0 (Some [ {| p_bbox := 2%nat; p_score := 0.9%float;
                                   p_class := "person" |} ]) Clicks.sizes ] in
  tracked (pg_tracker pg) =
    [ {| t_id := 1; t_bbox := 2%nat; t_score := 0.9%float; t_age := 0;
         t_velocity := (0%float, 0%float) |} ] /\
  frameIdx <$> pg_effects pg = [3; 0] /\
  running <$> pg_effects pg = [false; true].
Proof. cbv zeta. split_and!; vm_compute; reflexivity. Qed.

(** ** Witnesses of the further properties *)

(** The run [Walk.moving]. *)
Example moving_state :
  tracked Walk.moving.2 =
    [ {| t_id := 1; t_bbox := 1%nat; t_score := 0.8%float; t_age := 0;
         t_velocity := (10%float, 0%float) |};
      {| t_id := 2; t_bbox := 2%nat; t_score := 0.9%float; t_age := 1;
         t_velocity := (0%float, 0%float) |} ] /\
  Walk.moving.1 1%nat = {| b_x := 10; b_y := 0; b_w := 50; b_h := 50 |}.
Proof. split; vm_compute; reflexivity. Qed.

Lemma quiet_calls_age_then_forget_witness :
  let frames := [[ {| d_id := 0; d_bbox := 3%nat; d_score := 0.5%float;
                      d_class := "car" |} ]; []] in
  Forall quiet frames /\
  NoDup (arrays (tracked Walk.moving.2)) /\
  tracked (runState Walk.moving.1 Walk.moving.2 frames).2 =
    [ {| t_id := 1; t_bbox := 1%nat; t_score := 0.8%float; t_age := 2;
         t_velocity := (10%float, 0%float) |};
      {| t_id := 2; t_bbox := 2%nat; t_score := 0.9%float; t_age := 3;
         t_velocity := (0%float, 0%float) |} ] /\
  Walk.moving.1 1%nat = {| b_x := 10; b_y := 0; b_w := 50; b_h := 50 |} /\
  (runState Walk.moving.1 Walk.moving.2 frames).1 1%nat =
    {| b_x := 30; b_y := 0; b_w := 50; b_h := 50 |}.
Proof.
  cbv zeta.
  set (frames := [[ {| d_id := 0; d_bbox := 3%nat; d_score := 0.5%float;
                       d_class := "car"%string |} ]; []]).
  assert (H1 : Forall quiet frames) by (repeat constructor).
  assert (H2 : frames <> []) by discriminate.
  assert (E : tracked Walk.moving.2 =
    [ {| t_id := 1; t_bbox := 1%nat; t_score := 0.8%float; t_age := 0;
         t_velocity := (10%float, 0%float) |};
      {| t_id := 2; t_bbox := 2%nat; t_score := 0.9%float; t_age := 1;
         t_velocity := (0%float, 0%float) |} ]) by (vm_compute; reflexivity).
  assert (H3 : NoDup (arrays (tracked Walk.moving.2))).
  { rewrite E. cbn. apply NoDup_cons. split; [|apply NoDup_singleton].
    intros H. apply list_elem_of_singleton in H. discriminate. }
  destruct (quiet_calls_age_then_forget Walk.moving.1 Walk.moving.2 frames H1 H2)
    as (Ht & _ & _ & _ & _ & Hs).
  split; [exact H1|]. split; [exact H3|]. split; [|split].
  - rewrite Ht, E. reflexivity.
  - vm_compute; reflexivity.
  - refine (eq_trans
              (Hs H3 {| t_id := 1; t_bbox := 1%nat; t_score := 0.8%float; t_age := 0;
                        t_velocity := (10%float, 0%float) |} _ _) _).
    + rewrite E. left.
    + cbn. lia.
    + vm_compute. reflexivity.
Defined.

Lemma fresh_arrays_make_coasting_exact_witness :
  let frames := Walk.frames ++ [[Scenario.person 3%nat 0.7%float]] in
  let h := Walk.moving.1 in
  let this := Walk.moving.2 in
  let f := [Scenario.person 3%nat 0.7%float] in
  NoDup (frameArrays frames) /\
  tracked this !! 0%nat =
    Some {| t_id := 1; t_bbox := 1%nat; t_score := 0.8%float; t_age := 0;
            t_velocity := (10%float, 0%float) |} /\
  matched (matching h this f) = {[1%nat]} /\
  b_x (h 1%nat) = 10%float /\
  b_x ((update h this f).1 1%nat) = 20%float /\
  arrays (tracked (update h this f).2) = [1%nat; 3%nat].
Proof.
  cbv zeta.
  assert (H1 : NoDup (frameArrays (Walk.frames ++ [[Scenario.person 3%nat 0.7%float]]))).
  { assert (E : frameArrays (Walk.frames ++ [[Scenario.person 3%nat 0.7%float]])
                = [0%nat; 2%nat; 1%nat; 3%nat]) by (vm_compute; reflexivity).
    rewrite E. repeat (apply NoDup_cons; split; [set_solver|]). apply NoDup_nil_2. }
  assert (H2 : tracked Walk.moving.2 !! 0%nat =
    Some {| t_id := 1; t_bbox := 1%nat; t_score := 0.8%float; t_age := 0;
            t_velocity := (10%float, 0%float) |}) by (vm_compute; reflexivity).
  assert (H3 : matched (matching Walk.moving.1 Walk.moving.2
                          [Scenario.person 3%nat 0.7%float]) = {[1%nat]}).
  { rewrite (inv_matched _ _ _ _ _ (matching_inv _ _ _)).
    assert (E : matches Walk.moving.1 Walk.moving.2 [Scenario.person 3%nat 0.7%float]
                = [(1, 0)]%nat) by (vm_compute; reflexivity).
    rewrite E. cbn. set_solver. }
  destruct (fresh_arrays_make_coasting_exact Walk.store _ H1
              Walk.frames [Scenario.person 3%nat 0.7%float] [] eq_refl)
    as (_ & Hadv & _).
  split; [exact H1|]. split; [exact H2|]. split; [exact H3|].
  split; [vm_compute; reflexivity|].
  destruct (Hadv 0%nat _ H2) as (_ & _ & _ & Hx & _).
  { unfold Walk.moving in H3. rewrite H3. intros Hm.
    apply elem_of_singleton in Hm. discriminate. }
  split.
  - refine (eq_trans Hx _). vm_compute. reflexivity.
  - vm_compute. reflexivity.
Defined.

Lemma update_reads_person_arrays_and_scores_witness :
  update Scenario.one.1 Scenario.one.2 [Scenario.person 1%nat 0.8%float] =
  update Scenario.one.1 Scenario.one.2
    [ {| d_id := 3; d_bbox := 2%nat; d_score := 0.5%float; d_class := "car" |};
      {| d_id := 7; d_bbox := 1%nat; d_score := 0.8%float; d_class := "person" |} ].
Proof.
  apply update_reads_person_arrays_and_scores. vm_compute. reflexivity.
Defined.

Lemma rematch_with_own_array_stops_the_track_witness :
  (0%nat, 0%nat) ∈ matches Scenario.one.1 Scenario.one.2 [Scenario.person 0%nat 0.9%float] /\
  postTracks Scenario.one.1 Scenario.one.2 [Scenario.person 0%nat 0.9%float] !! 0%nat =
    Some {| t_id := 1; t_bbox := 0%nat; t_score := 0.9%float; t_age := 0;
            t_velocity := (0%float, 0%float) |}.
Proof.
  assert (H1 : (0%nat, 0%nat) ∈ matches Scenario.one.1 Scenario.one.2
                                  [Scenario.person 0%nat 0.9%float])
    by (vm_compute; left).
  assert (H2 : tracked Scenario.one.2 !! 0%nat =
               Some {| t_id := 1; t_bbox := 0%nat; t_score := 0.9%float; t_age := 0;
                       t_velocity := (0%float, 0%float) |})
    by (vm_compute; reflexivity).
  assert (H3 : personDetections [Scenario.person 0%nat 0.9%float] !! 0%nat =
               Some (Scenario.person 0%nat 0.9%float))
    by (vm_compute; reflexivity).
  assert (H4 : is_finite (b_x (Scenario.one.1 0%nat)) = true) by (vm_compute; reflexivity).
  assert (H5 : is_finite (b_y (Scenario.one.1 0%nat)) = true) by (vm_compute; reflexivity).
  split; [exact H1|].
  exact (proj1 (rematch_with_own_array_stops_the_track _ _ _ _ _ _ _ H1 H2 H3 eq_refl H4 H5)).
Defined.

Lemma far_apart_rectangles_never_match_witness :
  disjointBoxes
    (predictedBox Far.one.1
       {| t_id := 1; t_bbox := 0%nat; t_score := 0.9%float; t_age := 0;
          t_velocity := (0%float, 0%float) |})
    (Far.one.1 1%nat) /\
  (0%nat, 0%nat) ∉ matches Far.one.1 Far.one.2 [Scenario.person 1%nat 0.8%float].
Proof.
  assert (H1 : tracked Far.one.2 !! 0%nat =
               Some {| t_id := 1; t_bbox := 0%nat; t_score := 0.9%float; t_age := 0;
                       t_velocity := (0%float, 0%float) |})
    by (vm_compute; reflexivity).
  assert (H2 : personDetections [Scenario.person 1%nat 0.8%float] !! 0%nat =
               Some (Scenario.person 1%nat 0.8%float))
    by (vm_compute; reflexivity).
  assert (H3 : disjointBoxes
                 (predictedBox Far.one.1
                    {| t_id := 1; t_bbox := 0%nat; t_score := 0.9%float; t_age := 0;
                       t_velocity := (0%float, 0%float) |})
                 (Far.one.1 1%nat))
    by (left; vm_compute; reflexivity).
  split; [exact H3|].
  refine (proj2 (far_apart_rectangles_never_match _ _ _ _ _ _ _ H1 H2 H3 _)).
  vm_compute. reflexivity.
Defined.

Lemma same_center_pair_is_a_candidate_witness :
  centerDistance
    (predictedBox Scenario.one.1
       {| t_id := 1; t_bbox := 0%nat; t_score := 0.9%float; t_age := 0;
          t_velocity := (0%float, 0%float) |})
    (Scenario.one.1 0%nat) = 0%float /\
  matches Scenario.one.1 Scenario.one.2 [Scenario.person 0%nat 0.9%float]
    = [(0, 0)]%nat.
Proof.
  assert (H1 : tracked Scenario.one.2 !! 0%nat =
               Some {| t_id := 1; t_bbox := 0%nat; t_score := 0.9%float; t_age := 0;
                       t_velocity := (0%float, 0%float) |})
    by (vm_compute; reflexivity).
  assert (H2 : personDetections [Scenario.person 0%nat 0.9%float] !! 0%nat =
               Some (Scenario.person 0%nat 0.9%float))
    by (vm_compute; reflexivity).
  assert (H3 : centerDistance
                 (predictedBox Scenario.one.1
                    {| t_id := 1; t_bbox := 0%nat; t_score := 0.9%float; t_age := 0;
                       t_velocity := (0%float, 0%float) |})
                 (Scenario.one.1 0%nat) = 0%float)
    by (vm_compute; reflexivity).
  split; [exact H3|].
  refine (proj2 (proj2 (proj2 (proj2
            (same_center_pair_is_a_candidate _ _ _ _ _ _ _ H1 H2 H3 _ _)))) _ _);
    vm_compute; reflexivity.
Defined.

Lemma findPersonAtPoint_needs_a_canvas_witness :
  Forall (fun p => finiteBox (Scenario.one.1 (t_bbox p)) = true) (tracked Scenario.one.2) /\
  findPersonAtPoint Scenario.one.1 (tracked Scenario.one.2) 60 60 0 360 1280 720 = None.
Proof.
  assert (H : Forall (fun p => finiteBox (Scenario.one.1 (t_bbox p)) = true)
                     (tracked Scenario.one.2)).
  { assert (E : tracked Scenario.one.2 =
                [ {| t_id := 1; t_bbox := 0%nat; t_score := 0.9%float; t_age := 0;
                     t_velocity := (0%float, 0%float) |} ])
      by (vm_compute; reflexivity).
    rewrite E. constructor; [vm_compute; reflexivity|constructor]. }
  split; [exact H|].
  apply findPersonAtPoint_needs_a_canvas. left. split; [|exact H].
  left. reflexivity.
Defined.

Lemma clicked_person_is_the_one_drawn_sharp_witness :
  wf Scenario.one.2 /\
  handleCanvasClick Scenario.one.1 Scenario.one.2 (Some Clicks.sizes) Clicks.click None
    = Some 1 /\
  exists p,
    t_id p = 1 /\
    renderWithSelectiveBlur Scenario.one.1 640 360 1280 720 (tracked Scenario.one.2)
      (Some 1) (Some 15%float) =
      [save; setFilter (filterBlur 15); drawImage 0 0 640 360; restore;
       save; beginPath;
       rect (b_x (Scenario.one.1 (t_bbox p)) * (640 / 1280))%float
            (b_y (Scenario.one.1 (t_bbox p)) * (360 / 720))%float
            (b_w (Scenario.one.1 (t_bbox p)) * (640 / 1280))%float
            (b_h (Scenario.one.1 (t_bbox p)) * (360 / 720))%float;
       clip; setFilter filterNone; drawImage 0 0 640 360; restore].
Proof.
  assert (H1 : wf Scenario.one.2) by (apply wf_runState, wf_newTracker).
  assert (H2 : handleCanvasClick Scenario.one.1 Scenario.one.2 (Some Clicks.sizes)
                 Clicks.click None = Some 1)
    by (vm_compute; reflexivity).
  assert (H3 : falsy (videoWidth Clicks.sizes) || falsy (videoHeight Clicks.sizes) = false)
    by reflexivity.
  split; [exact H1|]. split; [exact H2|].
  destruct (clicked_person_is_the_one_drawn_sharp _ _ _ _ _ _ 15%float H1 H2 H3)
    as (p & _ & Hid & Hr).
  exists p. split; [exact Hid|exact Hr].
Defined.
